(** * pylru: an LRU cache over a circular doubly linked list and a dictionary

    A shallow embedding of [lru.py] and the verification of its
    specification.  The two classes of the file, [lrucache] (hash table
    plus circular doubly linked list of pre-built nodes) and
    [simplelrucache] (the ordered-list cache the self test compares it
    with), are modelled in the modules of the same names.

    Python objects are mutable and shared: the nodes of the list are
    referenced from the dictionary, from [head] and from each other.  They
    are therefore kept in a store ([heap], a list of [dlnode] records) and
    a reference to a node is its index in that store.  Methods are
    computations in a state-and-exception monad over the cache object, so
    that what a method has done when an exception escapes is part of its
    meaning.

    [__del__] is the one method that sets links to [None]; it runs on
    nodes of its own type, whose links are optional.  The self test and
    the two timed functions at the end of the file are functions of the
    numbers they draw or read. *)

From stdpp Require Import gmap strings list fin_maps.
From Stdlib Require Import ZArith Lia.

Set Warnings "-clear-no-such-hyp".

Local Open Scope Z_scope.
Local Open Scope nat_scope.

(** ** Python values and exceptions *)

(** The keys and objects the development stores in a cache: [None],
    integers and strings, compared with Python's [==]. *)
Inductive pyval : Type :=
  | PNone
  | PInt (z : Z)
  | PStr (s : string).

#[global] Instance pyval_eq_dec : EqDecision pyval.
Proof. solve_decision. Defined.

Definition pyval_encode (v : pyval) : unit + (Z + string) :=
  match v with
  | PNone => inl tt
  | PInt z => inr (inl z)
  | PStr s => inr (inr s)
  end.

Definition pyval_decode (x : unit + (Z + string)) : pyval :=
  match x with
  | inl _ => PNone
  | inr (inl z) => PInt z
  | inr (inr s) => PStr s
  end.

#[global] Instance pyval_countable : Countable pyval.
Proof.
  apply (inj_countable' pyval_encode pyval_decode).
  intros []; reflexivity.
Defined.

Inductive exn : Type :=
  | KeyError
  | AssertionError
  | AttributeError.

#[global] Instance exn_eq_dec : EqDecision exn.
Proof. solve_decision. Defined.

(** [range(a, b)] for the loops of the source. *)
Definition range (a b : Z) : list Z :=
  (λ i : nat, a + Z.of_nat i)%Z <$> seq 0 (Z.to_nat (b - a)).

(** ** The class [lrucache] *)

Module lrucache.

(** A reference to a node: its index in the store. *)
Abbreviation ref := nat.

(** [class dlnode]: the two links, the key and the object. *)
Record dlnode : Type := Dlnode {
  next : ref;
  prev : ref;
  key : pyval;
  obj : pyval
}.

(** The instance: the dictionary [table], the distinguished node [head]
    and the store holding the nodes. *)
Record t : Type := Cache {
  table : gmap pyval ref;
  head : ref;
  heap : list dlnode
}.

(** *** The state and exception monad of the methods *)

Definition M (A : Type) : Type := t → (exn + A) * t.

#[global] Instance M_ret : MRet M := λ A a c, (inr a, c).

#[global] Instance M_bind : MBind M := λ A B f m c,
  match m c with
  | (inr a, c') => f a c'
  | (inl e, c') => (inl e, c')
  end.

Definition raise {A} (e : exn) : M A := λ c, (inl e, c).

Definition assert (b : bool) : M unit :=
  if b then mret () else raise AssertionError.

Fixpoint for_ {A} (l : list A) (body : A → M unit) : M unit :=
  match l with
  | [] => mret ()
  | x :: l' => body x;; for_ l' body
  end.

(** *** Attribute reads and writes *)

(** Reading an attribute of a node through a reference.  The nodes are
    never destroyed, so a reference held by the program always points
    into the store (lemma [wf_reachable] below); the default is never
    taken on a reachable state. *)
Definition dangling : dlnode := Dlnode 0 0 PNone PNone.

Definition node_at (h : list dlnode) (n : ref) : dlnode :=
  default dangling (h !! n).

Definition nxt (h : list dlnode) (n : ref) : ref := next (node_at h n).
Definition prv (h : list dlnode) (n : ref) : ref := prev (node_at h n).
Definition key_of (h : list dlnode) (n : ref) : pyval := key (node_at h n).
Definition obj_of (h : list dlnode) (n : ref) : pyval := obj (node_at h n).

Definition with_next (v : ref) (d : dlnode) : dlnode :=
  Dlnode v (prev d) (key d) (obj d).
Definition with_prev (v : ref) (d : dlnode) : dlnode :=
  Dlnode (next d) v (key d) (obj d).
Definition with_key (v : pyval) (d : dlnode) : dlnode :=
  Dlnode (next d) (prev d) v (obj d).
Definition with_obj (v : pyval) (d : dlnode) : dlnode :=
  Dlnode (next d) (prev d) (key d) v.

Definition upd (f : dlnode → dlnode) (n : ref) (h : list dlnode)
  : list dlnode :=
  match h !! n with
  | Some d => <[n := f d]> h
  | None => h
  end.

Definition with_heap (f : list dlnode → list dlnode) (c : t) : t :=
  Cache (table c) (head c) (f (heap c)).

Definition get_next (n : ref) : M ref := λ c, (inr (nxt (heap c) n), c).
Definition get_prev (n : ref) : M ref := λ c, (inr (prv (heap c) n), c).
Definition get_key (n : ref) : M pyval := λ c, (inr (key_of (heap c) n), c).
Definition get_obj (n : ref) : M pyval := λ c, (inr (obj_of (heap c) n), c).

Definition set_next (n v : ref) : M unit :=
  λ c, (inr (), with_heap (upd (with_next v) n) c).
Definition set_prev (n v : ref) : M unit :=
  λ c, (inr (), with_heap (upd (with_prev v) n) c).
Definition set_key (n : ref) (v : pyval) : M unit :=
  λ c, (inr (), with_heap (upd (with_key v) n) c).
Definition set_obj (n : ref) (v : pyval) : M unit :=
  λ c, (inr (), with_heap (upd (with_obj v) n) c).

Definition get_head : M ref := λ c, (inr (head c), c).
Definition set_head (n : ref) : M unit :=
  λ c, (inr (), Cache (table c) n (heap c)).

(** [dlnode()]: a fresh node linked to itself, with no key and no
    object. *)
Definition new_dlnode : M ref := λ c,
  let n := length (heap c) in
  (inr n, with_heap (λ h, h ++ [Dlnode n n PNone PNone]) c).

(** *** The dictionary *)

Definition with_table (f : gmap pyval ref → gmap pyval ref) (c : t) : t :=
  Cache (f (table c)) (head c) (heap c).

(** [key in self.table] *)
Definition table_contains (k : pyval) : M bool :=
  λ c, (inr (bool_decide (is_Some (table c !! k))), c).

(** [self.table[key]] *)
Definition table_getitem (k : pyval) : M ref := λ c,
  match table c !! k with
  | Some n => (inr n, c)
  | None => (inl KeyError, c)
  end.

(** [self.table[key] = node] *)
Definition table_setitem (k : pyval) (n : ref) : M unit :=
  λ c, (inr (), with_table (insert k n) c).

(** [del self.table[key]] *)
Definition table_delitem (k : pyval) : M unit := λ c,
  match table c !! k with
  | Some _ => (inr (), with_table (delete k) c)
  | None => (inl KeyError, c)
  end.

(** [self.table = {}] and [self.table.clear()] *)
Definition table_clear : M unit := λ c, (inr (), with_table (λ _, ∅) c).

(** *** The methods *)

(** [__init__(self, size)], run on the object before it has any
    attribute. *)
Definition blank : t := Cache ∅ 0 [].

Definition __init__ (size : Z) : M unit :=
  assert (bool_decide (size > 0)%Z);;
  (* self.table = {} *)
  table_clear;;
  (* self.head = dlnode() *)
  n ← new_dlnode; set_head n;;
  for_ (range 1 size) (λ _,
    node ← new_dlnode;
    (* node.prev = self.head *)
    h ← get_head; set_prev node h;;
    (* node.next = self.head.next *)
    h ← get_head; v ← get_next h; set_next node v;;
    (* self.head.next.prev = node *)
    h ← get_head; hn ← get_next h; set_prev hn node;;
    (* self.head.next = node *)
    h ← get_head; set_next h node).

(** [__len__] *)
Definition __len__ : M nat := λ c, (inr (size (table c)), c).

(** [clear] *)
Definition clear : M unit := table_clear.

(** [__contains__] *)
Definition __contains__ (k : pyval) : M bool := table_contains k.

(** [mtf(self, node)] *)
Definition mtf (node : ref) : M unit :=
  (* node.prev.next = node.next *)
  v ← get_next node; p ← get_prev node; set_next p v;;
  (* node.next.prev = node.prev *)
  v ← get_prev node; n ← get_next node; set_prev n v;;
  (* node.prev = self.head.prev *)
  h ← get_head; v ← get_prev h; set_prev node v;;
  (* node.next = self.head.prev.next *)
  h ← get_head; hp ← get_prev h; v ← get_next hp; set_next node v;;
  (* node.next.prev = node *)
  n ← get_next node; set_prev n node;;
  (* node.prev.next = node *)
  p ← get_prev node; set_next p node.

(** [__getitem__] *)
Definition __getitem__ (k : pyval) : M pyval :=
  (* node = self.table[key] *)
  node ← table_getitem k;
  mtf node;;
  (* self.head = node *)
  set_head node;;
  (* return node.obj *)
  get_obj node.

(** [__setitem__] *)
Definition __setitem__ (k o : pyval) : M unit :=
  (* if key in self.table: *)
  b ← table_contains k;
  if b : bool then
    (* node = self.table[key]; node.obj = obj *)
    node ← table_getitem k;
    set_obj node o;;
    mtf node;;
    (* self.head = node; return *)
    set_head node
  else
    (* node = self.head.prev *)
    h ← get_head; node ← get_prev h;
    (* if not node.key == None: del self.table[node.key] *)
    old ← get_key node;
    (if decide (old = PNone) then mret () else table_delitem old);;
    (* node.key = key; node.obj = obj *)
    set_key node k;;
    set_obj node o;;
    (* self.table[node.key] = node *)
    k' ← get_key node; table_setitem k' node;;
    (* self.head = node *)
    set_head node.

(** [__delitem__] *)
Definition __delitem__ (k : pyval) : M unit :=
  (* node = self.table[key]; del self.table[key] *)
  node ← table_getitem k;
  table_delitem k;;
  (* node.key = None; node.obj = None *)
  set_key node PNone;;
  set_obj node PNone;;
  mtf node;;
  (* self.head = node.next *)
  n ← get_next node; set_head n.

(** [lrucache(size)] *)
Definition new (size : Z) : exn + t :=
  match __init__ size blank with
  | (inr _, c) => inr c
  | (inl e, _) => inl e
  end.

End lrucache.

(** ** The class [simplelrucache] *)

(** The cache the self test compares [lrucache] with: a Python list of
    [[key, obj]] pairs, least recently used first. *)
Module simplelrucache.

Record t : Type := Simple {
  cache : list (pyval * pyval);
  size : Z
}.

Definition R (A : Type) : Type := (exn + A) * t.

(** [__init__] *)
Definition new (size : Z) : t := Simple [] size.

(** The loop [for i in range(len(self.cache))] with its test
    [self.cache[i][0] == key]: the first index whose pair has the key,
    with the pair. *)
Fixpoint scan (k : pyval) (i : nat) (l : list (pyval * pyval))
  : option (nat * (pyval * pyval)) :=
  match l with
  | [] => None
  | x :: l' => if decide (x.1 = k) then Some (i, x) else scan k (S i) l'
  end.

(** [__contains__] *)
Definition __contains__ (k : pyval) (s : t) : bool :=
  bool_decide (is_Some (scan k 0 (cache s))).

(** [__getitem__] *)
Definition __getitem__ (k : pyval) (s : t) : R pyval :=
  match scan k 0 (cache s) with
  | Some (i, x) =>
      (* del self.cache[i]; self.cache.append(x); return x[1] *)
      (inr x.2, Simple (delete i (cache s) ++ [x]) (size s))
  | None =>
      (* assert False *)
      (inl AssertionError, s)
  end.

(** [__setitem__] *)
Definition __setitem__ (k o : pyval) (s : t) : R unit :=
  match scan k 0 (cache s) with
  | Some (i, x) =>
      (* x[1] = obj; del self.cache[i]; self.cache.append(x) *)
      (inr (), Simple (delete i (cache s) ++ [(x.1, o)]) (size s))
  | None =>
      (* if len(self.cache) == self.size: self.cache = self.cache[1:] *)
      (* self.cache.append([key, obj]) *)
      let l := if decide (Z.of_nat (length (cache s)) = size s)
               then drop 1 (cache s) else cache s in
      (inr (), Simple (l ++ [(k, o)]) (size s))
  end.

(** [__delitem__] *)
Definition __delitem__ (k : pyval) (s : t) : R unit :=
  match scan k 0 (cache s) with
  | Some (i, _) => (inr (), Simple (delete i (cache s)) (size s))
  | None => (inr (), s)
  end.

End simplelrucache.

(** ** Clients of the two classes *)

(** A call of one of the public methods that can change a cache. *)
Inductive op : Type :=
  | Get (k : pyval)
  | Set_ (k o : pyval)
  | Del (k : pyval)
  | Clear.

Definition run_op (o : op) : lrucache.M pyval :=
  match o with
  | Get k => lrucache.__getitem__ k
  | Set_ k v => lrucache.__setitem__ k v;; mret PNone
  | Del k => lrucache.__delitem__ k;; mret PNone
  | Clear => lrucache.clear;; mret PNone
  end.

(** The object after a call; a caller that catches the exception goes on
    with the object as the method left it. *)
Definition after (o : op) (c : lrucache.t) : lrucache.t := (run_op o c).2.

Definition run_ops (ops : list op) (c : lrucache.t) : lrucache.t :=
  foldl (λ c o, after o c) c ops.

(** [simplelrucache] has no method [clear]. *)
Definition run_op_simple (o : op) (s : simplelrucache.t)
  : simplelrucache.R pyval :=
  match o with
  | Get k => simplelrucache.__getitem__ k s
  | Set_ k v => (inr PNone, (simplelrucache.__setitem__ k v s).2)
  | Del k => (inr PNone, (simplelrucache.__delitem__ k s).2)
  | Clear => (inl AttributeError, s)
  end.

Definition after_simple (o : op) (s : simplelrucache.t) : simplelrucache.t :=
  (run_op_simple o s).2.

Definition run_ops_simple (ops : list op) (s : simplelrucache.t)
  : simplelrucache.t :=
  foldl (λ s o, after_simple o s) s ops.

(** The states a cache built with [lrucache(size)] can be in. *)
Definition reachable_by (allowed : op → Prop) (size : Z) (c : lrucache.t)
  : Prop :=
  ∃ c0 ops, lrucache.new size = inr c0 ∧ Forall allowed ops ∧
            c = run_ops ops c0.

Definition reachable : Z → lrucache.t → Prop := reachable_by (λ _, True).

(** Calls that do not insert under the key [None], the value the nodes
    use for "empty". *)
Definition keyed (o : op) : Prop :=
  match o with
  | Set_ k _ => k ≠ PNone
  | _ => True
  end.

(** Calls that do not store the object [None]. *)
Definition valued (o : op) : Prop :=
  match o with
  | Set_ _ v => v ≠ PNone
  | _ => True
  end.

(** Calls of [__getitem__], [__setitem__] and [__delitem__] that do not
    insert under the key [None]. *)
Definition keyed_no_clear (o : op) : Prop := keyed o ∧ o ≠ Clear.

(** The check of the self test: the nodes met from [head] along [next], as
    many as the dictionary has entries, against the pairs of the simple
    cache from last to first. *)
Fixpoint dump (h : list lrucache.dlnode) (z : lrucache.ref) (n : nat)
  : list (pyval * pyval) :=
  match n with
  | 0 => []
  | S n' =>
      (lrucache.key_of h z, lrucache.obj_of h z)
        :: dump h (lrucache.nxt h z) n'
  end.

Definition items (a : lrucache.t) : list (pyval * pyval) :=
  dump (lrucache.heap a) (lrucache.head a) (size (lrucache.table a)).

Definition agree (a : lrucache.t) (b : simplelrucache.t) : Prop :=
  items a = reverse (simplelrucache.cache b).

(** The nodes met from a node along [next]. *)
Fixpoint walk (h : list lrucache.dlnode) (z : lrucache.ref) (n : nat)
  : list lrucache.ref :=
  match n with
  | 0 => []
  | S n' => z :: walk h (lrucache.nxt h z) n'
  end.

(** ** Specification-level definitions *)

Import lrucache.

(** What [mtf] does to the store, as a function of the store. *)
Definition mtf_heap (hd node : ref) (h : list dlnode) : list dlnode :=
  let h1 := upd (with_next (nxt h node)) (prv h node) h in
  let h2 := upd (with_prev (prv h1 node)) (nxt h1 node) h1 in
  let h3 := upd (with_prev (prv h2 hd)) node h2 in
  let h4 := upd (with_next (nxt h3 (prv h3 hd))) node h3 in
  let h5 := upd (with_prev node) (nxt h4 node) h4 in
  upd (with_next node) (prv h5 node) h5.

(** A link function after the assignment of [v] to the link of node [i],
    in a store of [len] nodes. *)
Definition fupd (len : nat) (f : ref → ref) (i v : ref) : ref → ref :=
  λ m, if decide (m = i ∧ i < len) then v else f m.

(** [mtf] on the two link functions. *)
Definition mtf_fun (len : nat) (nx pv : ref → ref) (hd node : ref)
  : (ref → ref) * (ref → ref) :=
  let nx1 := fupd len nx (pv node) (nx node) in
  let pv1 := fupd len pv (nx1 node) (pv node) in
  let pv2 := fupd len pv1 node (pv1 hd) in
  let nx2 := fupd len nx1 node (nx1 (pv2 hd)) in
  let pv3 := fupd len pv2 (nx2 node) node in
  let nx3 := fupd len nx2 (pv3 node) node in
  (nx3, pv3).

(** [path nx pv a l]: from [a], the nodes of [l] follow one another along
    [nx], and [pv] leads back. *)
Fixpoint path (nx pv : ref → ref) (a : ref) (l : list ref) : Prop :=
  match l with
  | [] => True
  | b :: l' => nx a = b ∧ pv b = a ∧ path nx pv b l'
  end.

(** [cyc nx pv l]: the nodes of [l] form a cycle, closed from the last one
    to the first. *)
Definition cyc (nx pv : ref → ref) (l : list ref) : Prop :=
  match l with
  | [] => False
  | a :: l' => path nx pv a (l' ++ [a])
  end.

(** [ring c l]: the nodes of the store of [c] are linked into one circular
    doubly linked list; from [head] on they are the nodes of [l]. *)
Definition ring (c : t) (l : list ref) : Prop :=
  l !! 0 = Some (head c) ∧
  cyc (nxt (heap c)) (prv (heap c)) l ∧
  NoDup l ∧
  ∀ n, n ∈ l ↔ n < length (heap c).

(** One round of the loop of [__init__]. *)
Definition grow (c : t) : t :=
  let n := length (heap c) in
  let h0 := heap c ++ [Dlnode n n PNone PNone] in
  let h1 := upd (with_prev (head c)) n h0 in
  let h2 := upd (with_next (nxt h1 (head c))) n h1 in
  let h3 := upd (with_prev n) (nxt h2 (head c)) h2 in
  let h4 := upd (with_next n) (head c) h3 in
  Cache (table c) (head c) h4.

(** The nodes hold no key and no object. *)
Definition all_empty (h : list dlnode) : Prop :=
  ∀ m, key_of h m = PNone ∧ obj_of h m = PNone.

(** The object when the loop of [__init__] starts. *)
Definition first_node : t := Cache ∅ 0 [Dlnode 0 0 PNone PNone].

Definition wf (cap : nat) (c : t) : Prop :=
  length (heap c) = cap ∧ (∃ l, ring c l) ∧
  ∀ k n, table c !! k = Some n → n < cap.

(** The dictionary maps a key to a node that holds this key, and has no
    entry for [None]. *)
Definition kinv (c : t) : Prop :=
  (∀ k n, table c !! k = Some n → key_of (heap c) n = k) ∧
  table c !! PNone = None.

(** A node has no key exactly when it has no object. *)
Definition einv (c : t) : Prop :=
  ∀ n, n < length (heap c) →
       (key_of (heap c) n = PNone ↔ obj_of (heap c) n = PNone).

(** The key and the object of each node of a list. *)
Definition entries (h : list dlnode) (l : list ref) : list (pyval * pyval) :=
  (λ n, (key_of h n, obj_of h n)) <$> l.

(** [data c occ emp]: the nodes of [occ] hold the keys of the dictionary,
    each key once; the nodes of [emp] hold no key. *)
Definition data (c : t) (occ emp : list ref) : Prop :=
  Forall (λ n, key_of (heap c) n = PNone) emp ∧
  NoDup (key_of (heap c) <$> occ) ∧
  (PNone ∉ key_of (heap c) <$> occ) ∧
  ∀ k n, table c !! k = Some n ↔ n ∈ occ ∧ key_of (heap c) n = k.

(** [rep c occ emp]: from [head] on the ring holds the occupied nodes
    [occ], then the empty nodes [emp]. *)
Definition rep (c : t) (occ emp : list ref) : Prop :=
  ring c (occ ++ emp) ∧ data c occ emp.

(** The cache and the simple cache hold the same pairs in the same order,
    the most recently used first in the ring and last in the list. *)
Definition sim (c : t) (s : simplelrucache.t) : Prop :=
  ∃ occ emp, rep c occ emp ∧
             entries (heap c) occ = reverse (simplelrucache.cache s) ∧
             simplelrucache.size s = Z.of_nat (length (heap c)).

(** The agreement of the dictionary and the ring, in a cache of [cap]
    nodes.  Of the nodes met from [head] along [next], the first
    [len(table)] are occupied, and their keys are the keys of the
    dictionary; the other nodes are empty, and the last of them is linked
    to [head]. *)
Definition index_ring_agree (cap : nat) (c : t) : Prop :=
  let n := size (table c) in
  let w := walk (heap c) (head c) cap in
  n ≤ cap ∧
  (∀ k, is_Some (table c !! k) ↔
        k ≠ PNone ∧ k ∈ key_of (heap c) <$> take n w) ∧
  Forall (λ m, key_of (heap c) m ≠ PNone) (take n w) ∧
  Forall (λ m, key_of (heap c) m = PNone) (drop n w) ∧
  nxt (heap c) (List.last w (head c)) = head c.

(** ** Specification-level definitions for the simple cache *)

(** The keys of a simple cache are distinct, and for a positive size the
    list is no longer than the size. *)
Definition simple_inv (s : simplelrucache.t) : Prop :=
  NoDup (simplelrucache.cache s).*1 ∧
  ((1 ≤ simplelrucache.size s)%Z →
   (Z.of_nat (length (simplelrucache.cache s)) ≤ simplelrucache.size s)%Z).

(** A pair moved to the front of the pairs written so far; an older pair
    with the same key goes. *)
Definition touch (R : list (pyval * pyval)) (x : pyval * pyval)
  : list (pyval * pyval) :=
  x :: filter (λ y, y.1 ≠ x.1) R.

(** The pairs written by a sequence of [__setitem__], the last written
    first, each key with the object written last. *)
Definition recent (kvs : list (pyval * pyval)) : list (pyval * pyval) :=
  foldl touch [] kvs.

(** The calls [cache[k] = v] for the pairs of a list, in order. *)
Definition sets (kvs : list (pyval * pyval)) : list op :=
  (λ x, Set_ x.1 x.2) <$> kvs.

(** ** The script at the end of the file *)

(** The loop of the self test.  [draws] are the values of [x] and [y]
    that [random.randint] returns, one pair for each round; the source
    makes 256 rounds.  The result is the two caches when the loop is
    left. *)
Fixpoint selftest_loop (draws : list (Z * Z)) (a : lrucache.t)
  (b : simplelrucache.t) : exn + (lrucache.t * simplelrucache.t) :=
  match draws with
  | [] => inr (a, b)
  | (x, y) :: draws' =>
      (* a[x] = y *)
      match __setitem__ (PInt x) (PInt y) a with
      | (inl e, _) => inl e
      | (inr _, a') =>
          (* b[x] = y *)
          match simplelrucache.__setitem__ (PInt x) (PInt y) b with
          | (inl e, _) => inl e
          | (inr _, b') =>
              (* q is built from a.head; if q != b.cache[::-1]: assert False *)
              if decide (items a' = reverse (simplelrucache.cache b'))
              then selftest_loop draws' a' b'
              else inl AssertionError
          end
      end
  end.

(** [a = lrucache(20); b = simplelrucache(20)] and the loop. *)
Definition selftest (draws : list (Z * Z))
  : exn + (lrucache.t * simplelrucache.t) :=
  match new 20 with
  | inl e => inl e
  | inr a => selftest_loop draws a (simplelrucache.new 20)
  end.

(** What the two timed functions can raise: an exception of a cache, or
    the [IndexError] of [vect[i]]. *)
Inductive driver_exn : Type :=
  | IndexError
  | Raised (e : exn).

(** [l[i]] on a Python list; a negative index counts from the end. *)
Definition subscript {A} (l : list A) (i : Z) : option A :=
  if decide (0 ≤ i)%Z then l !! Z.to_nat i
  else if decide (- Z.of_nat (length l) ≤ i)%Z
       then l !! Z.to_nat (Z.of_nat (length l) + i)
       else None.

(** The loop [for i in range(len(vect)): a[vect[i]] = 0] of [testa]. *)
Fixpoint testa_loop (vect : list Z) (idx : list Z) (a : lrucache.t)
  : driver_exn + lrucache.t :=
  match idx with
  | [] => inr a
  | i :: idx' =>
      match subscript vect i with
      | None => inl IndexError
      | Some x =>
          match __setitem__ (PInt x) (PInt 0) a with
          | (inl e, _) => inl (Raised e)
          | (inr _, a') => testa_loop vect idx' a'
          end
      end
  end.

(** [testa()], with the global [vect]; the result is its local [a]. *)
Definition testa (vect : list Z) : driver_exn + lrucache.t :=
  match new 16 with
  | inl e => inl (Raised e)
  | inr a => testa_loop vect (range 0 (Z.of_nat (length vect))) a
  end.

(** The loop of [testb]. *)
Fixpoint testb_loop (vect : list Z) (idx : list Z) (a : simplelrucache.t)
  : driver_exn + simplelrucache.t :=
  match idx with
  | [] => inr a
  | i :: idx' =>
      match subscript vect i with
      | None => inl IndexError
      | Some x =>
          match simplelrucache.__setitem__ (PInt x) (PInt 0) a with
          | (inl e, _) => inl (Raised e)
          | (inr _, a') => testb_loop vect idx' a'
          end
      end
  end.

(** [testb()] *)
Definition testb (vect : list Z) : driver_exn + simplelrucache.t :=
  testb_loop vect (range 0 (Z.of_nat (length vect))) (simplelrucache.new 16).

(** ** The method [__del__] *)

(** A node while [__del__] runs: a link can be [None]. *)
Record onode : Type := Onode {
  onext : option ref;
  oprev : option ref;
  okey : pyval;
  oobj : pyval
}.

(** A node as the other methods leave it: both links are nodes. *)
Definition loosen (d : dlnode) : onode :=
  Onode (Some (next d)) (Some (prev d)) (key d) (obj d).

Definition onode_at (h : list onode) (n : ref) : onode :=
  default (loosen dangling) (h !! n).

(** [node.next = None] and [node.prev = None] *)
Definition cut_next (d : onode) : onode :=
  Onode None (oprev d) (okey d) (oobj d).
Definition cut_prev (d : onode) : onode :=
  Onode (onext d) None (okey d) (oobj d).

Definition oupd (f : onode → onode) (n : ref) (h : list onode)
  : list onode :=
  match h !! n with
  | Some d => <[n := f d]> h
  | None => h
  end.

(** The loop [while node.prev:] of [__del__].  A node is true and [None]
    is false; an attribute of [None] raises [AttributeError].  The loop
    has no bound in the source: it gets [fuel] rounds here, and [None] is
    the answer when they do not suffice. *)
Fixpoint del_loop (fuel : nat) (node : ref) (h : list onode)
  : option (exn + list onode) :=
  match fuel with
  | 0 => None
  | S fuel' =>
      match oprev (onode_at h node) with
      | None => Some (inr h)
      | Some p =>
          (* node = node.prev; node.next.prev = None *)
          match onext (onode_at h p) with
          | None => Some (inl AttributeError)
          | Some q => del_loop fuel' p (oupd cut_prev q h)
          end
      end
  end.

(** [__del__]: the store it leaves. *)
Definition __del__ (fuel : nat) (c : t) : option (exn + list onode) :=
  let h := loosen <$> heap c in
  (* tail = self.head.prev *)
  let tail := oprev (onode_at h (head c)) in
  (* node = self.head; while node.prev: ... *)
  match del_loop fuel (head c) h with
  | Some (inr h') =>
      (* tail.next = None *)
      match tail with
      | Some n => Some (inr (oupd cut_next n h'))
      | None => Some (inl AttributeError)
      end
  | r => r
  end.

(** The end of [k] steps along [next] from a node, or [None] when a link
    met on the way is [None]. *)
Fixpoint chase (h : list onode) (k : nat) (r : option ref) : option ref :=
  match k, r with
  | S k', Some n => chase h k' (onext (onode_at h n))
  | _, _ => r
  end.

(** ** The store *)

Section store.
Implicit Types (h : list dlnode) (n m : ref) (f : dlnode → dlnode).

Lemma length_upd f n h : length (upd f n h) = length h.
Proof. unfold upd. destruct (h !! n); [apply length_insert | done]. Qed.

Lemma node_at_upd f n h m :
  node_at (upd f n h) m =
  if decide (m = n ∧ n < length h) then f (node_at h n) else node_at h m.
Proof.
  unfold upd, node_at. destruct (h !! n) as [d|] eqn:E.
  - pose proof (lookup_lt_Some _ _ _ E) as Hlt.
    destruct (decide (m = n)) as [->|Hne].
    + rewrite list_lookup_insert_eq by done. rewrite E.
      by rewrite decide_True.
    + rewrite list_lookup_insert_ne by done.
      rewrite decide_False; [done | by intros [? _]].
  - apply lookup_ge_None in E. rewrite decide_False; [done | lia].
Qed.

(** A write to one attribute leaves the other attributes as they are. *)
Ltac other_field :=
  let Hd := fresh in
  rewrite node_at_upd; case_decide as Hd; [destruct Hd as [-> _]|];
  reflexivity.

Lemma nxt_upd_next v n h m :
  nxt (upd (with_next v) n h) m = fupd (length h) (nxt h) n v m.
Proof. unfold nxt, fupd. rewrite node_at_upd. by case_decide. Qed.

Lemma prv_upd_prev v n h m :
  prv (upd (with_prev v) n h) m = fupd (length h) (prv h) n v m.
Proof. unfold prv, fupd. rewrite node_at_upd. by case_decide. Qed.

Lemma nxt_upd_prev v n h m : nxt (upd (with_prev v) n h) m = nxt h m.
Proof. unfold nxt. other_field. Qed.

Lemma prv_upd_next v n h m : prv (upd (with_next v) n h) m = prv h m.
Proof. unfold prv. other_field. Qed.

Lemma nxt_upd_key v n h m : nxt (upd (with_key v) n h) m = nxt h m.
Proof. unfold nxt. other_field. Qed.

Lemma prv_upd_key v n h m : prv (upd (with_key v) n h) m = prv h m.
Proof. unfold prv. other_field. Qed.

Lemma nxt_upd_obj v n h m : nxt (upd (with_obj v) n h) m = nxt h m.
Proof. unfold nxt. other_field. Qed.

Lemma prv_upd_obj v n h m : prv (upd (with_obj v) n h) m = prv h m.
Proof. unfold prv. other_field. Qed.

Lemma key_of_upd_next v n h m : key_of (upd (with_next v) n h) m = key_of h m.
Proof. unfold key_of. other_field. Qed.

Lemma key_of_upd_prev v n h m : key_of (upd (with_prev v) n h) m = key_of h m.
Proof. unfold key_of. other_field. Qed.

Lemma key_of_upd_obj v n h m : key_of (upd (with_obj v) n h) m = key_of h m.
Proof. unfold key_of. other_field. Qed.

Lemma key_of_upd_key v n h m :
  key_of (upd (with_key v) n h) m =
  if decide (m = n ∧ n < length h) then v else key_of h m.
Proof. unfold key_of. rewrite node_at_upd. by case_decide. Qed.

Lemma obj_of_upd_next v n h m : obj_of (upd (with_next v) n h) m = obj_of h m.
Proof. unfold obj_of. other_field. Qed.

Lemma obj_of_upd_prev v n h m : obj_of (upd (with_prev v) n h) m = obj_of h m.
Proof. unfold obj_of. other_field. Qed.

Lemma obj_of_upd_key v n h m : obj_of (upd (with_key v) n h) m = obj_of h m.
Proof. unfold obj_of. other_field. Qed.

Lemma obj_of_upd_obj v n h m :
  obj_of (upd (with_obj v) n h) m =
  if decide (m = n ∧ n < length h) then v else obj_of h m.
Proof. unfold obj_of. rewrite node_at_upd. by case_decide. Qed.

(** Two stores with the same nodes are the same store. *)
Lemma heap_ext h h' :
  length h = length h' →
  (∀ m, m < length h → nxt h m = nxt h' m ∧ prv h m = prv h' m ∧
        key_of h m = key_of h' m ∧ obj_of h m = obj_of h' m) →
  h = h'.
Proof.
  intros Hlen Hf. apply list_eq_same_length with (length h); [done..|].
  intros i d d' Hi Hd Hd'. specialize (Hf i Hi).
  unfold nxt, prv, key_of, obj_of, node_at in Hf. rewrite Hd, Hd' in Hf.
  destruct d, d'; simpl in Hf.
  by destruct Hf as (-> & -> & -> & ->).
Qed.

Lemma length_mtf_heap hd n h : length (mtf_heap hd n h) = length h.
Proof. unfold mtf_heap. by rewrite !length_upd. Qed.

Lemma key_of_mtf_heap hd n h m : key_of (mtf_heap hd n h) m = key_of h m.
Proof.
  unfold mtf_heap.
  by repeat first [rewrite key_of_upd_next | rewrite key_of_upd_prev].
Qed.

Lemma obj_of_mtf_heap hd n h m : obj_of (mtf_heap hd n h) m = obj_of h m.
Proof.
  unfold mtf_heap.
  by repeat first [rewrite obj_of_upd_next | rewrite obj_of_upd_prev].
Qed.

Lemma fupd_ext len len' (g g' : ref → ref) i i' v v' m :
  len = len' → (∀ m, g m = g' m) → i = i' → v = v' →
  fupd len g i v m = fupd len' g' i' v' m.
Proof. intros -> Hg -> ->. unfold fupd. by rewrite Hg. Qed.

(** The links after [mtf] are those of [mtf_fun]. *)
Lemma links_mtf_heap hd n h m :
  nxt (mtf_heap hd n h) m = (mtf_fun (length h) (nxt h) (prv h) hd n).1 m ∧
  prv (mtf_heap hd n h) m = (mtf_fun (length h) (nxt h) (prv h) hd n).2 m.
Proof.
  set (len := length h).
  pose (h1 := upd (with_next (nxt h n)) (prv h n) h).
  pose (h2 := upd (with_prev (prv h1 n)) (nxt h1 n) h1).
  pose (h3 := upd (with_prev (prv h2 hd)) n h2).
  pose (h4 := upd (with_next (nxt h3 (prv h3 hd))) n h3).
  pose (h5 := upd (with_prev n) (nxt h4 n) h4).
  pose (h6 := upd (with_next n) (prv h5 n) h5).
  pose (nx1 := fupd len (nxt h) (prv h n) (nxt h n)).
  pose (pv1 := fupd len (prv h) (nx1 n) (prv h n)).
  pose (pv2 := fupd len pv1 n (pv1 hd)).
  pose (nx2 := fupd len nx1 n (nx1 (pv2 hd))).
  pose (pv3 := fupd len pv2 (nx2 n) n).
  pose (nx3 := fupd len nx2 (pv3 n) n).
  assert (length h1 = len) as L1 by apply length_upd.
  assert (length h2 = len) as L2 by (unfold h2; by rewrite length_upd).
  assert (length h3 = len) as L3 by (unfold h3; by rewrite length_upd).
  assert (length h4 = len) as L4 by (unfold h4; by rewrite length_upd).
  assert (length h5 = len) as L5 by (unfold h5; by rewrite length_upd).
  assert (∀ m, nxt h1 m = nx1 m) as N1 by (intros; apply nxt_upd_next).
  assert (∀ m, prv h1 m = prv h m) as P1 by (intros; apply prv_upd_next).
  assert (∀ m, nxt h2 m = nx1 m) as N2.
  { intros. unfold h2. by rewrite nxt_upd_prev. }
  assert (∀ m, prv h2 m = pv1 m) as P2.
  { intros. unfold h2. rewrite prv_upd_prev. by apply fupd_ext. }
  assert (∀ m, nxt h3 m = nx1 m) as N3.
  { intros. unfold h3. by rewrite nxt_upd_prev. }
  assert (∀ m, prv h3 m = pv2 m) as P3.
  { intros. unfold h3. rewrite prv_upd_prev. by apply fupd_ext. }
  assert (∀ m, nxt h4 m = nx2 m) as N4.
  { intros. unfold h4. rewrite nxt_upd_next. apply fupd_ext; try done.
    by rewrite N3, P3. }
  assert (∀ m, prv h4 m = pv2 m) as P4.
  { intros. unfold h4. by rewrite prv_upd_next. }
  assert (∀ m, nxt h5 m = nx2 m) as N5.
  { intros. unfold h5. by rewrite nxt_upd_prev. }
  assert (∀ m, prv h5 m = pv3 m) as P5.
  { intros. unfold h5. rewrite prv_upd_prev. by apply fupd_ext. }
  assert (∀ m, nxt h6 m = nx3 m) as N6.
  { intros. unfold h6. rewrite nxt_upd_next. by apply fupd_ext. }
  assert (∀ m, prv h6 m = pv3 m) as P6.
  { intros. unfold h6. by rewrite prv_upd_next. }
  split; [apply N6 | apply P6].
Qed.

Lemma mtf_run n (c : t) :
  mtf n c = (inr (), with_heap (mtf_heap (head c) n) c).
Proof. reflexivity. Qed.

End store.

(** ** Cycles of links *)

Section cycles.
Implicit Types (nx pv : ref → ref) (a b n m : ref) (l : list ref).

Lemma path_app nx pv a l1 b l2 :
  path nx pv a (l1 ++ b :: l2) ↔ path nx pv a (l1 ++ [b]) ∧ path nx pv b l2.
Proof.
  revert a. induction l1 as [|c l1 IH]; intros a; simpl.
  - tauto.
  - rewrite IH. tauto.
Qed.

Lemma last_cons a c l : List.last (c :: l) a = List.last l c.
Proof.
  revert a c. induction l as [|d l IH]; intros a c; [done|].
  change (List.last (c :: d :: l) a) with (List.last (d :: l) a).
  by rewrite !IH.
Qed.

Lemma path_snoc nx pv a l b :
  path nx pv a (l ++ [b]) ↔
  path nx pv a l ∧ nx (List.last l a) = b ∧ pv b = List.last l a.
Proof.
  revert a. induction l as [|c l IH]; intros a.
  - simpl. tauto.
  - change ((c :: l) ++ [b]) with (c :: (l ++ [b])).
    cbn [path]. rewrite IH.
    rewrite last_cons. tauto.
Qed.

Lemma last_elem a l : List.last l a ∈ a :: l.
Proof.
  revert a. induction l as [|c l IH]; intros a; [set_solver|].
  rewrite last_cons. specialize (IH c). set_solver.
Qed.

Lemma path_frame nx pv nx' pv' a l :
  NoDup (a :: l) →
  path nx pv a l →
  (∀ m, m ∈ a :: l → m ≠ List.last l a → nx' m = nx m) →
  (∀ m, m ∈ l → pv' m = pv m) →
  path nx' pv' a l.
Proof.
  revert a. induction l as [|b l IH]; intros a Hnd Hp Hnx Hpv; [done|].
  destruct Hp as (Hab & Hba & Hp). cbn [path].
  apply NoDup_cons in Hnd as [Ha Hnd].
  split_and!.
  - rewrite Hnx; [done | set_solver |].
    intros E. apply Ha. rewrite E. rewrite last_cons. apply last_elem.
  - rewrite Hpv; [done | set_solver].
  - apply IH; [done..| |].
    + intros m Hm Hl. apply Hnx; [set_solver|]. by rewrite last_cons.
    + intros m Hm. apply Hpv. set_solver.
Qed.

Lemma path_ext nx pv nx' pv' a l :
  (∀ m, nx' m = nx m) → (∀ m, pv' m = pv m) →
  path nx pv a l → path nx' pv' a l.
Proof.
  intros Hnx Hpv. revert a. induction l as [|b l IH]; intros a; [done|].
  simpl. rewrite Hnx, Hpv. naive_solver.
Qed.

Lemma cyc_ext nx pv nx' pv' l :
  (∀ m, nx' m = nx m) → (∀ m, pv' m = pv m) →
  cyc nx pv l → cyc nx' pv' l.
Proof. destruct l; [done|]. apply path_ext. Qed.

(** A cycle can be read from any of its nodes. *)
Lemma cyc_rotate nx pv l1 l2 :
  cyc nx pv (l1 ++ l2) → l2 ≠ [] → cyc nx pv (l2 ++ l1).
Proof.
  intros Hc Hne. destruct l2 as [|b l2]; [done|].
  destruct l1 as [|a l1]; [by rewrite app_nil_r|].
  simpl in *. rewrite <- app_assoc in *. simpl in *.
  apply path_app in Hc as [H1 H2].
  apply path_app. done.
Qed.

(** In a cycle [next] and [prev] are inverse of each other. *)
Lemma cyc_inverse nx pv l n :
  cyc nx pv l → n ∈ l → pv (nx n) = n ∧ nx (pv n) = n.
Proof.
  intros Hc Hn. apply list_elem_of_split in Hn as (l1 & l2 & ->).
  apply (cyc_rotate _ _ l1 (n :: l2)) in Hc; [|done].
  simpl in Hc. set (r := l2 ++ l1) in *.
  apply path_snoc in Hc as (Hp & Hl1 & Hl2). split.
  - destruct r as [|b r]; simpl in *; [congruence|].
    destruct Hp as (<- & ? & _). done.
  - congruence.
Qed.

Lemma cyc_next_in nx pv l n :
  cyc nx pv l → n ∈ l → nx n ∈ l ∧ pv n ∈ l.
Proof.
  intros Hc Hn. apply list_elem_of_split in Hn as (l1 & l2 & ->).
  apply (cyc_rotate _ _ l1 (n :: l2)) in Hc; [|done].
  simpl in Hc.
  assert (∀ m, m ∈ n :: l2 ++ l1 → m ∈ l1 ++ n :: l2) as Hin
    by set_solver.
  revert Hc Hin. generalize (l2 ++ l1). intros r Hc Hin.
  apply path_snoc in Hc as (Hp & Hl1 & Hl2). split; apply Hin.
  - destruct r as [|b r]; simpl in *; [set_solver|].
    destruct Hp as (-> & _). set_solver.
  - rewrite Hl2. apply last_elem.
Qed.

End cycles.

(** ** Moving a node to the front *)

Ltac fupd_solve :=
  unfold fupd; repeat case_decide; destruct_and?; subst;
  try done; try congruence; try (exfalso; naive_solver congruence).

(** [mtf] of the head node leaves the links as they are. *)
Lemma mtf_fun_head len (nx pv : nat → nat) n :
  n < len → nx n < len → pv n < len →
  pv (nx n) = n → nx (pv n) = n →
  ∀ m, (mtf_fun len nx pv n n).1 m = nx m ∧
       (mtf_fun len nx pv n n).2 m = pv m.
Proof.
  intros Ln Lq Lp H1 H2.
  cbv beta zeta delta [mtf_fun].
  remember (nx n) as q eqn:Eq. remember (pv n) as p eqn:Ep.
  assert (fupd len nx p q n = q) as -> by fupd_solve.
  assert (fupd len pv q p n = p) as -> by fupd_solve.
  assert (fupd len (fupd len pv q p) n p n = p) as -> by fupd_solve.
  assert (fupd len nx p q p = q) as -> by fupd_solve.
  assert (fupd len (fupd len nx p q) n q n = q) as -> by fupd_solve.
  assert (fupd len (fupd len (fupd len pv q p) n p) q n n = p) as ->
    by fupd_solve.
  intros m. simpl. split; fupd_solve.
Qed.

(** [mtf] of the node before the head leaves the links as they are. *)
Lemma mtf_fun_tail len (nx pv : nat → nat) hd n :
  n < len → hd < len → pv n < len →
  nx n = hd → n ≠ hd →
  pv (nx n) = n → nx (pv n) = n →
  ∀ m, (mtf_fun len nx pv hd n).1 m = nx m ∧
       (mtf_fun len nx pv hd n).2 m = pv m.
Proof.
  intros Ln Lh Lp Hq Hne H1 H2.
  cbv beta zeta delta [mtf_fun].
  rewrite Hq in *. remember (pv n) as p eqn:Ep.
  assert (fupd len nx p hd n = hd) as -> by fupd_solve.
  assert (fupd len pv hd p hd = p) as -> by fupd_solve.
  assert (fupd len (fupd len pv hd p) n p hd = p) as -> by fupd_solve.
  assert (fupd len nx p hd p = hd) as -> by fupd_solve.
  assert (fupd len (fupd len nx p hd) n hd n = hd) as -> by fupd_solve.
  assert (fupd len (fupd len (fupd len pv hd p) n p) hd n n = p) as ->
    by fupd_solve.
  intros m. simpl. split; fupd_solve.
Qed.

(** [mtf] of any other node. *)
Lemma mtf_fun_inner len (nx pv : nat → nat) hd n p q z :
  n < len → hd < len → p < len → q < len → z < len →
  nx n = q → pv n = p → pv hd = z → nx z = hd →
  n ≠ hd → n ≠ z → n ≠ p → p ≠ z → q ≠ hd → q ≠ n →
  mtf_fun len nx pv hd n =
  (fupd len (fupd len (fupd len nx p q) n hd) z n,
   fupd len (fupd len (fupd len pv q p) n z) hd n).
Proof.
  intros Ln Lh Lp Lq Lz Hq Hp Hz Hzh ? ? ? ? ? ?.
  cbv beta zeta delta [mtf_fun].
  rewrite Hq, Hp.
  assert (fupd len nx p q n = q) as -> by fupd_solve.
  assert (fupd len pv q p hd = z) as -> by fupd_solve.
  assert (fupd len (fupd len pv q p) n z hd = z) as -> by fupd_solve.
  assert (fupd len nx p q z = hd) as -> by fupd_solve.
  assert (fupd len (fupd len nx p q) n hd n = hd) as -> by fupd_solve.
  assert (fupd len (fupd len (fupd len pv q p) n z) hd n n = z) as ->
    by fupd_solve.
  reflexivity.
Qed.

Lemma NoDup_parts (h n q : nat) (A Q : list nat) :
  NoDup (h :: A ++ n :: q :: Q) →
  NoDup (h :: A) ∧ NoDup (q :: Q) ∧
  (∀ x y, x ∈ h :: A → y ∈ q :: Q → x ≠ y) ∧
  (n ∉ h :: A) ∧ (n ∉ q :: Q).
Proof.
  intros Hnd.
  change (h :: A ++ n :: q :: Q) with ((h :: A) ++ n :: q :: Q) in Hnd.
  apply NoDup_app in Hnd as (H1 & H2 & H3).
  apply NoDup_cons in H3 as [H3 H4].
  split_and!; try done.
  - intros x y Hx Hy ->. apply (H2 y Hx). by right.
  - intros Hn. apply (H2 n Hn). by left.
Qed.

Lemma cyc_mtf_inner len (nx pv : nat → nat) h A n q Q :
  NoDup (h :: A ++ n :: q :: Q) →
  (∀ m, m ∈ h :: A ++ n :: q :: Q → m < len) →
  cyc nx pv (h :: A ++ n :: q :: Q) →
  cyc (mtf_fun len nx pv h n).1 (mtf_fun len nx pv h n).2
      (h :: A ++ q :: Q ++ [n]).
Proof.
  intros Hnd Hlen Hc. simpl in Hc.
  replace ((A ++ n :: q :: Q) ++ [h]) with (A ++ n :: q :: (Q ++ [h])) in Hc
    by (by rewrite <- app_assoc).
  apply path_app in Hc as [HA HQ].
  apply path_snoc in HA as (HA & Hp1 & Hp2).
  destruct HQ as (Hq1 & Hq2 & HQ).
  apply path_snoc in HQ as (HQ & Hz1 & Hz2).
  pose proof (last_elem h A) as Hp. pose proof (last_elem q Q) as Hz.
  remember (List.last A h) as p eqn:Ep. remember (List.last Q q) as z eqn:Ez.
  apply NoDup_parts in Hnd as (HndA & HndQ & Hdisj & HnA & HnQ).
  assert (h ∈ h :: A) as HhA by (by left).
  assert (q ∈ q :: Q) as HqQ by (by left).
  assert (n ≠ h) by (by intros ->). assert (n ≠ z) by (by intros ->).
  assert (n ≠ p) by (by intros ->). assert (p ≠ z) by (by apply Hdisj).
  assert (q ≠ h) by (by apply not_eq_sym, Hdisj).
  assert (q ≠ n) by (by intros ->).
  assert (∀ m, m ∈ h :: A → m < len) as HlenA.
  { intros m Hm. apply Hlen. change (m ∈ (h :: A) ++ n :: q :: Q).
    apply elem_of_app. by left. }
  assert (∀ m, m ∈ q :: Q → m < len) as HlenQ.
  { intros m Hm. apply Hlen. change (m ∈ (h :: A) ++ n :: q :: Q).
    apply elem_of_app. right. by right. }
  assert (n < len) as Hlenn.
  { apply Hlen. change (n ∈ (h :: A) ++ n :: q :: Q).
    apply elem_of_app. right. by left. }
  pose proof (HlenA _ Hp). pose proof (HlenQ _ Hz).
  pose proof (HlenA _ HhA). pose proof (HlenQ _ HqQ).
  rewrite (mtf_fun_inner len nx pv h n p q z) by done.
  cbn [fst snd cyc].
  replace ((A ++ q :: Q ++ [n]) ++ [h]) with (A ++ q :: (Q ++ n :: [h]))
    by (rewrite <- !app_assoc; simpl; by rewrite <- app_assoc).
  apply path_app. split; [|apply path_app; split].
  - apply path_snoc. split_and!.
    + eapply path_frame; [done..| |].
      * rewrite <- Ep. intros m Hm Hmp.
        assert (m ≠ z) by (by apply Hdisj).
        assert (m ≠ n) by (by intros ->). fupd_solve.
      * intros m Hm. assert (m ∈ h :: A) as Hm' by (by right).
        assert (m ≠ h) by (apply NoDup_cons in HndA as [? _]; by intros ->).
        assert (m ≠ n) by (by intros ->).
        assert (m ≠ q) by (by apply Hdisj). fupd_solve.
    + fupd_solve.
    + fupd_solve.
  - apply path_snoc. split_and!.
    + eapply path_frame; [done..| |].
      * rewrite <- Ez. intros m Hm Hmz.
        assert (m ≠ p) by (by apply not_eq_sym, Hdisj).
        assert (m ≠ n) by (by intros ->). fupd_solve.
      * intros m Hm. assert (m ∈ q :: Q) as Hm' by (by right).
        assert (m ≠ h) by (by apply not_eq_sym, Hdisj).
        assert (m ≠ n) by (by intros ->).
        assert (m ≠ q) by (apply NoDup_cons in HndQ as [? _]; by intros ->).
        fupd_solve.
    + fupd_solve.
    + fupd_solve.
  - simpl. split_and!; [fupd_solve..|done].
Qed.

Lemma last_snoc (a d : nat) l : List.last (l ++ [a]) d = a.
Proof. apply List.last_last. Qed.

Lemma cyc_mtf len (nx pv : nat → nat) hd l1 n l2 :
  NoDup (l1 ++ n :: l2) →
  (∀ m, m ∈ l1 ++ n :: l2 → m < len) →
  cyc nx pv (l1 ++ n :: l2) →
  (l1 ++ n :: l2) !! 0 = Some hd →
  cyc (mtf_fun len nx pv hd n).1 (mtf_fun len nx pv hd n).2 (n :: l1 ++ l2).
Proof.
  intros Hnd Hlen Hc Hhd.
  assert (n ∈ l1 ++ n :: l2) as Hn by (apply elem_of_app; right; by left).
  destruct (cyc_inverse _ _ _ _ Hc Hn) as [Hi1 Hi2].
  destruct (cyc_next_in _ _ _ _ Hc Hn) as [Hb1 Hb2].
  destruct l1 as [|h A].
  - change ([] ++ n :: l2) with (n :: l2) in *.
    simpl in Hhd. injection Hhd as <-.
    eapply cyc_ext; [| |exact Hc]; intros m;
      by apply mtf_fun_head; auto.
  - simpl in Hhd. injection Hhd as ->. destruct l2 as [|q Q].
    + rewrite app_nil_r.
      assert (nx n = hd) as Hq.
      { simpl in Hc. apply path_snoc in Hc as (_ & Hq & _).
        by rewrite last_snoc in Hq. }
      assert (n ≠ hd) as Hne.
      { apply NoDup_cons in Hnd as [Hnd _]. intros ->. apply Hnd.
        apply elem_of_app. right. by left. }
      assert (hd < len) by (apply Hlen; by left).
      apply (cyc_rotate _ _ (hd :: A) [n]); [|done].
      eapply cyc_ext; [| |exact Hc]; intros m;
        by apply mtf_fun_tail; auto.
    + apply (cyc_rotate _ _ (hd :: A ++ q :: Q) [n]); [|done].
      replace ((hd :: A ++ q :: Q) ++ [n]) with (hd :: A ++ q :: Q ++ [n])
        by (simpl; by rewrite <- app_assoc).
      by apply cyc_mtf_inner.
Qed.

Lemma ring_ext (c c' : t) l :
  head c' = head c → length (heap c') = length (heap c) →
  (∀ m, nxt (heap c') m = nxt (heap c) m) →
  (∀ m, prv (heap c') m = prv (heap c) m) →
  ring c l → ring c' l.
Proof.
  intros Hh Hl Hn Hp (H1 & H2 & H3 & H4). split_and!; try done.
  - by rewrite Hh.
  - by eapply cyc_ext.
  - by rewrite Hl.
Qed.

Lemma ring_mtf (c : t) tb l1 n l2 :
  ring c (l1 ++ n :: l2) →
  ring (Cache tb n (mtf_heap (head c) n (heap c))) (n :: l1 ++ l2).
Proof.
  intros (H1 & H2 & H3 & H4). split_and!; cbn [head heap].
  - done.
  - eapply cyc_ext; [intros m; apply links_mtf_heap..|].
    apply cyc_mtf; try done. intros m. apply H4.
  - eapply NoDup_Permutation_proper; [|exact H3].
    apply Permutation_middle.
  - intros m. rewrite length_mtf_heap, <- H4.
    rewrite elem_of_cons, !elem_of_app, elem_of_cons. tauto.
Qed.

Lemma mtf_heap_id (c : t) l n :
  ring c l → n ∈ l → n = head c ∨ nxt (heap c) n = head c →
  mtf_heap (head c) n (heap c) = heap c.
Proof.
  intros (H1 & H2 & H3 & H4) Hn Hc.
  destruct (cyc_inverse _ _ _ _ H2 Hn) as [Hi1 Hi2].
  destruct (cyc_next_in _ _ _ _ H2 Hn) as [Hb1 Hb2].
  apply H4 in Hn, Hb1, Hb2.
  apply heap_ext; [apply length_mtf_heap|].
  intros m _. rewrite key_of_mtf_heap, obj_of_mtf_heap.
  destruct (links_mtf_heap (head c) n (heap c) m) as [-> ->].
  destruct (decide (n = head c)) as [<-|Hne].
  - destruct (mtf_fun_head (length (heap c)) (nxt (heap c)) (prv (heap c)) n
                Hn Hb1 Hb2 Hi1 Hi2 m) as [-> ->]. done.
  - destruct Hc as [?|Hc]; [done|].
    assert (head c < length (heap c)) as Hh by (by rewrite <- Hc).
    destruct (mtf_fun_tail (length (heap c)) (nxt (heap c)) (prv (heap c))
                (head c) n Hn Hh Hb2 Hc Hne Hi1 Hi2 m) as [-> ->]. done.
Qed.

Lemma ring_head_next (c : t) tb a l :
  ring c (a :: l) →
  (l ++ [a]) !! 0 = Some (nxt (heap c) a) ∧
  ring (Cache tb (nxt (heap c) a) (heap c)) (l ++ [a]).
Proof.
  intros (H1 & H2 & H3 & H4). simpl in H1. injection H1 as ->.
  assert ((l ++ [head c]) !! 0 = Some (nxt (heap c) (head c))) as Hn.
  { destruct l as [|b l]; simpl in *; naive_solver. }
  split; [done|]. split_and!; cbn [head heap]; try done.
  - destruct l as [|b l]; [done|].
    by apply (cyc_rotate _ _ [head c] (b :: l)) in H2.
  - eapply NoDup_Permutation_proper; [|exact H3].
    by rewrite Permutation_app_comm.
  - intros m. rewrite <- H4. rewrite elem_of_app, !elem_of_cons.
    rewrite elem_of_nil. tauto.
Qed.

(** ** The methods as functions of the object *)

Lemma getitem_run k (c : t) :
  __getitem__ k c =
  match table c !! k with
  | None => (inl KeyError, c)
  | Some n =>
      let h := mtf_heap (head c) n (heap c) in
      (inr (obj_of h n), Cache (table c) n h)
  end.
Proof.
  unfold __getitem__, mbind, M_bind, table_getitem.
  by destruct (table c !! k).
Qed.

Lemma setitem_run k o (c : t) :
  __setitem__ k o c =
  match table c !! k with
  | Some n =>
      (inr (), Cache (table c) n
                 (mtf_heap (head c) n (upd (with_obj o) n (heap c))))
  | None =>
      let n := prv (heap c) (head c) in
      let old := key_of (heap c) n in
      let h := upd (with_obj o) n (upd (with_key k) n (heap c)) in
      if decide (old = PNone)
      then (inr (), Cache (<[key_of h n := n]> (table c)) n h)
      else match table c !! old with
           | Some _ =>
               (inr (), Cache (<[key_of h n := n]> (delete old (table c))) n h)
           | None => (inl KeyError, c)
           end
  end.
Proof.
  unfold __setitem__, mbind, M_bind, table_contains, table_getitem.
  destruct (table c !! k) as [n|] eqn:E.
  - rewrite bool_decide_true by done. by rewrite E.
  - rewrite bool_decide_false by (by intros [? ?]).
    cbn. destruct c as [tb hd h]. cbn.
    destruct (decide _); [reflexivity|].
    unfold table_delitem. cbn. by destruct (tb !! _).
Qed.

Lemma delitem_run k (c : t) :
  __delitem__ k c =
  match table c !! k with
  | None => (inl KeyError, c)
  | Some n =>
      let h := mtf_heap (head c) n
                 (upd (with_obj PNone) n (upd (with_key PNone) n (heap c))) in
      (inr (), Cache (delete k (table c)) (nxt h n) h)
  end.
Proof.
  unfold __delitem__, mbind, M_bind, table_getitem, table_delitem.
  destruct (table c !! k) as [n|] eqn:E; [|done]. cbn. by rewrite E.
Qed.

Lemma ring_head_prev (c : t) tb l z :
  ring c (l ++ [z]) →
  prv (heap c) (head c) = z ∧ ring (Cache tb z (heap c)) (z :: l).
Proof.
  intros (H1 & H2 & H3 & H4).
  assert (prv (heap c) (head c) = z) as Hz.
  { destruct l as [|a l]; simpl in H1; injection H1 as <-.
    - simpl in H2. tauto.
    - simpl in H2. apply path_snoc in H2 as (_ & _ & ->).
      apply last_snoc. }
  split; [done|]. split_and!; cbn [head heap]; try done.
  - by apply (cyc_rotate _ _ l [z]) in H2.
  - eapply NoDup_Permutation_proper; [|exact H3].
    change (z :: l) with ([z] ++ l). by rewrite Permutation_app_comm.
  - intros m. rewrite <- H4. rewrite elem_of_app, !elem_of_cons.
    rewrite elem_of_nil. tauto.
Qed.

(** ** The constructor *)

Lemma node_at_app h d m :
  node_at (h ++ [d]) m =
  if decide (m < length h) then node_at h m
  else if decide (m = length h) then d else dangling.
Proof.
  unfold node_at. case_decide as Hlt.
  - by rewrite lookup_app_l.
  - rewrite lookup_app_r by lia. case_decide as He.
    + subst. by rewrite Nat.sub_diag.
    + destruct (m - length h) as [|i] eqn:E; [lia|done].
Qed.

Lemma path_ext_in (nx pv nx' pv' : nat → nat) a l :
  (∀ m, m ∈ a :: l → nx' m = nx m ∧ pv' m = pv m) →
  path nx pv a l → path nx' pv' a l.
Proof.
  revert a. induction l as [|b l IH]; intros a Hm; [done|].
  intros (H1 & H2 & H3). cbn [path].
  destruct (Hm a) as [-> _]; [by left|].
  destruct (Hm b) as [_ ->]; [right; by left|].
  split_and!; [done..|]. apply IH; [|done].
  intros m Hin. apply Hm. by right.
Qed.

Lemma fupd_in len (g : nat → nat) i v m :
  i < len → fupd len g i v m = if decide (m = i) then v else g m.
Proof.
  intros Hi. unfold fupd. destruct (decide (m = i)) as [->|Hne].
  - by rewrite decide_True.
  - rewrite decide_False; [done|]. by intros [? _].
Qed.

Ltac fupd_in_solve :=
  rewrite ?fupd_in by lia; repeat case_decide; try done; try congruence;
  try lia.

Lemma grow_links (c : t) m :
  let len := length (heap c) in
  let nx0 := nxt (heap c ++ [Dlnode len len PNone PNone]) in
  let pv0 := prv (heap c ++ [Dlnode len len PNone PNone]) in
  head c < len →
  nxt (heap (grow c)) m =
    fupd (S len) (fupd (S len) nx0 len (nx0 (head c))) (head c) len m ∧
  prv (heap (grow c)) m =
    fupd (S len) (fupd (S len) pv0 len (head c)) (nx0 (head c)) len m.
Proof.
  intros len nx0 pv0 Hhd. unfold grow. cbn [heap]. fold len.
  set (h0 := heap c ++ [Dlnode len len PNone PNone]).
  assert (length h0 = S len) as L0.
  { unfold h0. rewrite length_app. simpl. lia. }
  set (h1 := upd (with_prev (head c)) len h0).
  assert (∀ m, nxt h1 m = nx0 m) as N1.
  { intros. unfold h1. by rewrite nxt_upd_prev. }
  assert (length h1 = S len) as L1 by (unfold h1; by rewrite length_upd).
  set (h2 := upd (with_next (nxt h1 (head c))) len h1).
  assert (∀ m, nxt h2 m = fupd (S len) nx0 len (nx0 (head c)) m) as N2.
  { intros. unfold h2. rewrite nxt_upd_next. by apply fupd_ext. }
  assert (length h2 = S len) as L2 by (unfold h2; by rewrite length_upd).
  assert (nxt h2 (head c) = nx0 (head c)) as E2.
  { rewrite N2. unfold fupd. rewrite decide_False; [done|lia]. }
  rewrite E2.
  split.
  - rewrite nxt_upd_next. apply fupd_ext; try done.
    + by rewrite length_upd.
    + intros. by rewrite nxt_upd_prev.
  - rewrite prv_upd_next, prv_upd_prev.
    apply fupd_ext; try done.
    intros. unfold h2. rewrite prv_upd_next. unfold h1.
    rewrite prv_upd_prev. by apply fupd_ext.
Qed.

Lemma ring_grow (c : t) :
  (∃ l, ring c l) → ∃ l, ring (grow c) l.
Proof.
  intros (l & H1 & H2 & H3 & H4).
  destruct l as [|hd tl]; [done|]. simpl in H1. injection H1 as ->.
  set (n := length (heap c)).
  exists (head c :: n :: tl).
  assert (head c < n) as Hhd by (apply H4; by left).
  assert (∀ m, m < n →
            nxt (heap c ++ [Dlnode n n PNone PNone]) m = nxt (heap c) m ∧
            prv (heap c ++ [Dlnode n n PNone PNone]) m = prv (heap c) m) as H0.
  { intros m Hm. unfold nxt, prv. rewrite node_at_app.
    by rewrite decide_True. }
  assert (nxt (heap c ++ [Dlnode n n PNone PNone]) n = n ∧
          prv (heap c ++ [Dlnode n n PNone PNone]) n = n) as [Hn1 Hn2].
  { unfold nxt, prv. rewrite node_at_app.
    rewrite decide_False by (unfold n; lia). by rewrite decide_True. }
  pose proof (grow_links c) as HL. cbv zeta in HL. fold n in HL.
  assert (length (heap (grow c)) = S n) as HS.
  { unfold grow. cbn [heap]. rewrite !length_upd, length_app. simpl.
    unfold n. lia. }
  revert HL H0 Hn1 Hn2.
  generalize (nxt (heap c ++ [Dlnode n n PNone PNone])).
  generalize (prv (heap c ++ [Dlnode n n PNone PNone])).
  intros pv0 nx0 HL H0 Hn1 Hn2.
  assert (∀ m, m ∈ head c :: tl → m < n) as Hlt by (intros m; apply H4).
  assert (n ∉ head c :: tl) as Hfresh.
  { intros Hn. apply Hlt in Hn. lia. }
  split_and!.
  - done.
  - unfold grow at 1. cbn [head].
    eapply cyc_ext; [intros m; apply HL; done..|].
    cbn [cyc] in H2 |- *.
    eapply (path_ext_in _ _ nx0 pv0) in H2.
    2:{ intros m Hm. apply H0.
        apply elem_of_cons in Hm as [->|Hm]; [done|].
        apply elem_of_app in Hm as [Hm|Hm]; [apply Hlt; by right|].
        apply list_elem_of_singleton in Hm as ->. done. }
    change ((n :: tl) ++ [head c]) with (n :: (tl ++ [head c])).
    destruct tl as [|f tl]; cbn [path app] in H2 |- *.
    + destruct H2 as (E1 & E2 & _). rewrite E1.
      clear HL H0 H4 Hlt Hfresh H3.
      split_and!; try done; fupd_in_solve.
    + destruct H2 as (E1 & E2 & H2). rewrite E1.
      assert (f < n) as Hf by (apply Hlt; right; by left).
      assert (f ≠ head c) as Hfh.
      { apply NoDup_cons in H3 as [H3 _]. intros ->. apply H3. by left. }
      split_and!; [by fupd_in_solve..|].
      eapply path_frame; [| exact H2 | |].
      * eapply NoDup_Permutation_proper; [|exact H3].
        change (f :: tl ++ [head c]) with ((f :: tl) ++ [head c]).
        by rewrite Permutation_app_comm.
      * rewrite last_snoc. intros m Hm Hne.
        assert (m < n) as Hmn.
        { apply Hlt. apply elem_of_cons in Hm as [->|Hm]; [right; by left|].
          apply elem_of_app in Hm as [Hm|Hm]; [right; by right|].
          apply list_elem_of_singleton in Hm. done. }
        clear -Hmn Hne Hhd Hf. fupd_in_solve.
      * intros m Hm.
        assert (m < n ∧ m ≠ f) as [Hmn Hmf].
        { apply elem_of_app in Hm as [Hm|Hm].
          - split; [apply Hlt; right; by right|].
            apply NoDup_cons in H3 as [_ H3].
            apply NoDup_cons in H3 as [H3 _]. by intros ->.
          - apply list_elem_of_singleton in Hm as ->. done. }
        clear -Hmn Hmf Hhd Hf. fupd_in_solve.
  - apply NoDup_cons in H3 as [Hh H3].
    apply NoDup_cons. split.
    + intros Hin. apply Hh. apply elem_of_cons in Hin as [E|Hin]; [lia|done].
    + apply NoDup_cons. split; [|done]. intros Hin. apply Hfresh. by right.
  - intros m. rewrite HS. rewrite !elem_of_cons.
    specialize (H4 m). rewrite elem_of_cons in H4. fold n in H4. split.
    + intros [->|[->|Hm]]; [lia|lia|].
      assert (m < n) by (apply H4; by right). lia.
    + intros Hm. destruct (decide (m = n)) as [?|Hne]; [right; by left|].
      assert (m < n) as Hm' by lia.
      apply H4 in Hm' as [->|?]; [by left|right; by right].
Qed.

Lemma for_run {A} (l : list A) (b : M unit) (g : t → t) c :
  (∀ c, b c = (inr (), g c)) →
  for_ l (λ _, b) c = (inr (), Nat.iter (length l) g c).
Proof.
  intros Hb. revert c. induction l as [|x l IH]; intros c; [done|].
  cbn [for_ length]. unfold mbind, M_bind. rewrite Hb, IH.
  by rewrite Nat.iter_succ_r.
Qed.

Lemma new_run size :
  new size =
  if decide (size > 0)%Z
  then inr (Nat.iter (Z.to_nat (size - 1)) grow first_node)
  else inl AssertionError.
Proof.
  unfold new, __init__, mbind, M_bind, assert.
  destruct (decide (size > 0)%Z) as [Hs|Hs].
  - rewrite bool_decide_true by done. cbn.
    rewrite (for_run _ _ grow); [|done].
    unfold range. by rewrite length_fmap, length_seq.
  - by rewrite bool_decide_false by done.
Qed.

Lemma length_grow (c : t) : length (heap (grow c)) = S (length (heap c)).
Proof.
  unfold grow. cbn [heap]. rewrite !length_upd, length_app. simpl. lia.
Qed.

Lemma all_empty_grow (c : t) : all_empty (heap c) → all_empty (heap (grow c)).
Proof.
  intros He m. unfold grow. cbn [heap].
  rewrite key_of_upd_next, key_of_upd_prev, key_of_upd_next, key_of_upd_prev.
  rewrite obj_of_upd_next, obj_of_upd_prev, obj_of_upd_next, obj_of_upd_prev.
  unfold key_of, obj_of. rewrite node_at_app.
  destruct (He m) as [Hk Ho]. unfold key_of, obj_of in Hk, Ho.
  repeat case_decide; done.
Qed.

Lemma grown_ok i :
  let c := Nat.iter i grow first_node in
  table c = ∅ ∧ length (heap c) = S i ∧ (∃ l, ring c l) ∧
  all_empty (heap c).
Proof.
  induction i as [|i IH].
  - simpl. split_and!; try done.
    + exists [0]. split_and!; try done.
      * apply NoDup_singleton.
      * intros n. rewrite list_elem_of_singleton.
        change (length (heap first_node)) with 1. lia.
    + intros m. unfold key_of, obj_of, node_at. simpl.
      destruct m as [|m]; simpl; [done|]. by destruct m.
  - cbn zeta in IH |- *. rewrite Nat.iter_succ.
    destruct IH as (H1 & H2 & H3 & H4). split_and!.
    + done.
    + by rewrite length_grow, H2.
    + by apply ring_grow.
    + by apply all_empty_grow.
Qed.

Lemma new_ok size c :
  new size = inr c →
  (0 < size)%Z ∧ table c = ∅ ∧ length (heap c) = Z.to_nat size ∧
  (∃ l, ring c l) ∧ all_empty (heap c).
Proof.
  rewrite new_run. case_decide as Hs; [|done]. intros [= <-].
  destruct (grown_ok (Z.to_nat (size - 1))) as (H1 & H2 & H3 & H4).
  split_and!; try done; lia.
Qed.

Lemma new_fails size : (size ≤ 0)%Z → new size = inl AssertionError.
Proof. intros Hs. rewrite new_run. rewrite decide_False; [done|lia]. Qed.

Lemma new_succeeds size : (0 < size)%Z → ∃ c, new size = inr c.
Proof. intros Hs. rewrite new_run. rewrite decide_True; [eauto|lia]. Qed.

(** ** The ring after each method *)

(** What each method does to the object. *)
Lemma after_get k (c : t) :
  after (Get k) c =
  match table c !! k with
  | None => c
  | Some n => Cache (table c) n (mtf_heap (head c) n (heap c))
  end.
Proof.
  unfold after, run_op. rewrite getitem_run. by destruct (table c !! k).
Qed.

Lemma after_set k o (c : t) :
  after (Set_ k o) c = (__setitem__ k o c).2.
Proof.
  unfold after, run_op, mbind, M_bind.
  by destruct (__setitem__ k o c) as [[e|[]] c'].
Qed.

Lemma after_del k (c : t) :
  after (Del k) c =
  match table c !! k with
  | None => c
  | Some n =>
      let h := mtf_heap (head c) n
                 (upd (with_obj PNone) n (upd (with_key PNone) n (heap c))) in
      Cache (delete k (table c)) (nxt h n) h
  end.
Proof.
  unfold after, run_op, mbind, M_bind. rewrite delitem_run.
  by destruct (table c !! k).
Qed.

Lemma after_clear (c : t) : after Clear c = Cache ∅ (head c) (heap c).
Proof. done. Qed.

(** Writing keys and objects leaves the ring as it is. *)
Lemma ring_data (c : t) tb k o n l :
  ring c l →
  ring (Cache tb (head c) (upd (with_obj o) n (upd (with_key k) n (heap c)))) l.
Proof.
  apply ring_ext; cbn [head heap].
  - done.
  - by rewrite !length_upd.
  - intros. by rewrite nxt_upd_obj, nxt_upd_key.
  - intros. by rewrite prv_upd_obj, prv_upd_key.
Qed.

Lemma ring_obj (c : t) tb o n l :
  ring c l → ring (Cache tb (head c) (upd (with_obj o) n (heap c))) l.
Proof.
  apply ring_ext; cbn [head heap].
  - done.
  - by rewrite !length_upd.
  - intros. by rewrite nxt_upd_obj.
  - intros. by rewrite prv_upd_obj.
Qed.

Lemma ring_table (c : t) tb l :
  ring c l → ring (Cache tb (head c) (heap c)) l.
Proof. by apply ring_ext. Qed.

Lemma ring_nonempty (c : t) l : ring c l → ∃ l' z, l = l' ++ [z].
Proof.
  intros (H1 & _). destruct l as [|a l] using rev_ind; [done|]. eauto.
Qed.

Lemma ring_get (c : t) l1 n l2 :
  ring c (l1 ++ n :: l2) →
  ring (Cache (table c) n (mtf_heap (head c) n (heap c))) (n :: l1 ++ l2).
Proof. apply ring_mtf. Qed.

Lemma ring_set_present (c : t) o l1 n l2 :
  ring c (l1 ++ n :: l2) →
  ring (Cache (table c) n (mtf_heap (head c) n (upd (with_obj o) n (heap c))))
       (n :: l1 ++ l2).
Proof.
  intros Hr. apply (ring_obj c (table c) o n) in Hr.
  by apply (ring_mtf _ (table c)) in Hr.
Qed.

Lemma ring_set_absent (c : t) tb k o l z :
  ring c (l ++ [z]) →
  prv (heap c) (head c) = z ∧
  ring (Cache tb z (upd (with_obj o) z (upd (with_key k) z (heap c)))) (z :: l).
Proof.
  intros Hr. apply (ring_head_prev c tb) in Hr as [Hz Hr]. split; [done|].
  by apply (ring_data _ tb k o z) in Hr.
Qed.

Lemma ring_del (c : t) tb l1 n l2 :
  ring c (l1 ++ n :: l2) →
  let h := mtf_heap (head c) n
             (upd (with_obj PNone) n (upd (with_key PNone) n (heap c))) in
  ring (Cache tb (nxt h n) h) (l1 ++ l2 ++ [n]).
Proof.
  intros Hr h. apply (ring_data c tb PNone PNone n) in Hr.
  apply (ring_mtf _ tb) in Hr. cbn [head heap] in Hr. fold h in Hr.
  apply (ring_head_next _ tb) in Hr as [_ Hr]. cbn [heap] in Hr.
  by rewrite <- app_assoc in Hr.
Qed.

Lemma wf_after cap o c : wf cap c → wf cap (after o c).
Proof.
  intros (Hlen & (l & Hr) & Htb).
  pose proof Hr as (_ & _ & _ & Hin).
  destruct o as [k|k o|k|].
  - rewrite after_get. destruct (table c !! k) as [n|] eqn:E.
    2:{ split_and!; eauto. }
    assert (n ∈ l) as Hn by (apply Hin; rewrite Hlen; eauto).
    apply list_elem_of_split in Hn as (l1 & l2 & ->).
    split_and!; cbn [heap table].
    + by rewrite length_mtf_heap.
    + eexists. by apply ring_get.
    + done.
  - rewrite after_set, setitem_run.
    destruct (table c !! k) as [n|] eqn:E.
    + assert (n ∈ l) as Hn by (apply Hin; rewrite Hlen; eauto).
      apply list_elem_of_split in Hn as (l1 & l2 & ->).
      split_and!; cbn [heap table snd].
      * by rewrite length_mtf_heap, length_upd.
      * eexists. by apply ring_set_present.
      * done.
    + cbv zeta. destruct (ring_nonempty _ _ Hr) as (l' & z & ->).
      assert (z < cap) as Hz.
      { rewrite <- Hlen. apply Hin. apply elem_of_app. right. by left. }
      destruct (ring_set_absent c (table c) k o l' z Hr) as [Hp _].
      rewrite Hp.
      assert (∀ tb, (∀ k' n', tb !! k' = Some n' → n' < cap) →
                wf cap (Cache tb z (upd (with_obj o) z
                                      (upd (with_key k) z (heap c))))) as Hwf.
      { intros tb Htb'. split_and!; cbn [heap table].
        - by rewrite !length_upd.
        - eexists. by apply ring_set_absent.
        - done. }
      case_decide as Hold;
        [|destruct (table c !! key_of (heap c) z) as [?|] eqn:E'];
        cbn [snd].
      * apply Hwf. intros k' n' Hk'.
        apply lookup_insert_Some in Hk' as [[_ <-]|[_ Hk']]; eauto.
      * apply Hwf. intros k' n' Hk'.
        apply lookup_insert_Some in Hk' as [[_ <-]|[_ Hk']]; [done|].
        apply lookup_delete_Some in Hk' as [_ Hk']. eauto.
      * split_and!; eauto.
  - rewrite after_del. destruct (table c !! k) as [n|] eqn:E.
    2:{ split_and!; eauto. }
    assert (n ∈ l) as Hn by (apply Hin; rewrite Hlen; eauto).
    apply list_elem_of_split in Hn as (l1 & l2 & ->).
    cbv zeta. split_and!; cbn [heap table].
    + by rewrite length_mtf_heap, !length_upd.
    + eexists. by apply ring_del.
    + intros k' n' Hk'. apply lookup_delete_Some in Hk' as [_ Hk']. eauto.
  - rewrite after_clear. split_and!; cbn [heap table].
    + done.
    + exists l. by apply ring_table.
    + intros k n. by rewrite lookup_empty.
Qed.

Lemma wf_new size c : new size = inr c → wf (Z.to_nat size) c.
Proof.
  intros (Hs & Ht & Hl & Hr & He)%new_ok. split_and!; try done.
  intros k n. by rewrite Ht, lookup_empty.
Qed.

Lemma wf_run_ops cap ops c : wf cap c → wf cap (run_ops ops c).
Proof.
  revert c. induction ops as [|o ops IH]; intros c Hc; [done|].
  apply IH. by apply wf_after.
Qed.

Lemma wf_reachable size c : reachable size c → wf (Z.to_nat size) c.
Proof.
  intros (c0 & ops & Hnew & _ & ->). by apply wf_run_ops, wf_new.
Qed.

(** ** The invariants of the dictionary *)

Lemma key_of_set (h : list dlnode) k o z m :
  z < length h →
  key_of (upd (with_obj o) z (upd (with_key k) z h)) m =
  if decide (m = z) then k else key_of h m.
Proof.
  intros Hz. rewrite key_of_upd_obj, key_of_upd_key.
  destruct (decide (m = z)) as [->|Hne].
  - by rewrite decide_True.
  - rewrite decide_False; [done|]. by intros [? _].
Qed.

Lemma key_of_set_same (h : list dlnode) k o z :
  z < length h → key_of (upd (with_obj o) z (upd (with_key k) z h)) z = k.
Proof. intros Hz. rewrite key_of_set by done. by rewrite decide_True. Qed.

Lemma obj_of_set (h : list dlnode) k o z m :
  z < length h →
  obj_of (upd (with_obj o) z (upd (with_key k) z h)) m =
  if decide (m = z) then o else obj_of h m.
Proof.
  intros Hz. rewrite obj_of_upd_obj, length_upd, obj_of_upd_key.
  destruct (decide (m = z)) as [->|Hne].
  - by rewrite decide_True.
  - rewrite decide_False; [done|]. by intros [? _].
Qed.

Lemma obj_of_obj (h : list dlnode) o z m :
  z < length h →
  obj_of (upd (with_obj o) z h) m = if decide (m = z) then o else obj_of h m.
Proof.
  intros Hz. rewrite obj_of_upd_obj.
  destruct (decide (m = z)) as [->|Hne].
  - by rewrite decide_True.
  - rewrite decide_False; [done|]. by intros [? _].
Qed.

(** The node the insert path reclaims. *)
Lemma wf_tail cap (c : t) :
  wf cap c → prv (heap c) (head c) < cap.
Proof.
  intros (Hlen & (l & Hr) & _).
  destruct (ring_nonempty _ _ Hr) as (l' & z & ->).
  destruct (ring_head_prev c (table c) l' z Hr) as [-> _].
  destruct Hr as (_ & _ & _ & Hin). rewrite <- Hlen. apply Hin.
  apply elem_of_app. right. by left.
Qed.

Lemma kinv_after cap o c : wf cap c → keyed o → kinv c → kinv (after o c).
Proof.
  intros Hwf Hk Hki. pose proof Hki as [Hkey Hnone].
  pose proof Hwf as (Hlen & _ & Htb).
  destruct o as [k|k o|k|].
  - rewrite after_get. destruct (table c !! k) as [n|] eqn:E; [|done].
    split; cbn [table heap]; [|done].
    intros k' n' Hk'. rewrite key_of_mtf_heap. eauto.
  - simpl in Hk. rewrite after_set, setitem_run.
    destruct (table c !! k) as [n|] eqn:E.
    + split; cbn [table heap snd]; [|done].
      intros k' n' Hk'. rewrite key_of_mtf_heap, key_of_upd_obj. eauto.
    + cbv zeta. pose proof (wf_tail _ _ Hwf) as Hz.
      set (z := prv (heap c) (head c)) in *.
      rewrite key_of_set_same by lia.
      assert (∀ tb, tb !! PNone = None →
                (∀ k' n', tb !! k' = Some n' → k' ≠ k →
                          key_of (heap c) n' = k' ∧ n' ≠ z) →
                kinv (Cache (<[k:=z]> tb) z
                        (upd (with_obj o) z (upd (with_key k) z (heap c)))))
        as Hins.
      { intros tb Hn Htb'. split; cbn [table heap].
        - intros k' n' Hk'. rewrite key_of_set by lia.
          apply lookup_insert_Some in Hk' as [[<- <-]|[Hne Hk']].
          + by rewrite decide_True.
          + destruct (Htb' k' n' Hk') as [? ?]; [done|].
            by rewrite decide_False.
        - by rewrite lookup_insert_ne. }
      case_decide as Hold;
        [|destruct (table c !! key_of (heap c) z) as [?|] eqn:E'];
        cbn [snd].
      * apply Hins; [done|]. intros k' n' Hk' Hne.
        split; [eauto|]. intros Hnz. pose proof (Hkey _ _ Hk') as Hkk.
        rewrite Hnz, Hold in Hkk. congruence.
      * apply Hins; [by apply lookup_delete_None; right|].
        intros k' n' Hk' Hne.
        apply lookup_delete_Some in Hk' as [Hne' Hk'].
        split; [eauto|]. intros Hnz. pose proof (Hkey _ _ Hk') as Hkk.
        rewrite Hnz in Hkk. congruence.
      * done.
  - rewrite after_del. destruct (table c !! k) as [n|] eqn:E; [|done].
    cbv zeta. assert (n < length (heap c)) as Hn by (rewrite Hlen; eauto).
    split; cbn [table heap].
    + intros k' n' Hk'. apply lookup_delete_Some in Hk' as [Hne Hk'].
      rewrite key_of_mtf_heap, key_of_set by done.
      rewrite decide_False; [eauto|].
      intros ->. apply Hkey in Hk', E. congruence.
    + apply lookup_delete_None. by right.
  - rewrite after_clear. split; cbn [table]; [|done].
    intros k n. by rewrite lookup_empty.
Qed.

Lemma einv_after cap o c :
  wf cap c → keyed o → valued o → kinv c → einv c → einv (after o c).
Proof.
  intros Hwf Hk Hv Hki He. pose proof Hki as [Hkey Hnone].
  pose proof Hwf as (Hlen & _ & Htb).
  destruct o as [k|k o|k|].
  - rewrite after_get. destruct (table c !! k) as [n|] eqn:E; [|done].
    intros m. cbn [heap]. rewrite length_mtf_heap, key_of_mtf_heap,
      obj_of_mtf_heap. apply He.
  - simpl in Hk, Hv. rewrite after_set, setitem_run.
    destruct (table c !! k) as [n|] eqn:E.
    + intros m. cbn [heap snd].
      assert (n < length (heap c)) as Hn by (rewrite Hlen; eauto).
      rewrite length_mtf_heap, length_upd, key_of_mtf_heap, obj_of_mtf_heap.
      rewrite key_of_upd_obj, obj_of_obj by done. intros Hm.
      case_decide as Hmn; [|by apply He].
      subst m. apply Hkey in E. rewrite E. done.
    + cbv zeta. pose proof (wf_tail _ _ Hwf) as Hz.
      set (z := prv (heap c) (head c)) in *.
      assert (einv (Cache (table c) z
                (upd (with_obj o) z (upd (with_key k) z (heap c))))) as H'.
      { intros m. cbn [heap]. rewrite !length_upd.
        rewrite key_of_set, obj_of_set by lia. intros Hm.
        case_decide; [done|]. by apply He. }
      case_decide as Hold;
        [|destruct (table c !! key_of (heap c) z) as [?|] eqn:E'];
        cbn [snd]; done.
  - rewrite after_del. destruct (table c !! k) as [n|] eqn:E; [|done].
    cbv zeta. assert (n < length (heap c)) as Hn by (rewrite Hlen; eauto).
    intros m. cbn [heap]. rewrite length_mtf_heap, !length_upd.
    rewrite key_of_mtf_heap, obj_of_mtf_heap, key_of_set, obj_of_set by done.
    intros Hm. case_decide; [done|]. by apply He.
  - rewrite after_clear. done.
Qed.

Lemma kinv_new size c : new size = inr c → kinv c.
Proof.
  intros (Hs & Ht & Hl & Hr & He)%new_ok. unfold kinv. rewrite Ht.
  split; [|done]. intros k n. by rewrite lookup_empty.
Qed.

Lemma einv_new size c : new size = inr c → einv c.
Proof.
  intros (Hs & Ht & Hl & Hr & He)%new_ok. intros n _.
  by destruct (He n) as [-> ->].
Qed.

Lemma kinv_run_ops cap ops c :
  Forall keyed ops → wf cap c → kinv c →
  wf cap (run_ops ops c) ∧ kinv (run_ops ops c).
Proof.
  revert c. induction ops as [|o ops IH]; intros c Hk Hwf Hki; [done|].
  apply Forall_cons in Hk as [Ho Hk]. apply IH; [done|..].
  - by apply wf_after.
  - by eapply kinv_after.
Qed.

Lemma einv_run_ops cap ops c :
  Forall (λ o, keyed o ∧ valued o) ops → wf cap c → kinv c → einv c →
  einv (run_ops ops c).
Proof.
  revert c. induction ops as [|o ops IH]; intros c Hk Hwf Hki He; [done|].
  apply Forall_cons in Hk as [[Ho Hv] Hk]. apply IH; [done|..].
  - by apply wf_after.
  - by eapply kinv_after.
  - by eapply einv_after.
Qed.

Lemma NoDup_bounded_length (l : list nat) cap :
  NoDup l → (∀ x, x ∈ l → x < cap) → length l ≤ cap.
Proof.
  intros Hnd Hlt. transitivity (length (seq 0 cap)); [|by rewrite length_seq].
  apply submseteq_length, NoDup_submseteq; [done|].
  intros x Hx. apply elem_of_seq. specialize (Hlt x Hx). lia.
Qed.

Lemma kinv_size cap c : wf cap c → kinv c → size (table c) ≤ cap.
Proof.
  intros (_ & _ & Htb) [Hkey _].
  rewrite <- length_map_to_list, <- (length_fmap snd).
  apply NoDup_bounded_length.
  - apply NoDup_fmap_2_strong; [|apply NoDup_map_to_list].
    intros [k1 n1] [k2 n2] H1%elem_of_map_to_list H2%elem_of_map_to_list.
    simpl. intros <-. apply Hkey in H1, H2. congruence.
  - intros n ([k n'] & -> & Hn%elem_of_map_to_list)%list_elem_of_fmap.
    simpl. eauto.
Qed.

(** ** The ring and the dictionary together *)

Lemma entries_keys h l : (entries h l).*1 = key_of h <$> l.
Proof. unfold entries. rewrite <- list_fmap_compose. done. Qed.

Lemma entries_app h l1 l2 : entries h (l1 ++ l2) = entries h l1 ++ entries h l2.
Proof. apply fmap_app. Qed.

Lemma entries_ext h h' l :
  (∀ m, m ∈ l → key_of h' m = key_of h m ∧ obj_of h' m = obj_of h m) →
  entries h' l = entries h l.
Proof.
  intros Hm. apply list_fmap_ext. intros i m Hi.
  destruct (Hm m) as [-> ->]; [|done]. by eapply list_elem_of_lookup_2.
Qed.

Lemma keys_ext h h' (l : list ref) :
  (∀ m, m ∈ l → key_of h' m = key_of h m) →
  key_of h' <$> l = key_of h <$> l.
Proof.
  intros Hm. apply list_fmap_ext. intros i m Hi.
  apply Hm. by eapply list_elem_of_lookup_2.
Qed.

(** The dictionary has as many entries as there are occupied nodes. *)
Lemma data_size c occ emp :
  NoDup occ → data c occ emp → size (table c) = length occ.
Proof.
  intros Hnd (_ & Hk & _ & Htb).
  set (L := (λ n, (key_of (heap c) n, n)) <$> occ).
  assert (L.*1 = key_of (heap c) <$> occ) as HL.
  { unfold L. by rewrite <- list_fmap_compose. }
  assert (table c = list_to_map L) as ->.
  { apply map_eq. intros k. apply option_eq. intros n.
    rewrite Htb. rewrite <- elem_of_list_to_map by (by rewrite HL).
    unfold L. rewrite list_elem_of_fmap. split.
    - intros [Hn <-]. eauto.
    - intros (n' & [= -> ->] & Hn). done. }
  rewrite map_size_list_to_map by (by rewrite HL).
  unfold L. by rewrite length_fmap.
Qed.

Lemma walk_path h a l :
  path (nxt h) (prv h) a l → walk h a (S (length l)) = a :: l.
Proof.
  revert a. induction l as [|b l IH]; intros a Hp; [done|].
  destruct Hp as (Hab & _ & Hp).
  change (walk h a (S (length (b :: l))))
    with (a :: walk h (nxt h a) (S (length l))).
  rewrite Hab, IH; done.
Qed.

Lemma walk_take h a n m : n ≤ m → walk h a n = take n (walk h a m).
Proof.
  revert a m. induction n as [|n IH]; intros a m Hnm; [done|].
  destruct m as [|m]; [lia|]. simpl. f_equal. apply IH. lia.
Qed.

Lemma walk_ring (c : t) l : ring c l → walk (heap c) (head c) (length l) = l.
Proof.
  intros (H1 & H2 & _). destruct l as [|a l]; [done|].
  simpl in H1. injection H1 as ->.
  unfold cyc in H2. apply path_snoc in H2 as (H2 & _).
  by apply walk_path.
Qed.

Lemma walk_ring_prefix (c : t) l1 l2 :
  ring c (l1 ++ l2) → walk (heap c) (head c) (length l1) = l1.
Proof.
  intros Hr. rewrite (walk_take _ _ _ (length (l1 ++ l2))).
  - rewrite (walk_ring _ _ Hr). by rewrite take_app_length.
  - rewrite length_app. lia.
Qed.

Lemma dump_walk h z n : dump h z n = entries h (walk h z n).
Proof.
  revert z. induction n as [|n IH]; intros z; [done|].
  simpl. by rewrite IH.
Qed.

Lemma ring_NoDup_l (c : t) l1 l2 : ring c (l1 ++ l2) → NoDup l1.
Proof. intros (_ & _ & Hnd & _). by apply NoDup_app in Hnd as (? & _). Qed.

(** What the self test compares. *)
Lemma rep_items c occ emp : rep c occ emp → items c = entries (heap c) occ.
Proof.
  intros [Hr Hd]. unfold items.
  rewrite (data_size _ _ _ (ring_NoDup_l _ _ _ Hr) Hd).
  by rewrite dump_walk, (walk_ring_prefix _ _ _ Hr).
Qed.

Lemma sim_agree c s : sim c s → agree c s.
Proof.
  intros (occ & emp & Hrep & He & _). unfold agree.
  by rewrite (rep_items _ _ _ Hrep).
Qed.

(** ** The simple cache *)

Lemma scan_fresh k i (l : list (pyval * pyval)) :
  k ∉ l.*1 → simplelrucache.scan k i l = None.
Proof.
  revert i. induction l as [|x l IH]; intros i Hk; [done|].
  simpl in *. apply not_elem_of_cons in Hk as [Hne Hk].
  rewrite decide_False by done. by apply IH.
Qed.

Lemma scan_found k v i (l1 l2 : list (pyval * pyval)) :
  k ∉ l1.*1 →
  simplelrucache.scan k i (l1 ++ (k, v) :: l2) = Some (i + length l1, (k, v)).
Proof.
  revert i. induction l1 as [|x l1 IH]; intros i Hk.
  - simpl. rewrite decide_True by done. do 2 f_equal. lia.
  - simpl in *. apply not_elem_of_cons in Hk as [Hne Hk].
    rewrite decide_False by done. rewrite IH by done. do 2 f_equal. lia.
Qed.

Lemma not_elem_of_reverse_keys k (l : list (pyval * pyval)) :
  k ∉ l.*1 → k ∉ (reverse l).*1.
Proof. rewrite fmap_reverse. by rewrite elem_of_reverse. Qed.

Lemma cache_of_reverse (s : simplelrucache.t) L :
  reverse (simplelrucache.cache s) = L → simplelrucache.cache s = reverse L.
Proof. intros <-. by rewrite reverse_involutive. Qed.

Lemma simple_get_miss k s :
  k ∉ (reverse (simplelrucache.cache s)).*1 →
  simplelrucache.__getitem__ k s = (inl AssertionError, s).
Proof.
  intros Hk. unfold simplelrucache.__getitem__.
  rewrite scan_fresh; [done|].
  apply not_elem_of_reverse_keys in Hk. by rewrite reverse_involutive in Hk.
Qed.

Lemma simple_get_hit k v s A B :
  reverse (simplelrucache.cache s) = A ++ (k, v) :: B → k ∉ B.*1 →
  simplelrucache.__getitem__ k s =
  (inr v, simplelrucache.Simple (reverse ((k, v) :: A ++ B))
            (simplelrucache.size s)).
Proof.
  intros Hc%cache_of_reverse Hk. unfold simplelrucache.__getitem__.
  rewrite Hc, reverse_app, reverse_cons, <- app_assoc. simpl.
  rewrite scan_found by (by apply not_elem_of_reverse_keys).
  simpl. rewrite delete_middle.
  by rewrite reverse_cons, reverse_app, <- app_assoc.
Qed.

Lemma simple_set_hit k v o s A B :
  reverse (simplelrucache.cache s) = A ++ (k, v) :: B → k ∉ B.*1 →
  simplelrucache.__setitem__ k o s =
  (inr (), simplelrucache.Simple (reverse ((k, o) :: A ++ B))
             (simplelrucache.size s)).
Proof.
  intros Hc%cache_of_reverse Hk. unfold simplelrucache.__setitem__.
  rewrite Hc, reverse_app, reverse_cons, <- app_assoc. simpl.
  rewrite scan_found by (by apply not_elem_of_reverse_keys).
  simpl. rewrite delete_middle.
  by rewrite reverse_cons, reverse_app, <- app_assoc.
Qed.

Lemma simple_set_miss_full k o s O x :
  reverse (simplelrucache.cache s) = O ++ [x] →
  Z.of_nat (length (O ++ [x])) = simplelrucache.size s →
  k ∉ (O ++ [x]).*1 →
  simplelrucache.__setitem__ k o s =
  (inr (), simplelrucache.Simple (reverse ((k, o) :: O))
             (simplelrucache.size s)).
Proof.
  intros Hc Hfull Hk. pose proof (cache_of_reverse _ _ Hc) as Hc'.
  unfold simplelrucache.__setitem__.
  rewrite scan_fresh.
  2:{ rewrite Hc'. by apply not_elem_of_reverse_keys. }
  rewrite decide_True.
  2:{ rewrite <- Hfull, <- Hc. by rewrite length_reverse. }
  rewrite Hc', reverse_snoc. simpl. rewrite drop_0.
  by rewrite reverse_cons.
Qed.

Lemma simple_set_miss_room k o s :
  Z.of_nat (length (reverse (simplelrucache.cache s)))
    ≠ simplelrucache.size s →
  k ∉ (reverse (simplelrucache.cache s)).*1 →
  simplelrucache.__setitem__ k o s =
  (inr (), simplelrucache.Simple
             (reverse ((k, o) :: reverse (simplelrucache.cache s)))
             (simplelrucache.size s)).
Proof.
  intros Hroom Hk. unfold simplelrucache.__setitem__.
  rewrite scan_fresh.
  2:{ apply not_elem_of_reverse_keys in Hk.
      by rewrite reverse_involutive in Hk. }
  rewrite decide_False.
  2:{ by rewrite length_reverse in Hroom. }
  by rewrite reverse_cons, reverse_involutive.
Qed.

Lemma simple_del_miss k s :
  k ∉ (reverse (simplelrucache.cache s)).*1 →
  simplelrucache.__delitem__ k s = (inr (), s).
Proof.
  intros Hk. unfold simplelrucache.__delitem__.
  rewrite scan_fresh; [done|].
  apply not_elem_of_reverse_keys in Hk. by rewrite reverse_involutive in Hk.
Qed.

Lemma simple_del_hit k v s A B :
  reverse (simplelrucache.cache s) = A ++ (k, v) :: B → k ∉ B.*1 →
  simplelrucache.__delitem__ k s =
  (inr (), simplelrucache.Simple (reverse (A ++ B)) (simplelrucache.size s)).
Proof.
  intros Hc%cache_of_reverse Hk. unfold simplelrucache.__delitem__.
  rewrite Hc, reverse_app, reverse_cons, <- app_assoc. simpl.
  rewrite scan_found by (by apply not_elem_of_reverse_keys).
  simpl. rewrite delete_middle. by rewrite reverse_app.
Qed.

(** ** The two caches in step *)

Lemma data_ext (c c' : t) occ occ' emp emp' :
  table c' = table c →
  (∀ m, key_of (heap c') m = key_of (heap c) m) →
  occ' ≡ₚ occ → emp' ≡ₚ emp →
  data c occ emp → data c' occ' emp'.
Proof.
  intros Ht Hk Ho He (H1 & H2 & H3 & H4).
  assert (key_of (heap c') <$> occ' ≡ₚ key_of (heap c) <$> occ) as Hks.
  { rewrite Ho. erewrite keys_ext; [done|]. intros; apply Hk. }
  split_and!.
  - rewrite He. eapply Forall_impl; [exact H1|]. simpl. intros m.
    by rewrite Hk.
  - by rewrite Hks.
  - by rewrite Hks.
  - intros k n. rewrite Ht, Hk, Ho. apply H4.
Qed.

Lemma rep_get_hit (c : t) A n B emp :
  rep c (A ++ n :: B) emp →
  rep (Cache (table c) n (mtf_heap (head c) n (heap c))) (n :: A ++ B) emp.
Proof.
  intros [Hr Hd]. split.
  - rewrite <- app_assoc in Hr. simpl in Hr. apply ring_get in Hr.
    by rewrite app_assoc in Hr.
  - eapply data_ext; [..|exact Hd]; cbn [table heap]; try done.
    + intros m. by rewrite key_of_mtf_heap.
    + by rewrite Permutation_middle.
Qed.

Lemma rep_set_hit (c : t) o A n B emp :
  rep c (A ++ n :: B) emp →
  rep (Cache (table c) n (mtf_heap (head c) n (upd (with_obj o) n (heap c))))
      (n :: A ++ B) emp.
Proof.
  intros [Hr Hd]. split.
  - rewrite <- app_assoc in Hr. simpl in Hr.
    apply (ring_set_present _ o) in Hr. by rewrite app_assoc in Hr.
  - eapply data_ext; [..|exact Hd]; cbn [table heap]; try done.
    + intros m. by rewrite key_of_mtf_heap, key_of_upd_obj.
    + by rewrite Permutation_middle.
Qed.

Lemma ring_in_bounds (c : t) l n : ring c l → n ∈ l → n < length (heap c).
Proof. intros (_ & _ & _ & Hin) Hn. by apply Hin. Qed.

Lemma rep_set_room (c : t) k o occ E z :
  rep c occ (E ++ [z]) → table c !! k = None → k ≠ PNone →
  rep (Cache (<[k:=z]> (table c)) z
         (upd (with_obj o) z (upd (with_key k) z (heap c))))
      (z :: occ) E.
Proof.
  intros [Hr (H1 & H2 & H3 & H4)] Hk Hne.
  rewrite app_assoc in Hr.
  assert (z < length (heap c)) as Hz.
  { apply (ring_in_bounds _ _ _ Hr). apply elem_of_app. right. by left. }
  pose proof Hr as (_ & _ & Hnd & _).
  apply NoDup_app in Hnd as (Hnd & Hz' & _).
  assert (z ∉ occ ++ E) as Hzn.
  { intros Hin. apply (Hz' _ Hin). by left. }
  apply not_elem_of_app in Hzn as [HzO HzE].
  split; [by apply ring_set_absent|].
  assert (key_of (upd (with_obj o) z (upd (with_key k) z (heap c)))
            <$> occ = key_of (heap c) <$> occ) as Hks.
  { apply keys_ext. intros m Hm. rewrite key_of_set by done.
    rewrite decide_False; [done|]. by intros ->. }
  assert (k ∉ key_of (heap c) <$> occ) as Hfresh.
  { intros (m & -> & Hm)%list_elem_of_fmap.
    assert (table c !! key_of (heap c) m = Some m) as E' by (by apply H4).
    congruence. }
  split_and!; cbn [table heap].
  - apply Forall_app in H1 as [H1 _].
    apply Forall_forall. intros m Hm. rewrite key_of_set by done.
    rewrite decide_False by (by intros ->).
    by apply (proj1 (Forall_forall _ _) H1).
  - rewrite fmap_cons, Hks, key_of_set_same by done.
    by apply NoDup_cons.
  - rewrite fmap_cons, Hks, key_of_set_same by done.
    apply not_elem_of_cons. by split.
  - intros k' n'. rewrite lookup_insert_Some, elem_of_cons, H4.
    rewrite key_of_set by done. split.
    + intros [[<- <-]|(Hne' & Hn' & Hk')].
      * rewrite decide_True by done. split; [by left|done].
      * rewrite decide_False by (by intros ->). auto.
    + intros [[->|Hn'] Hk'].
      * rewrite decide_True in Hk' by done. by left.
      * rewrite decide_False in Hk' by (by intros ->).
        right. split_and!; [|done..]. intros <-.
        assert (table c !! k = Some n') as E' by (by apply H4). congruence.
Qed.

Lemma rep_set_full (c : t) k o O z :
  rep c (O ++ [z]) [] → table c !! k = None → k ≠ PNone →
  table c !! key_of (heap c) z = Some z ∧ key_of (heap c) z ≠ PNone ∧
  rep (Cache (<[k:=z]> (delete (key_of (heap c) z) (table c))) z
         (upd (with_obj o) z (upd (with_key k) z (heap c))))
      (z :: O) [].
Proof.
  intros [Hr (H1 & H2 & H3 & H4)] Hk Hne.
  rewrite app_nil_r in Hr.
  assert (z < length (heap c)) as Hz.
  { apply (ring_in_bounds _ _ _ Hr). apply elem_of_app. right. by left. }
  pose proof Hr as (_ & _ & Hnd & _).
  apply NoDup_app in Hnd as (Hnd & HzO' & _).
  assert (z ∉ O) as HzO.
  { intros Hin. apply (HzO' _ Hin). by left. }
  rewrite fmap_app in H2, H3. simpl in H2, H3.
  apply NoDup_app in H2 as (H2 & Hold & _).
  apply not_elem_of_app in H3 as [H3 H3'].
  assert (table c !! key_of (heap c) z = Some z) as Htz.
  { apply H4. split; [|done]. apply elem_of_app. right. by left. }
  split; [done|]. split.
  { intros E'. apply H3'. rewrite E'. by left. }
  split; [rewrite app_nil_r; by apply ring_set_absent|].
  assert (key_of (upd (with_obj o) z (upd (with_key k) z (heap c)))
            <$> O = key_of (heap c) <$> O) as Hks.
  { apply keys_ext. intros m Hm. rewrite key_of_set by done.
    rewrite decide_False; [done|]. by intros ->. }
  assert (k ∉ key_of (heap c) <$> O) as Hfresh.
  { intros (m & -> & Hm)%list_elem_of_fmap.
    assert (table c !! key_of (heap c) m = Some m) as E'.
    { apply H4. split; [|done]. apply elem_of_app. by left. }
    congruence. }
  split_and!; cbn [table heap].
  - done.
  - rewrite fmap_cons, Hks, key_of_set_same by done.
    by apply NoDup_cons.
  - rewrite fmap_cons, Hks, key_of_set_same by done.
    apply not_elem_of_cons. by split.
  - intros k' n'.
    rewrite lookup_insert_Some, lookup_delete_Some, elem_of_cons, H4.
    rewrite key_of_set by done. rewrite elem_of_app, list_elem_of_singleton.
    split.
    + intros [[<- <-]|(Hne' & Hold' & [Hn' | ->] & Hk')].
      * rewrite decide_True by done. split; [by left|done].
      * rewrite decide_False by (by intros ->). auto.
      * done.
    + intros [[->|Hn'] Hk'].
      * rewrite decide_True in Hk' by done. by left.
      * rewrite decide_False in Hk' by (by intros ->).
        right. split_and!; [| |by left|done].
        -- intros <-.
           assert (table c !! k = Some n') as E'.
           { apply H4. split; [|done]. apply elem_of_app. by left. }
           congruence.
        -- intros E'. apply (Hold (key_of (heap c) z)).
           ++ rewrite E', <- Hk'. by apply list_elem_of_fmap_2.
           ++ by left.
Qed.

Lemma rep_del (c : t) k A n B emp :
  rep c (A ++ n :: B) emp → table c !! k = Some n →
  let h := mtf_heap (head c) n
             (upd (with_obj PNone) n (upd (with_key PNone) n (heap c))) in
  rep (Cache (delete k (table c)) (nxt h n) h) (A ++ B) (emp ++ [n]).
Proof.
  intros [Hr (H1 & H2 & H3 & H4)] Hk h.
  rewrite <- app_assoc in Hr. simpl in Hr.
  assert (n < length (heap c)) as Hn.
  { apply (ring_in_bounds _ _ _ Hr). apply elem_of_app. right. by left. }
  pose proof Hr as (_ & _ & Hnd & _).
  apply NoDup_app in Hnd as (HndA & HnA & Hnd).
  apply NoDup_cons in Hnd as (HnB & Hnd).
  apply not_elem_of_app in HnB as [HnB Hne].
  assert (n ∉ A) as HnA' by (intros Hin; apply (HnA _ Hin); by left).
  assert (∀ m, key_of h m = if decide (m = n) then PNone
                            else key_of (heap c) m) as Hkey.
  { intros m. unfold h. by rewrite key_of_mtf_heap, key_of_set. }
  assert (key_of (heap c) n = k) as Hkn by (by apply H4).
  rewrite fmap_app, fmap_cons in H2, H3.
  apply NoDup_app in H2 as (H2A & H2AB & H2B).
  apply NoDup_cons in H2B as (H2n & H2B).
  assert (key_of h <$> A ++ B =
          (key_of (heap c) <$> A) ++ (key_of (heap c) <$> B))
    as Hks.
  { rewrite <- fmap_app. apply keys_ext. intros m Hm. rewrite Hkey.
    rewrite decide_False; [done|]. intros ->.
    apply elem_of_app in Hm as [?|?]; done. }
  split.
  - apply (ring_del c (delete k (table c))) in Hr. cbv zeta in Hr.
    fold h in Hr. by rewrite <- !app_assoc in Hr |- *.
  - split_and!; cbn [table heap].
    + apply Forall_app. split.
      * apply Forall_forall. intros m Hm. rewrite Hkey.
        case_decide; [done|]. by apply (proj1 (Forall_forall _ _) H1).
      * apply Forall_singleton. rewrite Hkey. by rewrite decide_True.
    + rewrite Hks. apply NoDup_app. split_and!; [done| |done].
      intros x Hx Hx'. apply (H2AB x Hx). by right.
    + rewrite Hks. intros Hin. apply H3.
      apply elem_of_app in Hin as [Hin|Hin].
      * apply elem_of_app. by left.
      * apply elem_of_app. right. by right.
    + intros k' n'. rewrite lookup_delete_Some, H4, Hkey.
      rewrite !elem_of_app, elem_of_cons. split.
      * intros (Hne' & [Hn'|[ -> |Hn']] & Hk').
        -- rewrite decide_False by (by intros ->). auto.
        -- congruence.
        -- rewrite decide_False by (by intros ->). auto.
      * intros [Hn' Hk'].
        assert (n' ≠ n) as Hnn by (intros ->; by destruct Hn').
        rewrite decide_False in Hk' by done.
        split_and!; [|tauto|done].
        intros <-.
        destruct Hn' as [Hn'|Hn'].
        -- apply (H2AB (key_of (heap c) n')).
           ++ by apply list_elem_of_fmap_2.
           ++ rewrite Hk', <- Hkn. by left.
        -- apply H2n. rewrite Hkn, <- Hk'. by apply list_elem_of_fmap_2.
Qed.

Lemma ring_length (c : t) l : ring c l → length l = length (heap c).
Proof.
  intros (_ & _ & Hnd & Hin).
  transitivity (length (seq 0 (length (heap c)))); [|by rewrite length_seq].
  apply Permutation_length, NoDup_Permutation; [done|apply NoDup_seq|].
  intros n. rewrite Hin, elem_of_seq. lia.
Qed.

(** A key of the dictionary is held by one occupied node. *)
Lemma data_split (c : t) occ emp k n :
  data c occ emp → table c !! k = Some n →
  ∃ A B, occ = A ++ n :: B ∧ key_of (heap c) n = k ∧
         (k ∉ key_of (heap c) <$> A) ∧ (k ∉ key_of (heap c) <$> B).
Proof.
  intros (_ & Hnd & _ & Htb) [Hn Hk]%Htb.
  apply list_elem_of_split in Hn as (A & B & ->). exists A, B.
  rewrite fmap_app, fmap_cons, Hk in Hnd.
  apply NoDup_app in Hnd as (_ & HA & HB).
  apply NoDup_cons in HB as [HB _].
  split_and!; try done. intros Hin. apply (HA _ Hin). by left.
Qed.

Lemma data_miss (c : t) occ emp k :
  data c occ emp → table c !! k = None → k ∉ key_of (heap c) <$> occ.
Proof.
  intros (_ & _ & _ & Htb) Hk (m & -> & Hm)%list_elem_of_fmap.
  assert (table c !! key_of (heap c) m = Some m) as E by (by apply Htb).
  congruence.
Qed.

Lemma entries_mtf hd n h l : entries (mtf_heap hd n h) l = entries h l.
Proof.
  apply entries_ext. intros m _.
  by rewrite key_of_mtf_heap, obj_of_mtf_heap.
Qed.

Lemma entries_set h k o z l :
  z ∉ l →
  entries (upd (with_obj o) z (upd (with_key k) z h)) l = entries h l.
Proof.
  intros Hz. apply entries_ext. intros m Hm.
  rewrite key_of_upd_obj, key_of_upd_key, obj_of_upd_obj, obj_of_upd_key.
  rewrite !decide_False; [done|intros [-> _]; done..].
Qed.

Lemma entries_obj h o z l :
  z ∉ l → entries (upd (with_obj o) z h) l = entries h l.
Proof.
  intros Hz. apply entries_ext. intros m Hm.
  rewrite key_of_upd_obj, obj_of_upd_obj.
  rewrite !decide_False; [done|intros [-> _]; done].
Qed.

Lemma sim_after o c s :
  keyed_no_clear o → sim c s → sim (after o c) (after_simple o s).
Proof.
  intros [Hk Hnc] (occ & emp & Hrep & He & Hsz).
  pose proof Hrep as [Hr Hd].
  pose proof (ring_length _ _ Hr) as Hlen.
  pose proof Hr as (_ & _ & Hnd & _).
  assert ((reverse (simplelrucache.cache s)).*1 = key_of (heap c) <$> occ)
    as Hkeys by (by rewrite <- He, entries_keys).
  destruct o as [k|k o|k|]; [| | |done].
  - (* __getitem__ *)
    rewrite after_get. unfold after_simple, run_op_simple.
    destruct (table c !! k) as [n|] eqn:E.
    + destruct (data_split _ _ _ _ _ Hd E) as (A & B & -> & Hkn & HA & HB).
      rewrite entries_app in He. cbn [entries fmap list_fmap] in He.
      rewrite Hkn in He. fold (entries (heap c) B) in He.
      rewrite (simple_get_hit _ _ _ _ _ (eq_sym He))
        by (by rewrite entries_keys).
      exists (n :: A ++ B), emp. split_and!;
        cbn [heap snd simplelrucache.cache simplelrucache.size].
      * by apply rep_get_hit.
      * rewrite reverse_involutive, entries_mtf.
        cbn [entries fmap list_fmap]. rewrite Hkn. f_equal.
        apply entries_app.
      * by rewrite length_mtf_heap.
    + rewrite simple_get_miss.
      * exists occ, emp. done.
      * rewrite Hkeys. by eapply data_miss.
  - (* __setitem__ *)
    simpl in Hk. rewrite after_set, setitem_run.
    unfold after_simple, run_op_simple. cbn [snd].
    destruct (table c !! k) as [n|] eqn:E.
    + destruct (data_split _ _ _ _ _ Hd E) as (A & B & -> & Hkn & HA & HB).
      rewrite entries_app in He. cbn [entries fmap list_fmap] in He.
      rewrite Hkn in He. fold (entries (heap c) B) in He.
      rewrite (simple_set_hit _ _ o _ _ _ (eq_sym He))
        by (by rewrite entries_keys).
      assert (n < length (heap c)) as Hn.
      { apply (ring_in_bounds _ _ _ Hr). rewrite <- app_assoc.
        apply elem_of_app. right. by left. }
      apply NoDup_app in Hnd as (Hnd & _ & _).
      apply NoDup_app in Hnd as (_ & HnA & HnB).
      apply NoDup_cons in HnB as [HnB _].
      assert (n ∉ A ++ B) as HnAB.
      { intros [Hin|Hin]%elem_of_app; [|done].
        apply (HnA _ Hin). by left. }
      exists (n :: A ++ B), emp. split_and!;
        cbn [heap snd simplelrucache.cache simplelrucache.size].
      * by apply rep_set_hit.
      * rewrite reverse_involutive, entries_mtf.
        cbn [entries fmap list_fmap].
        rewrite key_of_upd_obj, Hkn, obj_of_obj, decide_True by done.
        f_equal. fold (entries (upd (with_obj o) n (heap c)) (A ++ B)).
        rewrite entries_obj by done. apply entries_app.
      * by rewrite length_mtf_heap, length_upd.
    + cbv zeta. pose proof (data_miss _ _ _ _ Hd E) as Hfresh.
      destruct emp as [|z E' _] using rev_ind.
      * (* the cache is full *)
        destruct occ as [|z O _] using rev_ind.
        { by destruct Hr as (? & _). }
        destruct (rep_set_full c k o O z Hrep E Hk) as (Htz & Hold & Hrep').
        destruct (ring_set_absent c (table c) k o O z) as [Hp _].
        { by rewrite app_nil_r in Hr. }
        rewrite Hp. rewrite decide_False by done. rewrite Htz. cbn [snd].
        assert (z < length (heap c)) as Hz.
        { apply (ring_in_bounds _ _ _ Hr). rewrite app_nil_r.
          apply elem_of_app. right. by left. }
        rewrite key_of_set_same by done.
        rewrite entries_app in He.
        rewrite (simple_set_miss_full k o s _ _ (eq_sym He)).
        2:{ rewrite Hsz, <- Hlen, app_nil_r, !length_app. unfold entries.
            by rewrite length_fmap. }
        2:{ rewrite fmap_app, entries_keys. rewrite fmap_app in Hfresh.
            exact Hfresh. }
        rewrite app_nil_r in Hnd. apply NoDup_app in Hnd as (_ & HzO & _).
        assert (z ∉ O) as HzO' by (intros Hin; apply (HzO _ Hin); by left).
        exists (z :: O), []. split_and!;
        cbn [heap snd simplelrucache.cache simplelrucache.size].
        -- done.
        -- rewrite reverse_involutive. cbn [entries fmap list_fmap].
           rewrite key_of_set_same, obj_of_set, decide_True by done.
           f_equal. by apply entries_set.
        -- by rewrite !length_upd.
      * (* there is an empty node *)
        destruct (ring_set_absent c (table c) k o (occ ++ E') z) as [Hp _].
        { by rewrite <- app_assoc. }
        rewrite Hp.
        assert (key_of (heap c) z = PNone) as Hzk.
        { destruct Hd as (Hemp & _). apply Forall_app in Hemp as [_ Hemp].
          rewrite Forall_singleton in Hemp. exact Hemp. }
        rewrite decide_True by done. cbn [snd].
        assert (z < length (heap c)) as Hz.
        { apply (ring_in_bounds _ _ _ Hr). rewrite app_assoc.
          apply elem_of_app. right. by left. }
        rewrite key_of_set_same by done.
        rewrite simple_set_miss_room.
        2:{ rewrite Hsz, <- Hlen, <- He. unfold entries.
            rewrite length_fmap, !length_app. simpl. lia. }
        2:{ by rewrite Hkeys. }
        rewrite app_assoc in Hnd. apply NoDup_app in Hnd as (_ & HzO & _).
        assert (z ∉ occ) as HzO'.
        { intros Hin. apply (HzO z); [|by left].
          apply elem_of_app. by left. }
        exists (z :: occ), E'. split_and!;
        cbn [heap snd simplelrucache.cache simplelrucache.size].
        -- by apply rep_set_room.
        -- rewrite reverse_involutive. cbn [entries fmap list_fmap].
           rewrite key_of_set_same, obj_of_set, decide_True by done.
           f_equal. rewrite <- He. by apply entries_set.
        -- by rewrite !length_upd.
  - (* __delitem__ *)
    rewrite after_del. unfold after_simple, run_op_simple. cbn [snd].
    destruct (table c !! k) as [n|] eqn:E.
    + destruct (data_split _ _ _ _ _ Hd E) as (A & B & -> & Hkn & HA & HB).
      rewrite entries_app in He. cbn [entries fmap list_fmap] in He.
      rewrite Hkn in He. fold (entries (heap c) B) in He.
      rewrite (simple_del_hit _ _ _ _ _ (eq_sym He))
        by (by rewrite entries_keys).
      apply NoDup_app in Hnd as (Hnd & _ & _).
      apply NoDup_app in Hnd as (_ & HnA & HnB).
      apply NoDup_cons in HnB as [HnB _].
      assert (n ∉ A ++ B) as HnAB.
      { intros [Hin|Hin]%elem_of_app; [|done].
        apply (HnA _ Hin). by left. }
      cbv zeta. exists (A ++ B), (emp ++ [n]). split_and!;
        cbn [heap snd simplelrucache.cache simplelrucache.size].
      * by apply rep_del.
      * rewrite reverse_involutive, entries_mtf, entries_set by done.
        apply entries_app.
      * by rewrite length_mtf_heap, !length_upd.
    + rewrite simple_del_miss.
      * exists occ, emp. done.
      * rewrite Hkeys. by eapply data_miss.
Qed.

(** ** Consequences for reachable states *)

Lemma sim_new size c : new size = inr c → sim c (simplelrucache.new size).
Proof.
  intros (Hs & Ht & Hl & [l Hr] & He)%new_ok.
  exists [], l. split_and!.
  - split; [done|]. split_and!.
    + apply Forall_forall. intros m _. apply He.
    + constructor.
    + by intros ?%elem_of_nil.
    + intros k n. rewrite Ht, lookup_empty, elem_of_nil. naive_solver.
  - done.
  - simpl. rewrite Hl. lia.
Qed.

Lemma sim_run_ops ops c s :
  Forall keyed_no_clear ops → sim c s →
  sim (run_ops ops c) (run_ops_simple ops s).
Proof.
  revert c s. induction ops as [|o ops IH]; intros c s Hk Hs; [done|].
  apply Forall_cons in Hk as [Ho Hk]. apply IH; [done|].
  by apply sim_after.
Qed.

Lemma ring_last_next (c : t) l :
  ring c l → nxt (heap c) (List.last l (head c)) = head c.
Proof.
  intros (H1 & H2 & _). destruct l as [|a l]; [done|].
  simpl in H1. injection H1 as ->. unfold cyc in H2.
  apply path_snoc in H2 as (_ & H2 & _). by rewrite last_cons.
Qed.

Lemma rep_agree (c : t) occ emp :
  rep c occ emp → index_ring_agree (length (heap c)) c.
Proof.
  intros [Hr Hd]. pose proof (ring_length _ _ Hr) as Hlen.
  pose proof (data_size _ _ _ (ring_NoDup_l _ _ _ Hr) Hd) as Hsz.
  unfold index_ring_agree. cbv zeta.
  rewrite <- Hlen, (walk_ring _ _ Hr), Hsz.
  rewrite take_app_length, drop_app_length.
  destruct Hd as (H1 & H2 & H3 & H4). split_and!.
  - rewrite length_app. lia.
  - intros k. rewrite list_elem_of_fmap. split.
    + intros [m Hm]. apply H4 in Hm as [Hm <-]. split; [|eauto].
      intros E. apply H3. rewrite <- E. by apply list_elem_of_fmap_2.
    + intros (_ & m & -> & Hm). exists m. by apply H4.
  - apply Forall_forall. intros m Hm E. apply H3. rewrite <- E.
    by apply list_elem_of_fmap_2.
  - done.
  - by apply ring_last_next.
Qed.

Lemma NoDup_bounded_full (l : list nat) cap n :
  NoDup l → (∀ x, x ∈ l → x < cap) → length l = cap → n < cap →
  n ∈ l.
Proof.
  intros Hnd Hlt Hlen Hn.
  assert (l ≡ₚ seq 0 cap) as ->.
  { apply submseteq_length_Permutation.
    - apply NoDup_submseteq; [done|]. intros x Hx. apply elem_of_seq.
      specialize (Hlt x Hx). lia.
    - rewrite length_seq. lia. }
  apply elem_of_seq. lia.
Qed.

(** In a full cache every node holds a key of the dictionary. *)
Lemma kinv_full cap (c : t) n :
  wf cap c → kinv c → size (table c) = cap → n < cap →
  table c !! key_of (heap c) n = Some n ∧ key_of (heap c) n ≠ PNone.
Proof.
  intros (_ & _ & Htb) [Hkey Hnone] Hsz Hn.
  assert (n ∈ (map_to_list (table c)).*2) as Hin.
  { apply (NoDup_bounded_full _ cap); [| | |done].
    - apply NoDup_fmap_2_strong; [|apply NoDup_map_to_list].
      intros [k1 n1] [k2 n2] H1%elem_of_map_to_list H2%elem_of_map_to_list.
      simpl. intros <-. apply Hkey in H1, H2. congruence.
    - intros m ([k n'] & -> & Hm%elem_of_map_to_list)%list_elem_of_fmap.
      simpl. eauto.
    - by rewrite length_fmap, length_map_to_list. }
  apply list_elem_of_fmap in Hin as ([k n'] & -> & Hm%elem_of_map_to_list).
  simpl. rewrite (Hkey _ _ Hm). split; [done|]. intros ->. congruence.
Qed.

Lemma upd_obj_id (h : list dlnode) n v :
  obj_of h n = v → upd (with_obj v) n h = h.
Proof.
  unfold obj_of, node_at, upd. destruct (h !! n) as [d|] eqn:E; [|done].
  simpl. intros <-. apply list_insert_id. rewrite E. by destruct d.
Qed.

(** Storing again the object the head node holds changes nothing. *)
Lemma set_at_head cap (c : t) k v :
  wf cap c → table c !! k = Some (head c) →
  obj_of (heap c) (head c) = v →
  __setitem__ k v c = (inr (), c).
Proof.
  intros (Hlen & [l Hr] & Htb) Hk Hv.
  rewrite setitem_run, Hk. rewrite upd_obj_id by done.
  rewrite (mtf_heap_id c l).
  - by destruct c.
  - done.
  - destruct Hr as (_ & _ & _ & Hin). apply Hin. rewrite Hlen. eauto.
  - by left.
Qed.

(** After [__setitem__] has stored an object under a key, the head node
    holds them. *)
Lemma set_head_holds cap (c c' : t) k v :
  wf cap c → __setitem__ k v c = (inr (), c') →
  table c' !! k = Some (head c') ∧ obj_of (heap c') (head c') = v ∧
  key_of (heap c') (head c') =
    (if table c !! k is Some n then key_of (heap c) n else k).
Proof.
  intros Hwf. pose proof Hwf as (Hlen & _ & Htb).
  rewrite setitem_run. destruct (table c !! k) as [n|] eqn:E.
  - intros [= <-]. cbn [table head heap].
    assert (n < length (heap c)) by (rewrite Hlen; eauto).
    rewrite obj_of_mtf_heap, obj_of_obj, decide_True by done.
    by rewrite key_of_mtf_heap, key_of_upd_obj.
  - cbv zeta. pose proof (wf_tail _ _ Hwf) as Hz.
    set (z := prv (heap c) (head c)) in *.
    rewrite key_of_set_same by lia.
    assert (obj_of (upd (with_obj v) z (upd (with_key k) z (heap c))) z = v)
      as Hobj.
    { rewrite obj_of_set by lia. by rewrite decide_True. }
    case_decide as Hold;
      [|destruct (table c !! key_of (heap c) z) as [?|] eqn:E'];
      intros [= <-]; cbn [table head heap];
      rewrite lookup_insert_eq, key_of_set_same by lia; done.
Qed.

Lemma setitem_unit k v (c : t) e :
  (__setitem__ k v c).1 = inl e → __setitem__ k v c = (inl KeyError, c).
Proof.
  rewrite setitem_run. destruct (table c !! k) as [n|]; [done|].
  cbv zeta. case_decide; [done|].
  by destruct (table c !! _).
Qed.

Lemma wf_run sz c0 ops :
  new sz = inr c0 → wf (Z.to_nat sz) (run_ops ops c0).
Proof. intros Hn. by apply wf_run_ops, (wf_new sz). Qed.

Lemma kinv_run sz c0 ops :
  new sz = inr c0 → Forall keyed ops → kinv (run_ops ops c0).
Proof.
  intros Hn Hk.
  by apply (kinv_run_ops (Z.to_nat sz));
    [|apply (wf_new sz)|apply (kinv_new sz)].
Qed.

Lemma sim_run sz c0 ops :
  new sz = inr c0 → Forall keyed_no_clear ops →
  sim (run_ops ops c0) (run_ops_simple ops (simplelrucache.new sz)).
Proof. intros Hn Hk. by apply sim_run_ops, sim_new. Qed.

Lemma Forall_keyed_no_clear ops :
  Forall keyed ops → Forall (λ o, o ≠ Clear) ops →
  Forall keyed_no_clear ops.
Proof.
  intros H1 H2. apply Forall_forall. intros o Ho. split.
  - by apply (proj1 (Forall_forall _ _) H1).
  - by apply (proj1 (Forall_forall _ _) H2).
Qed.

(** The check of the self test never fails: after any calls of
    [__getitem__], [__setitem__] and [__delitem__] that insert no key
    [None], made on a cache and on a simple cache of the same size, the
    pairs met from [head] are the pairs of the simple cache from last to
    first. *)
Theorem self_test_agrees (sz : Z) (c0 : t) (ops : list op) :
  new sz = inr c0 → Forall keyed_no_clear ops →
  agree (run_ops ops c0) (run_ops_simple ops (simplelrucache.new sz)).
Proof. intros Hn Hk. by apply sim_agree, sim_run. Qed.

(** * The claims *)

(** C1 (as amended).  In every state reached from [lrucache(size)] by
    calls of [__getitem__], [__setitem__] and [__delitem__] that never
    insert the key [None], the dictionary and the ring agree: the first
    [len(table)] nodes met from [head] along [next] are occupied and hold
    exactly the keys of the dictionary, in the order of the simple cache
    read from its most recently used pair to its least recently used one;
    the other nodes of the ring are empty and lie between them and
    [head]. *)
Theorem C1_index_ring_agreement (sz : Z) (c0 : t) (ops : list op) :
  new sz = inr c0 → Forall keyed_no_clear ops →
  let c := run_ops ops c0 in
  let s := run_ops_simple ops (simplelrucache.new sz) in
  index_ring_agree (Z.to_nat sz) c ∧
  key_of (heap c) <$> walk (heap c) (head c) (size (table c)) =
    (reverse (simplelrucache.cache s)).*1.
Proof.
  intros Hn Hk c s.
  destruct (sim_run sz c0 ops Hn Hk) as (occ & emp & Hrep & He & _).
  fold c s in Hrep, He.
  destruct (wf_run sz c0 ops Hn) as (Hlen & _). fold c in Hlen.
  split.
  - rewrite <- Hlen. by eapply rep_agree.
  - destruct Hrep as [Hr Hd].
    rewrite (data_size _ _ _ (ring_NoDup_l _ _ _ Hr) Hd).
    rewrite (walk_ring_prefix _ _ _ Hr).
    by rewrite <- He, entries_keys.
Qed.

(** The capacity-2 scenario of the specification, followed by a delete. *)
Lemma C1_witness :
  let ops := [Set_ (PInt 1) (PStr "a"); Set_ (PInt 2) (PStr "b");
              Get (PInt 1); Del (PInt 2)] in
  let c := run_ops ops (grow first_node) in
  index_ring_agree 2 c ∧
  key_of (heap c) <$> walk (heap c) (head c) (size (table c)) = [PInt 1].
Proof.
  apply (C1_index_ring_agreement 2 (grow first_node)).
  - reflexivity.
  - repeat constructor; done.
Defined.

(** C1 as stated fails: after [set(None, 1)] the one node met is empty
    though the dictionary has an entry, and after [set("a", 1); clear()]
    the dictionary is empty though the node holds a key. *)
Lemma C1_counterexample :
  (∃ c0, new 1 = inr c0 ∧
         ¬ index_ring_agree 1 (run_ops [Set_ PNone (PInt 1)] c0)) ∧
  (∃ c0, new 1 = inr c0 ∧
         ¬ index_ring_agree 1 (run_ops [Set_ (PStr "a") (PInt 1); Clear] c0)).
Proof.
  split; exists first_node; (split; [reflexivity|]).
  - intros (_ & _ & H & _). vm_compute in H.
    apply Forall_cons in H as [H _]. by apply H.
  - intros (_ & _ & _ & H & _). vm_compute in H.
    apply Forall_cons in H as [H _]. discriminate H.
Qed.

(** C2 (as amended).  [__delitem__] of a key that is not in the dictionary
    raises [KeyError] and leaves the cache as it was; the key is not
    contained afterwards either. *)
Theorem C2_delete_absent (c : t) (k : pyval) :
  table c !! k = None →
  __delitem__ k c = (inl KeyError, c) ∧ __contains__ k c = (inr false, c).
Proof.
  intros Hk. split.
  - by rewrite delitem_run, Hk.
  - unfold __contains__, table_contains. rewrite Hk.
    by rewrite bool_decide_false by (by intros [? ?]).
Qed.

(** The scenario of the specification: [set("a", 1); delete("a");
    delete("a")] on a cache of capacity 3. *)
Lemma C2_witness :
  let c := run_ops [Set_ (PStr "a") (PInt 1); Del (PStr "a")]
             (grow (grow first_node)) in
  new 3 = inr (grow (grow first_node)) ∧
  table c !! PStr "a" = None ∧
  __delitem__ (PStr "a") c = (inl KeyError, c) ∧
  __contains__ (PStr "a") c = (inr false, c).
Proof.
  intros c. split; [reflexivity|].
  assert (table c !! PStr "a" = None) as H by (vm_compute; reflexivity).
  split; [exact H|]. exact (C2_delete_absent c (PStr "a") H).
Defined.

(** C2 as stated fails: the second delete of the scenario raises
    [KeyError]. *)
Lemma C2_counterexample :
  ∃ c0, new 3 = inr c0 ∧
        (__delitem__ (PStr "a")
           (run_ops [Set_ (PStr "a") (PInt 1); Del (PStr "a")] c0)).1
        = inl KeyError.
Proof. exists (grow (grow first_node)). split; vm_compute; reflexivity. Qed.

(** C3 (as amended).  In a state reached by calls that never insert the
    key [None], when the cache is full and the key is not in the
    dictionary, [__setitem__] removes exactly the key held by [head.prev]
    and adds the new one; no other key's membership changes.  After calls
    of [__getitem__], [__setitem__] and [__delitem__] only, that key is the
    least recently used one: the first pair of the simple cache.  When the
    key is in the dictionary, [__setitem__] stores the object and leaves
    the dictionary as it is. *)
Theorem C3_eviction (sz : Z) (c0 : t) (ops : list op) (k v : pyval) :
  new sz = inr c0 → Forall keyed ops → k ≠ PNone →
  let c := run_ops ops c0 in
  let c' := after (Set_ k v) c in
  let old := key_of (heap c) (prv (heap c) (head c)) in
  (table c !! k = None → size (table c) = Z.to_nat sz →
     (__setitem__ k v c).1 = inr () ∧
     is_Some (table c !! old) ∧
     (∀ k', is_Some (table c' !! k') ↔
            k' = k ∨ (k' ≠ old ∧ is_Some (table c !! k'))) ∧
     (Forall (λ o, o ≠ Clear) ops →
        ∃ x rest,
          simplelrucache.cache (run_ops_simple ops (simplelrucache.new sz))
          = (old, x) :: rest)) ∧
  (is_Some (table c !! k) →
     (__setitem__ k v c).1 = inr () ∧
     table c' = table c ∧
     ∃ n, table c' !! k = Some n ∧ obj_of (heap c') n = v).
Proof.
  intros Hn Hk Hne c c' old.
  pose proof (wf_run sz c0 ops Hn) as Hwf. fold c in Hwf.
  pose proof (kinv_run sz c0 ops Hn Hk) as Hki. fold c in Hki.
  split.
  - intros Hfresh Hfull.
    pose proof (wf_tail _ _ Hwf) as Hz.
    destruct (kinv_full _ _ _ Hwf Hki Hfull Hz) as [Hold Hold'].
    fold old in Hold, Hold'.
    assert (__setitem__ k v c =
            (inr (), Cache (<[k := prv (heap c) (head c)]>
                              (delete old (table c)))
                       (prv (heap c) (head c))
                       (upd (with_obj v) (prv (heap c) (head c))
                          (upd (with_key k) (prv (heap c) (head c))
                             (heap c))))) as Hrun.
    { rewrite setitem_run, Hfresh. cbv zeta. fold old.
      rewrite decide_False by done. rewrite Hold.
      rewrite key_of_set_same; [done|].
      destruct Hwf as (-> & _). done. }
    split_and!.
    + by rewrite Hrun.
    + by rewrite Hold.
    + intros k'. unfold c'. rewrite after_set, Hrun. cbn [snd table].
      destruct (decide (k' = k)) as [->|Hkk].
      * rewrite lookup_insert_eq. split; [by left|eauto].
      * rewrite lookup_insert_ne by done.
        destruct (decide (k' = old)) as [->|Hko].
        -- rewrite lookup_delete_eq. split; [by intros [? ?]|].
           intros [?|[? _]]; done.
        -- rewrite lookup_delete_ne by done. split; [auto|].
           intros [?|[_ ?]]; done.
    + intros Hnc.
      destruct (sim_run sz c0 ops Hn (Forall_keyed_no_clear _ Hk Hnc))
        as (occ & emp & [Hr Hd] & He & _).
      fold c in Hr, Hd, He.
      pose proof (data_size _ _ _ (ring_NoDup_l _ _ _ Hr) Hd) as Hsz.
      pose proof (ring_length _ _ Hr) as Hlen.
      destruct Hwf as (Hcap & _).
      assert (emp = []) as ->.
      { apply length_zero_iff_nil. rewrite length_app in Hlen. lia. }
      rewrite app_nil_r in Hr.
      destruct (ring_nonempty _ _ Hr) as (O & z & ->).
      destruct (ring_head_prev c (table c) O z Hr) as [Hp _].
      rewrite entries_app in He. symmetry in He.
      apply cache_of_reverse in He.
      rewrite reverse_app in He. cbn in He.
      unfold old. rewrite Hp. eauto.
  - intros [n Hin].
    assert (n < length (heap c)) as Hlt.
    { destruct Hwf as (-> & _ & Htb). eauto. }
    assert (__setitem__ k v c =
            (inr (), Cache (table c) n
                       (mtf_heap (head c) n (upd (with_obj v) n (heap c)))))
      as Hrun by (by rewrite setitem_run, Hin).
    split_and!.
    + by rewrite Hrun.
    + unfold c'. by rewrite after_set, Hrun.
    + exists n. unfold c'. rewrite after_set, Hrun. cbn [snd table heap].
      split; [done|].
      by rewrite obj_of_mtf_heap, obj_of_obj, decide_True.
Qed.

(** The capacity-2 scenario of the specification: [set(1, "a");
    set(2, "b"); get(1); set(3, "c")] evicts the key 2. *)
Lemma C3_witness :
  let ops := [Set_ (PInt 1) (PStr "a"); Set_ (PInt 2) (PStr "b");
              Get (PInt 1)] in
  let c := run_ops ops (grow first_node) in
  let c' := after (Set_ (PInt 3) (PStr "c")) c in
  (__setitem__ (PInt 3) (PStr "c") c).1 = inr () ∧
  is_Some (table c !! PInt 2) ∧
  (∀ k', is_Some (table c' !! k') ↔
         k' = PInt 3 ∨ (k' ≠ PInt 2 ∧ is_Some (table c !! k'))) ∧
  (∃ x rest, simplelrucache.cache
               (run_ops_simple ops (simplelrucache.new 2))
             = (PInt 2, x) :: rest).
Proof.
  intros ops c c'.
  assert (new 2 = inr (grow first_node)) as Hn by reflexivity.
  assert (Forall keyed ops) as Hk by (repeat constructor; done).
  assert (PInt 3 ≠ PNone) as Hne by done.
  destruct (C3_eviction 2 (grow first_node) ops (PInt 3) (PStr "c")
              Hn Hk Hne) as [H _].
  assert (table c !! PInt 3 = None) as Hfresh by (vm_compute; reflexivity).
  assert (size (table c) = Z.to_nat 2) as Hfull by (vm_compute; reflexivity).
  destruct (H Hfresh Hfull) as (H1 & H2 & H3 & H4).
  split_and!; [exact H1|exact H2|exact H3|].
  apply H4. repeat constructor; done.
Defined.

(** C3 as stated fails: with capacity 1, after [set(None, 1)] the cache is
    full, and [set("a", 2)] removes no key. *)
Lemma C3_counterexample :
  ∃ c0, new 1 = inr c0 ∧
        let c := run_ops [Set_ PNone (PInt 1)] c0 in
        let c' := after (Set_ (PStr "a") (PInt 2)) c in
        size (table c) = 1 ∧ table c !! PStr "a" = None ∧
        (__setitem__ (PStr "a") (PInt 2) c).1 = inr () ∧
        table c' !! PNone = table c !! PNone ∧
        size (table c') = 2.
Proof.
  exists first_node. split; [reflexivity|]. cbv zeta.
  split_and!; vm_compute; reflexivity.
Qed.

(** C4.  After [clear] the dictionary is empty, but the nodes still hold
    their keys, and the next [__setitem__] raises [KeyError] when it
    reclaims such a node. *)
Theorem C4_clear_then_set :
  ∃ c0, new 1 = inr c0 ∧
        let c := run_ops [Set_ (PStr "a") (PInt 1); Clear] c0 in
        __len__ c = (inr 0, c) ∧
        __contains__ (PStr "a") c = (inr false, c) ∧
        __setitem__ (PStr "b") (PInt 2) c = (inl KeyError, c) ∧
        __setitem__ (PStr "a") (PInt 1) c = (inl KeyError, c).
Proof.
  exists first_node. split; [reflexivity|]. cbv zeta.
  split_and!; vm_compute; reflexivity.
Qed.

(** C5 (as amended).  For every capacity greater than zero and every
    sequence of calls that never insert the key [None], the length of the
    cache is at most the capacity after every call. *)
Theorem C5_capacity (sz : Z) (ops : list op) :
  (0 < sz)%Z → Forall keyed ops →
  ∃ c0 n, new sz = inr c0 ∧
          __len__ (run_ops ops c0) = (inr n, run_ops ops c0) ∧
          (Z.of_nat n ≤ sz)%Z.
Proof.
  intros Hs Hk. destruct (new_succeeds sz Hs) as [c0 Hn].
  exists c0, (size (table (run_ops ops c0))). split_and!; [done..|].
  pose proof (kinv_size _ _ (wf_run sz c0 ops Hn) (kinv_run sz c0 ops Hn Hk)).
  lia.
Qed.

(** A sequence with [clear]: the calls after it may raise, the length
    stays within the capacity. *)
Lemma C5_witness :
  ∃ c0 n, new 2 = inr c0 ∧
          __len__ (run_ops [Set_ (PInt 1) (PStr "a"); Set_ (PInt 2) (PStr "b");
                            Clear; Set_ (PInt 3) (PStr "c")] c0)
          = (inr n, run_ops [Set_ (PInt 1) (PStr "a"); Set_ (PInt 2) (PStr "b");
                             Clear; Set_ (PInt 3) (PStr "c")] c0) ∧
          (Z.of_nat n ≤ 2)%Z.
Proof.
  apply (C5_capacity 2); [lia|repeat constructor; done].
Defined.

(** C5 as stated fails: with capacity 1, [set(None, 1); set("a", 2)] gives
    the length 2. *)
Lemma C5_counterexample :
  ∃ c0, new 1 = inr c0 ∧
        let c := run_ops [Set_ PNone (PInt 1); Set_ (PStr "a") (PInt 2)] c0 in
        __len__ c = (inr 2, c) ∧ ¬ (Z.of_nat 2 ≤ 1)%Z.
Proof.
  exists first_node. split; [reflexivity|]. cbv zeta.
  split; [vm_compute; reflexivity|lia].
Qed.

(** C6 (as amended).  In a well-formed ring [mtf] raises nothing and
    changes neither [head], nor the dictionary, nor a key or an object.
    For a node other than the head it relinks the ring so that the node
    directly precedes the head ([node.next == head]), the other nodes
    keeping their order; when the node already precedes the head, and when
    the node is the head, the ring is unchanged. *)
Theorem C6_mtf (c : t) (l1 l2 : list ref) (n : ref) :
  ring c (l1 ++ n :: l2) →
  let c' := (mtf n c).2 in
  (mtf n c).1 = inr () ∧
  head c' = head c ∧ table c' = table c ∧
  (∀ m, key_of (heap c') m = key_of (heap c) m ∧
        obj_of (heap c') m = obj_of (heap c) m) ∧
  (n ≠ head c → ring c' (l1 ++ l2 ++ [n]) ∧ nxt (heap c') n = head c) ∧
  (nxt (heap c) n = head c → c' = c) ∧
  (n = head c → c' = c).
Proof.
  intros Hr c'. unfold c'. rewrite mtf_run. cbn [fst snd].
  assert (n ∈ l1 ++ n :: l2) as Hn by (apply elem_of_app; right; by left).
  split_and!; try done.
  - intros m. cbn [heap with_heap].
    by rewrite key_of_mtf_heap, obj_of_mtf_heap.
  - intros Hne. pose proof Hr as (H1 & _).
    destruct l1 as [|a l1]; simpl in H1; injection H1 as Ha; [done|].
    subst a. apply (ring_mtf c (table c)) in Hr.
    apply (ring_head_next _ (table c)) in Hr as [Hnx Hr].
    cbn [heap] in Hnx, Hr. simpl in Hnx. injection Hnx as Hnx.
    rewrite <- Hnx in Hr. rewrite <- app_assoc in Hr.
    split; [exact Hr|]. cbn [heap with_heap]. by rewrite <- Hnx.
  - intros Hnx. unfold with_heap.
    rewrite (mtf_heap_id c _ n Hr Hn) by (by right). by destruct c.
  - intros Hnx. unfold with_heap.
    rewrite (mtf_heap_id c _ n Hr Hn) by (by left). by destruct c.
Qed.

(** A ring of three nodes: [mtf] of the middle node, of the node before
    the head and of the head. *)
Lemma C6_witness :
  let c := run_ops [Set_ (PInt 1) (PStr "a"); Set_ (PInt 2) (PStr "b")]
             (grow (grow first_node)) in
  ring c [2; 1; 0] ∧
  ring (mtf 1 c).2 [2; 0; 1] ∧ nxt (heap (mtf 1 c).2) 1 = head c ∧
  (mtf 0 c).2 = c ∧ (mtf 2 c).2 = c.
Proof.
  intros c.
  assert (ring c [2; 1; 0]) as Hr.
  { split_and!.
    - vm_compute. reflexivity.
    - vm_compute. tauto.
    - repeat constructor; set_solver.
    - intros m. change (length (heap c)) with 3.
      rewrite !elem_of_cons, elem_of_nil. lia. }
  split; [exact Hr|].
  destruct (C6_mtf c [2] [0] 1 Hr) as (_ & _ & _ & _ & H5 & _ & _).
  destruct (C6_mtf c [2; 1] [] 0 Hr) as (_ & _ & _ & _ & _ & H6 & _).
  destruct (C6_mtf c [] [1; 0] 2 Hr) as (_ & _ & _ & _ & _ & _ & H7).
  destruct H5 as [H5 H5']; [vm_compute; lia|].
  split_and!; [exact H5|exact H5'|apply H6; reflexivity|apply H7; reflexivity].
Defined.

(** C6 as stated fails: in the fresh ring of two nodes, after [mtf] of the
    head the head is not its own successor. *)
Lemma C6_counterexample :
  ∃ c0, new 2 = inr c0 ∧ (∃ l, ring c0 l ∧ head c0 ∈ l) ∧
        nxt (heap (mtf (head c0) c0).2) (head c0) ≠ head c0.
Proof.
  exists (grow first_node). split; [reflexivity|]. split.
  - destruct (new_ok 2 (grow first_node) eq_refl) as (_ & _ & _ & [l Hr] & _).
    exists l. split; [done|]. destruct Hr as (H1 & _).
    by eapply list_elem_of_lookup_2.
  - vm_compute. lia.
Qed.

(** C7.  [__getitem__] raises [KeyError] exactly when the key is not in the
    dictionary, and then leaves the cache as it was.  Otherwise it returns
    the object of the node the dictionary has for the key and makes this
    node the head, the other nodes keeping their order; the dictionary,
    the keys and the objects do not change. *)
Theorem C7_getitem (c : t) (k : pyval) :
  ((__getitem__ k c).1 = inl KeyError ↔ table c !! k = None) ∧
  (table c !! k = None → __getitem__ k c = (inl KeyError, c)) ∧
  (∀ n, table c !! k = Some n →
     let c' := (__getitem__ k c).2 in
     (__getitem__ k c).1 = inr (obj_of (heap c) n) ∧
     head c' = n ∧ table c' = table c ∧
     (∀ m, key_of (heap c') m = key_of (heap c) m ∧
           obj_of (heap c') m = obj_of (heap c) m) ∧
     (∀ l1 l2, ring c (l1 ++ n :: l2) → ring c' (n :: l1 ++ l2))).
Proof.
  rewrite getitem_run. destruct (table c !! k) as [n|] eqn:E.
  - cbv zeta. cbn [fst snd]. split_and!; try done.
    intros n' [= <-]. cbn [head table heap]. split_and!; try done.
    + by rewrite obj_of_mtf_heap.
    + intros m. by rewrite key_of_mtf_heap, obj_of_mtf_heap.
    + intros l1 l2. apply ring_get.
  - split_and!; done.
Qed.

(** The scenario of the specification, [get("x")] on a fresh cache of
    capacity 3, and a successful [get]. *)
Lemma C7_witness :
  let c0 := grow (grow first_node) in
  let c := run_ops [Set_ (PStr "a") (PInt 1); Set_ (PStr "b") (PInt 2)] c0 in
  new 3 = inr c0 ∧
  __getitem__ (PStr "x") c0 = (inl KeyError, c0) ∧
  (__getitem__ (PStr "a") c).1 = inr (PInt 1) ∧
  head (__getitem__ (PStr "a") c).2 = 1 ∧
  table (__getitem__ (PStr "a") c).2 = table c.
Proof.
  intros c0 c. split; [reflexivity|].
  destruct (C7_getitem c0 (PStr "x")) as (_ & H2 & _).
  destruct (C7_getitem c (PStr "a")) as (_ & _ & H3).
  assert (table c !! PStr "a" = Some 1) as Ha by (vm_compute; reflexivity).
  destruct (H3 1 Ha) as (H4 & H5 & H6 & _).
  split_and!; [apply H2; vm_compute; reflexivity|exact H4|exact H5|exact H6].
Defined.

(** C8 (as amended).  In every state reached by calls that insert neither
    the key [None] nor the object [None], each of the nodes has the key
    [None] exactly when it has the object [None]. *)
Theorem C8_slot_emptiness (sz : Z) (c0 : t) (ops : list op) :
  new sz = inr c0 → Forall (λ o, keyed o ∧ valued o) ops →
  let c := run_ops ops c0 in
  length (heap c) = Z.to_nat sz ∧
  ∀ n, n < length (heap c) →
       (key_of (heap c) n = PNone ↔ obj_of (heap c) n = PNone).
Proof.
  intros Hn Hk c. split.
  - by destruct (wf_run sz c0 ops Hn) as (? & _).
  - apply (einv_run_ops (Z.to_nat sz)); [done|..].
    + by apply wf_new.
    + by eapply kinv_new.
    + by eapply einv_new.
Qed.

(** A sequence of calls on a cache of capacity 2. *)
Lemma C8_witness :
  let c := run_ops [Set_ (PStr "a") (PInt 1); Set_ (PStr "b") (PInt 2);
                    Del (PStr "a"); Clear] (grow first_node) in
  length (heap c) = 2 ∧
  ∀ n, n < length (heap c) →
       (key_of (heap c) n = PNone ↔ obj_of (heap c) n = PNone).
Proof.
  apply (C8_slot_emptiness 2 (grow first_node)).
  - reflexivity.
  - repeat constructor; done.
Defined.

(** C8 as stated fails: [set("a", None)] leaves a node with a key and no
    object, [set(None, 1)] a node with an object and no key. *)
Lemma C8_counterexample :
  (∃ c0, new 1 = inr c0 ∧
         let c := run_ops [Set_ (PStr "a") PNone] c0 in
         key_of (heap c) 0 ≠ PNone ∧ obj_of (heap c) 0 = PNone) ∧
  (∃ c0, new 1 = inr c0 ∧
         let c := run_ops [Set_ PNone (PInt 1)] c0 in
         key_of (heap c) 0 = PNone ∧ obj_of (heap c) 0 ≠ PNone).
Proof.
  split; exists first_node; (split; [reflexivity|]); cbv zeta;
    split; vm_compute; done.
Qed.

(** C9.  In every reachable state, a second [__setitem__] with the same
    key and object leaves the cache exactly as the first one left it:
    length, keys, objects and the order of the ring are the same.  When
    the first call raised nothing, neither does the second. *)
Theorem C9_set_twice (sz : Z) (c0 : t) (ops : list op) (k v : pyval) :
  new sz = inr c0 →
  let c := run_ops ops c0 in
  let c1 := after (Set_ k v) c in
  after (Set_ k v) c1 = c1 ∧
  ((__setitem__ k v c).1 = inr () → __setitem__ k v c1 = (inr (), c1)).
Proof.
  intros Hn c c1.
  pose proof (wf_run sz c0 ops Hn) as Hwf. fold c in Hwf.
  assert (wf (Z.to_nat sz) c1) as Hwf1 by (by apply wf_after).
  unfold c1 in *. rewrite !after_set.
  destruct (__setitem__ k v c) as [[e|[]] c'] eqn:Hrun; cbn [fst snd].
  - pose proof (setitem_unit k v c e) as Hu. rewrite Hrun in Hu.
    specialize (Hu eq_refl). injection Hu as -> ->.
    rewrite Hrun. done.
  - destruct (set_head_holds _ _ _ _ _ Hwf Hrun) as (H1 & H2 & _).
    rewrite after_set, Hrun in Hwf1. cbn [snd] in Hwf1.
    rewrite (set_at_head _ _ _ _ Hwf1 H1 H2). done.
Qed.

(** An insert into a full cache of capacity 2, made twice. *)
Lemma C9_witness :
  let c := run_ops [Set_ (PStr "a") (PInt 1); Set_ (PStr "b") (PInt 2)]
             (grow first_node) in
  let c1 := after (Set_ (PStr "c") (PInt 3)) c in
  after (Set_ (PStr "c") (PInt 3)) c1 = c1 ∧
  __setitem__ (PStr "c") (PInt 3) c1 = (inr (), c1).
Proof.
  intros c c1.
  destruct (C9_set_twice 2 (grow first_node)
              [Set_ (PStr "a") (PInt 1); Set_ (PStr "b") (PInt 2)]
              (PStr "c") (PInt 3) eq_refl) as [H1 H2].
  split; [exact H1|]. apply H2. vm_compute. reflexivity.
Defined.

(** C10.  When the key [None] is in the dictionary and its node, whose
    key reads as "empty", is [head.prev], [__setitem__] of a new key takes
    this node without removing any entry: [None] stays in the dictionary
    and now refers to a node whose key is the new one, and the length
    grows by one. *)
Theorem C10_none_key (sz : Z) (c0 : t) (ops : list op) (k v : pyval) :
  new sz = inr c0 →
  let c := run_ops ops c0 in
  let z := prv (heap c) (head c) in
  table c !! PNone = Some z → key_of (heap c) z = PNone →
  table c !! k = None →
  let c' := after (Set_ k v) c in
  __setitem__ k v c = (inr (), c') ∧
  table c' !! PNone = Some z ∧ key_of (heap c') z = k ∧
  table c' !! k = Some z ∧
  (∀ k', is_Some (table c !! k') → is_Some (table c' !! k')) ∧
  size (table c') = S (size (table c)).
Proof.
  intros Hn c z HNone Hzk Hk c'.
  pose proof (wf_run sz c0 ops Hn) as Hwf. fold c in Hwf.
  pose proof (wf_tail _ _ Hwf) as Hz. fold z in Hz.
  destruct Hwf as (Hlen & _).
  assert (k ≠ PNone) as Hne by (intros ->; congruence).
  assert (__setitem__ k v c =
          (inr (), Cache (<[k := z]> (table c)) z
                     (upd (with_obj v) z (upd (with_key k) z (heap c)))))
    as Hrun.
  { rewrite setitem_run, Hk. cbv zeta. fold z.
    rewrite decide_True by done. rewrite key_of_set_same by lia. done. }
  unfold c'. rewrite after_set, Hrun. cbn [snd table heap].
  split_and!.
  - done.
  - by rewrite lookup_insert_ne.
  - rewrite key_of_set_same by lia. done.
  - by rewrite lookup_insert_eq.
  - intros k' Hk'. destruct (decide (k' = k)) as [->|Hkk].
    + rewrite lookup_insert_eq. eauto.
    + by rewrite lookup_insert_ne.
  - by apply map_size_insert_None.
Qed.

(** Capacity 2: after [set(None, 1); set("a", 2)] the node of [None] is
    [head.prev], and [set("b", 3)] gives a dictionary of three entries
    for two nodes. *)
Lemma C10_witness :
  let c := run_ops [Set_ PNone (PInt 1); Set_ (PStr "a") (PInt 2)]
             (grow first_node) in
  let c' := after (Set_ (PStr "b") (PInt 3)) c in
  new 2 = inr (grow first_node) ∧
  table c !! PNone = Some (prv (heap c) (head c)) ∧
  table c' !! PNone = Some 1 ∧ key_of (heap c') 1 = PStr "b" ∧
  size (table c') = 3 ∧ length (heap c') = 2.
Proof.
  intros c c'. split; [reflexivity|].
  assert (table c !! PNone = Some (prv (heap c) (head c))) as HNone
    by (vm_compute; reflexivity).
  split; [exact HNone|].
  destruct (C10_none_key 2 (grow first_node)
              [Set_ PNone (PInt 1); Set_ (PStr "a") (PInt 2)]
              (PStr "b") (PInt 3) eq_refl HNone)
    as (_ & H2 & H3 & _ & _ & H6);
    [vm_compute; reflexivity..|].
  split_and!; [exact H2|exact H3|exact H6|reflexivity].
Defined.

(** * Further properties *)

(** ** The constructor, the ring and the methods *)

Lemma ring_perm (c : t) l : ring c l → l ≡ₚ seq 0 (length (heap c)).
Proof.
  intros (_ & _ & Hnd & Hin).
  apply NoDup_Permutation; [done|apply NoDup_seq|].
  intros n. rewrite Hin, elem_of_seq. lia.
Qed.

(** X1.  [lrucache(size)] raises [AssertionError] when [size] is not
    positive.  Otherwise it builds a cache with an empty dictionary and
    [size] nodes, none of which holds a key or an object, linked into one
    ring. *)
Theorem X1_constructor (sz : Z) :
  ((sz ≤ 0)%Z → new sz = inl AssertionError) ∧
  ((0 < sz)%Z →
     ∃ c, new sz = inr c ∧ __len__ c = (inr 0, c) ∧
          (∀ k, __contains__ k c = (inr false, c)) ∧
          length (heap c) = Z.to_nat sz ∧ all_empty (heap c) ∧
          walk (heap c) (head c) (Z.to_nat sz) ≡ₚ seq 0 (Z.to_nat sz) ∧
          ∃ l, ring c l).
Proof.
  split; [apply new_fails|]. intros Hs.
  destruct (new_succeeds sz Hs) as [c Hn]. exists c.
  destruct (new_ok sz c Hn) as (_ & Ht & Hl & [l Hr] & He).
  split_and!; try done.
  - unfold __len__. by rewrite Ht, map_size_empty.
  - intros k. unfold __contains__, table_contains.
    rewrite Ht, lookup_empty. by rewrite bool_decide_false by (by intros [? ?]).
  - rewrite <- Hl at 1. rewrite <- (ring_length _ _ Hr), (walk_ring _ _ Hr).
    rewrite <- Hl. by apply ring_perm.
  - eauto.
Qed.

(** [lrucache(0)] and [lrucache(3)]. *)
Lemma X1_witness :
  new 0 = inl AssertionError ∧
  ∃ c, new 3 = inr c ∧ __len__ c = (inr 0, c) ∧
       (∀ k, __contains__ k c = (inr false, c)) ∧
       length (heap c) = 3 ∧ all_empty (heap c) ∧
       walk (heap c) (head c) 3 ≡ₚ [0; 1; 2] ∧
       ∃ l, ring c l.
Proof.
  split.
  - apply (X1_constructor 0). lia.
  - apply (X1_constructor 3). lia.
Defined.

(** X2.  Whatever calls are made, with any keys and objects, the nodes
    stay linked into one ring of [size] nodes: walking [size] times along
    [next] from [head] meets every node once and leads back to [head],
    [prev] is the inverse of [next], and the dictionary refers to nodes of
    the ring only. *)
Theorem X2_ring_invariant (sz : Z) (c0 : t) (ops : list op) :
  new sz = inr c0 →
  let c := run_ops ops c0 in
  let cap := Z.to_nat sz in
  length (heap c) = cap ∧
  walk (heap c) (head c) cap ≡ₚ seq 0 cap ∧
  nxt (heap c) (List.last (walk (heap c) (head c) cap) (head c)) = head c ∧
  (∀ n, n < cap →
        nxt (heap c) n < cap ∧ prv (heap c) n < cap ∧
        prv (heap c) (nxt (heap c) n) = n ∧
        nxt (heap c) (prv (heap c) n) = n) ∧
  (∀ k n, table c !! k = Some n → n < cap).
Proof.
  intros Hn c cap.
  destruct (wf_run sz c0 ops Hn) as (Hlen & [l Hr] & Htb).
  fold c in Hlen, Hr, Htb. fold cap in Hlen, Htb.
  pose proof (ring_length _ _ Hr) as Hl. rewrite Hlen in Hl.
  split_and!; try done.
  - rewrite <- Hl, (walk_ring _ _ Hr). rewrite Hl, <- Hlen.
    by apply ring_perm.
  - rewrite <- Hl, (walk_ring _ _ Hr). by apply ring_last_next.
  - intros n Hlt. destruct Hr as (_ & Hc & _ & Hin).
    assert (n ∈ l) as Hnl by (apply Hin; lia).
    destruct (cyc_next_in _ _ _ _ Hc Hnl) as [H1 H2].
    destruct (cyc_inverse _ _ _ _ Hc Hnl) as [H3 H4].
    apply Hin in H1, H2. split_and!; try done; lia.
Qed.

(** A sequence with the key [None], the object [None] and [clear]. *)
Lemma X2_witness :
  let c := run_ops [Set_ PNone (PInt 1); Set_ (PStr "a") PNone; Clear;
                    Set_ (PStr "b") (PInt 2); Del (PStr "a")]
             (grow first_node) in
  length (heap c) = 2 ∧
  walk (heap c) (head c) 2 ≡ₚ [0; 1] ∧
  nxt (heap c) (List.last (walk (heap c) (head c) 2) (head c)) = head c ∧
  (∀ n, n < 2 →
        nxt (heap c) n < 2 ∧ prv (heap c) n < 2 ∧
        prv (heap c) (nxt (heap c) n) = n ∧
        nxt (heap c) (prv (heap c) n) = n) ∧
  (∀ k n, table c !! k = Some n → n < 2).
Proof. apply (X2_ring_invariant 2 (grow first_node)). reflexivity. Defined.

(** X3.  A call that raises an exception raises [KeyError] and leaves the
    cache exactly as it was: every check is made before the first
    assignment.  [clear] never raises. *)
Theorem X3_failure_atomic (c : t) (o : op) (e : exn) :
  (run_op o c).1 = inl e →
  e = KeyError ∧ (run_op o c).2 = c ∧ o ≠ Clear.
Proof.
  destruct o as [k|k v|k|]; unfold run_op, mbind, M_bind.
  - rewrite getitem_run. destruct (table c !! k); [done|].
    by intros [= <-].
  - destruct (__setitem__ k v c) as [[e'|[]] c'] eqn:Hrun; [|done].
    intros [= ->].
    pose proof (setitem_unit k v c e) as Hu. rewrite Hrun in Hu.
    specialize (Hu eq_refl). by injection Hu as -> ->.
  - rewrite delitem_run. destruct (table c !! k); [done|].
    by intros [= <-].
  - done.
Qed.

(** The failing [set] of a cache that has been cleared. *)
Lemma X3_witness :
  let c := run_ops [Set_ (PStr "a") (PInt 1); Clear] first_node in
  (run_op (Set_ (PStr "b") (PInt 2)) c).1 = inl KeyError ∧
  (run_op (Set_ (PStr "b") (PInt 2)) c).2 = c.
Proof.
  intros c.
  assert ((run_op (Set_ (PStr "b") (PInt 2)) c).1 = inl KeyError) as H
    by (vm_compute; reflexivity).
  split; [exact H|].
  exact (proj1 (proj2 (X3_failure_atomic c _ _ H))).
Defined.

(** The last node of the ring when the dictionary is not full. *)
Lemma rep_room (c : t) occ emp :
  rep c occ emp → size (table c) < length (heap c) →
  ∃ E, emp = E ++ [prv (heap c) (head c)] ∧
       key_of (heap c) (prv (heap c) (head c)) = PNone.
Proof.
  intros [Hr Hd] Hlt.
  pose proof (data_size _ _ _ (ring_NoDup_l _ _ _ Hr) Hd) as Hsz.
  pose proof (ring_length _ _ Hr) as Hlen. rewrite length_app in Hlen.
  destruct emp as [|z E _] using rev_ind; [simpl in Hlen; lia|].
  rewrite app_assoc in Hr.
  destruct (ring_head_prev c (table c) _ _ Hr) as [-> _].
  exists E. split; [done|]. destruct Hd as (He & _).
  apply Forall_app in He as [_ He]. rewrite Forall_singleton in He. exact He.
Qed.

(** The last node of the ring when the dictionary is full. *)
Lemma rep_full (c : t) occ emp :
  rep c occ emp → size (table c) = length (heap c) →
  emp = [] ∧ ∃ O, occ = O ++ [prv (heap c) (head c)].
Proof.
  intros [Hr Hd] Hfull.
  pose proof (data_size _ _ _ (ring_NoDup_l _ _ _ Hr) Hd) as Hsz.
  pose proof (ring_length _ _ Hr) as Hlen. rewrite length_app in Hlen.
  assert (emp = []) as -> by (apply length_zero_iff_nil; lia).
  split; [done|]. rewrite app_nil_r in Hr.
  destruct (ring_nonempty _ _ Hr) as (O & z & ->).
  destruct (ring_head_prev c (table c) _ _ Hr) as [-> _]. eauto.
Qed.

Lemma rep_set_total (c : t) occ emp k v :
  rep c occ emp → k ≠ PNone → (__setitem__ k v c).1 = inr ().
Proof.
  intros Hrep Hne. rewrite setitem_run.
  destruct (table c !! k) as [n|] eqn:E; [done|]. cbv zeta.
  pose proof Hrep as [Hr Hd].
  pose proof (data_size _ _ _ (ring_NoDup_l _ _ _ Hr) Hd) as Hsz.
  pose proof (ring_length _ _ Hr) as Hlen. rewrite length_app in Hlen.
  destruct (decide (size (table c) = length (heap c))) as [Hfull|Hroom].
  - destruct (rep_full _ _ _ Hrep Hfull) as (-> & O & ->).
    destruct (rep_set_full c k v O _ Hrep E Hne) as (Htz & Hold & _).
    rewrite decide_False by done. by rewrite Htz.
  - destruct (rep_room _ _ _ Hrep) as (E' & -> & Hk); [lia|].
    by rewrite decide_True.
Qed.

(** X4.  After calls of [__getitem__], [__setitem__] and [__delitem__]
    that insert no key [None], [__setitem__] with a key other than [None]
    never raises: the node it reclaims is empty or holds a key of the
    dictionary. *)
Theorem X4_set_total (sz : Z) (c0 : t) (ops : list op) (k v : pyval) :
  new sz = inr c0 → Forall keyed_no_clear ops → k ≠ PNone →
  (__setitem__ k v (run_ops ops c0)).1 = inr ().
Proof.
  intros Hn Hk Hne.
  destruct (sim_run sz c0 ops Hn Hk) as (occ & emp & Hrep & _).
  by eapply rep_set_total.
Qed.

(** An insert into a full cache of capacity 2. *)
Lemma X4_witness :
  (__setitem__ (PInt 3) (PStr "c")
     (run_ops [Set_ (PInt 1) (PStr "a"); Set_ (PInt 2) (PStr "b");
               Del (PInt 1); Set_ (PInt 4) (PStr "d")]
        (grow first_node))).1 = inr ().
Proof.
  apply (X4_set_total 2 (grow first_node)).
  - reflexivity.
  - repeat constructor; done.
  - done.
Defined.

(** X5.  In every reachable state, when [__setitem__] has stored an object
    under a key, the key is contained, and [__getitem__] returns the
    object and leaves the cache as [__setitem__] left it. *)
Theorem X5_set_then_get (sz : Z) (c0 c' : t) (ops : list op) (k v : pyval) :
  new sz = inr c0 →
  __setitem__ k v (run_ops ops c0) = (inr (), c') →
  __contains__ k c' = (inr true, c') ∧ __getitem__ k c' = (inr v, c').
Proof.
  intros Hn Hrun.
  pose proof (wf_run sz c0 ops Hn) as Hwf.
  destruct (set_head_holds _ _ _ _ _ Hwf Hrun) as (H1 & H2 & _).
  assert (wf (Z.to_nat sz) c') as Hwf'.
  { pose proof (wf_after _ (Set_ k v) _ Hwf) as H.
    by rewrite after_set, Hrun in H. }
  split.
  - unfold __contains__, table_contains. rewrite H1.
    by rewrite bool_decide_true by eauto.
  - rewrite getitem_run, H1. cbv zeta.
    destruct Hwf' as (Hlen & [l Hr] & Htb).
    rewrite (mtf_heap_id c' l).
    + rewrite H2. by destruct c'.
    + done.
    + destruct Hr as (_ & _ & _ & Hin). apply Hin. rewrite Hlen. eauto.
    + by left.
Qed.

(** A [set] with the key [None] after a [clear]. *)
Lemma X5_witness :
  let c := run_ops [Set_ (PStr "a") (PInt 1); Clear] (grow first_node) in
  let c' := after (Set_ PNone (PInt 7)) c in
  __contains__ PNone c' = (inr true, c') ∧
  __getitem__ PNone c' = (inr (PInt 7), c').
Proof.
  intros c c'.
  apply (X5_set_then_get 2 (grow first_node) c'
           [Set_ (PStr "a") (PInt 1); Clear] PNone (PInt 7)).
  - reflexivity.
  - vm_compute. reflexivity.
Defined.

Lemma delete_effect cap (c : t) (k : pyval) (n : ref) :
  wf cap c → table c !! k = Some n →
  ∃ c', __delitem__ k c = (inr (), c') ∧
        table c' = delete k (table c) ∧
        __contains__ k c' = (inr false, c') ∧
        S (size (table c')) = size (table c) ∧
        key_of (heap c') n = PNone ∧ obj_of (heap c') n = PNone ∧
        (∀ m, m ≠ n → key_of (heap c') m = key_of (heap c) m ∧
                      obj_of (heap c') m = obj_of (heap c) m) ∧
        prv (heap c') (head c') = n.
Proof.
  intros (Hlen & [l Hr] & Htb) Hk.
  assert (n < length (heap c)) as Hlt by (rewrite Hlen; eauto).
  rewrite delitem_run, Hk. cbv zeta. eexists. split; [reflexivity|].
  cbn [table heap head].
  split_and!.
  - done.
  - unfold __contains__, table_contains. cbn [table].
    rewrite lookup_delete_eq.
    by rewrite bool_decide_false by (by intros [? ?]).
  - rewrite map_size_delete, Hk.
    assert (size (table c) ≠ 0); [|lia].
    apply map_size_non_empty_iff. intros E. rewrite E in Hk.
    by rewrite lookup_empty in Hk.
  - rewrite key_of_mtf_heap, key_of_set_same; done.
  - rewrite obj_of_mtf_heap, obj_of_set, decide_True; done.
  - intros m Hm.
    rewrite key_of_mtf_heap, obj_of_mtf_heap, key_of_set, obj_of_set by done.
    by rewrite !decide_False.
  - assert (n ∈ l) as Hin.
    { destruct Hr as (_ & _ & _ & Hin). by apply Hin. }
    apply list_elem_of_split in Hin as (l1 & l2 & ->).
    apply (ring_del c (delete k (table c))) in Hr. cbv zeta in Hr.
    rewrite app_assoc in Hr.
    by destruct (ring_head_prev _ (delete k (table c)) _ _ Hr) as [Hp _].
Qed.

(** X6.  In every reachable state, [__delitem__] of a key of the
    dictionary raises nothing and removes this key and no other; its node
    loses key and object, no other node's key or object changes, and the
    node becomes [head.prev], the node the next insert takes. *)
Theorem X6_delete (sz : Z) (c0 : t) (ops : list op) (k : pyval) (n : ref) :
  new sz = inr c0 →
  let c := run_ops ops c0 in
  table c !! k = Some n →
  ∃ c', __delitem__ k c = (inr (), c') ∧
        table c' = delete k (table c) ∧
        __contains__ k c' = (inr false, c') ∧
        S (size (table c')) = size (table c) ∧
        key_of (heap c') n = PNone ∧ obj_of (heap c') n = PNone ∧
        (∀ m, m ≠ n → key_of (heap c') m = key_of (heap c) m ∧
                      obj_of (heap c') m = obj_of (heap c) m) ∧
        prv (heap c') (head c') = n.
Proof.
  intros Hn c Hk.
  exact (delete_effect (Z.to_nat sz) c k n (wf_run sz c0 ops Hn) Hk).
Qed.

(** Deleting the most recently used of two keys. *)
Lemma X6_witness :
  let c := run_ops [Set_ (PStr "a") (PInt 1); Set_ (PStr "b") (PInt 2)]
             (grow (grow first_node)) in
  table c !! PStr "b" = Some 2 ∧
  ∃ c', __delitem__ (PStr "b") c = (inr (), c') ∧
        table c' = delete (PStr "b") (table c) ∧
        __contains__ (PStr "b") c' = (inr false, c') ∧
        S (size (table c')) = size (table c) ∧
        key_of (heap c') 2 = PNone ∧ obj_of (heap c') 2 = PNone ∧
        (∀ m, m ≠ 2 → key_of (heap c') m = key_of (heap c) m ∧
                      obj_of (heap c') m = obj_of (heap c) m) ∧
        prv (heap c') (head c') = 2.
Proof.
  intros c.
  assert (table c !! PStr "b" = Some 2) as H by (vm_compute; reflexivity).
  split; [exact H|].
  exact (X6_delete 3 (grow (grow first_node)) _ (PStr "b") 2 eq_refl H).
Defined.

(** X7.  In every reachable state, after a successful [__delitem__] the
    next [__setitem__] of a key that is not in the dictionary takes the
    node just freed, raises nothing and removes no key. *)
Theorem X7_delete_then_set (sz : Z) (c0 : t) (ops : list op)
    (k k2 v2 : pyval) (n : ref) :
  new sz = inr c0 →
  let c := run_ops ops c0 in
  let c' := after (Del k) c in
  table c !! k = Some n → table c' !! k2 = None →
  ∃ c'', __setitem__ k2 v2 c' = (inr (), c'') ∧
         table c'' = <[k2 := n]> (delete k (table c)) ∧
         head c'' = n ∧
         key_of (heap c'') n = k2 ∧ obj_of (heap c'') n = v2.
Proof.
  intros Hn c c' Hk Hk2.
  destruct (delete_effect _ c k n (wf_run sz c0 ops Hn) Hk)
    as (c1 & Hdel & Ht & _ & _ & Hkey & _ & _ & Hp).
  assert (c' = c1) as Hc'.
  { unfold c'. rewrite after_del. rewrite delitem_run in Hdel.
    rewrite Hk in Hdel |- *. by injection Hdel. }
  rewrite Hc' in Hk2 |- *.
  assert (n < length (heap c1)) as Hlt.
  { pose proof (wf_run sz c0 (ops ++ [Del k]) Hn) as (Hlen & _).
    unfold run_ops in Hlen. rewrite foldl_app in Hlen. simpl in Hlen.
    fold (run_ops ops c0) in Hlen. fold c in Hlen. fold c' in Hlen.
    rewrite Hc' in Hlen. rewrite Hlen.
    destruct (wf_run sz c0 ops Hn) as (_ & _ & Htb). eauto. }
  rewrite setitem_run, Hk2. cbv zeta. rewrite Hp, Hkey.
  rewrite decide_True by done. rewrite key_of_set_same by done.
  eexists. split; [reflexivity|]. cbn [table head heap].
  split_and!; try done.
  - by rewrite Ht.
  - by rewrite key_of_set_same.
  - by rewrite obj_of_set, decide_True.
Qed.

(** [set("a", 1); set("b", 2); delete("a"); set("c", 3)] with capacity 2:
    the key "c" takes the node of "a", and "b" stays. *)
Lemma X7_witness :
  let c := run_ops [Set_ (PStr "a") (PInt 1); Set_ (PStr "b") (PInt 2)]
             (grow first_node) in
  let c' := after (Del (PStr "a")) c in
  table c !! PStr "a" = Some 1 ∧
  ∃ c'', __setitem__ (PStr "c") (PInt 3) c' = (inr (), c'') ∧
         table c'' = <[PStr "c" := 1]> (delete (PStr "a") (table c)) ∧
         head c'' = 1 ∧
         key_of (heap c'') 1 = PStr "c" ∧ obj_of (heap c'') 1 = PInt 3.
Proof.
  intros c c'.
  assert (table c !! PStr "a" = Some 1) as H by (vm_compute; reflexivity).
  split; [exact H|].
  apply (X7_delete_then_set 2 (grow first_node) _ (PStr "a"));
    [reflexivity|exact H|].
  vm_compute. reflexivity.
Defined.

(** X8.  After calls of [__getitem__], [__setitem__] and [__delitem__]
    that insert no key [None], while the cache is not full [__setitem__] of
    a new key evicts nothing: it takes the empty node [head.prev], and the
    dictionary gains the key and loses none. *)
Theorem X8_insert_with_room (sz : Z) (c0 : t) (ops : list op) (k v : pyval) :
  new sz = inr c0 → Forall keyed_no_clear ops →
  let c := run_ops ops c0 in
  let z := prv (heap c) (head c) in
  size (table c) < Z.to_nat sz → table c !! k = None →
  key_of (heap c) z = PNone ∧
  ∃ c', __setitem__ k v c = (inr (), c') ∧
        table c' = <[k := z]> (table c) ∧
        size (table c') = S (size (table c)) ∧ head c' = z.
Proof.
  intros Hn Hk c z Hroom Hfresh.
  destruct (sim_run sz c0 ops Hn Hk) as (occ & emp & Hrep & _).
  destruct (wf_run sz c0 ops Hn) as (Hlen & _).
  fold c in Hrep, Hlen.
  destruct (rep_room _ _ _ Hrep) as (E & -> & Hz); [lia|]. fold z in Hz.
  assert (z < length (heap c)) as Hlt.
  { destruct Hrep as [Hr _]. apply (ring_in_bounds _ _ _ Hr).
    rewrite app_assoc. apply elem_of_app. right. by left. }
  split; [done|]. rewrite setitem_run, Hfresh. cbv zeta. fold z.
  rewrite decide_True by done. rewrite key_of_set_same by done.
  eexists. split; [reflexivity|]. cbn [table head].
  split_and!; try done. by apply map_size_insert_None.
Qed.

(** The second insert into a cache of capacity 3. *)
Lemma X8_witness :
  let c := run_ops [Set_ (PStr "a") (PInt 1)] (grow (grow first_node)) in
  let z := prv (heap c) (head c) in
  key_of (heap c) z = PNone ∧
  ∃ c', __setitem__ (PStr "b") (PInt 2) c = (inr (), c') ∧
        table c' = <[PStr "b" := z]> (table c) ∧
        size (table c') = S (size (table c)) ∧ head c' = z.
Proof.
  apply (X8_insert_with_room 3 (grow (grow first_node))).
  - reflexivity.
  - repeat constructor; done.
  - vm_compute. lia.
  - vm_compute. reflexivity.
Defined.

Lemma ring_self_prev (c : t) l :
  ring c l → prv (heap c) (head c) = head c → length (heap c) = 1.
Proof.
  intros Hr Hp. rewrite <- (ring_length _ _ Hr).
  destruct (ring_nonempty _ _ Hr) as (l' & z & ->).
  destruct (ring_head_prev c (table c) _ _ Hr) as [Hz _].
  destruct Hr as (H1 & _ & Hnd & _).
  destruct l' as [|a l']; [done|]. simpl in H1. injection H1 as ->.
  exfalso. apply NoDup_cons in Hnd as [Hnd _]. apply Hnd.
  apply elem_of_app. right. rewrite <- Hz, Hp. by left.
Qed.

(** The key of the head node survives the next insert. *)
Lemma mru_survives (c : t) occ emp k k2 v2 :
  rep c occ emp → 2 ≤ length (heap c) →
  table c !! k = Some (head c) →
  is_Some (table (after (Set_ k2 v2) c) !! k).
Proof.
  intros Hrep Hcap Hk. pose proof Hrep as [Hr (He & Hnd & HN & Htb)].
  rewrite after_set, setitem_run.
  destruct (table c !! k2) as [n|] eqn:E; [cbn [snd table]; eauto|].
  cbv zeta. set (z := prv (heap c) (head c)).
  assert (k ≠ k2) as Hne by (intros ->; congruence).
  destruct (ring_nonempty _ _ Hr) as (l' & z' & Hl).
  pose proof Hr as Hr'. rewrite Hl in Hr'.
  destruct (ring_head_prev c (table c) _ _ Hr') as [Hz' _].
  fold z in Hz'. subst z'.
  assert (z ∈ occ ++ emp) as Hin.
  { rewrite Hl. apply elem_of_app. right. by left. }
  pose proof (ring_in_bounds _ _ _ Hr Hin) as Hlt.
  rewrite key_of_set_same by done.
  case_decide as Hold;
    [|destruct (table c !! key_of (heap c) z) as [m|] eqn:E'];
    cbn [snd table]; [| |eauto].
  - rewrite lookup_insert_ne by done. eauto.
  - rewrite lookup_insert_ne by done.
    rewrite lookup_delete_ne; [eauto|].
    intros Heq.
    assert (z ∈ occ) as Hz.
    { apply elem_of_app in Hin as [?|Hin]; [done|].
      exfalso. apply Hold. by apply (proj1 (Forall_forall _ _) He). }
    assert (table c !! k = Some z) as Hkz by (by apply Htb).
    rewrite Hk in Hkz. injection Hkz as Hkz.
    pose proof (ring_self_prev _ _ Hr (eq_sym Hkz)). lia.
Qed.

(** X9.  With a capacity of two or more, after calls of [__getitem__],
    [__setitem__] and [__delitem__] that insert no key [None]: the key of
    a [__getitem__] or [__setitem__] that raised nothing is not evicted by
    the next [__setitem__], whatever its key. *)
Theorem X9_recency (sz : Z) (c0 : t) (ops : list op) (o : op)
    (k v k2 v2 : pyval) :
  new sz = inr c0 → (2 ≤ sz)%Z → Forall keyed_no_clear ops →
  let c := run_ops ops c0 in
  (o = Get k ∨ (o = Set_ k v ∧ k ≠ PNone)) →
  (∃ r, (run_op o c).1 = inr r) →
  is_Some (table (after (Set_ k2 v2) (after o c)) !! k).
Proof.
  intros Hn Hs Hk c Ho [r Hr].
  assert (keyed_no_clear o) as Hko.
  { destruct Ho as [->|[-> ?]]; by split. }
  assert (Forall keyed_no_clear (ops ++ [o])) as Hk'.
  { apply Forall_app. split; [done|]. by apply Forall_singleton. }
  destruct (sim_run sz c0 _ Hn Hk') as (occ & emp & Hrep & _).
  destruct (wf_run sz c0 (ops ++ [o]) Hn) as (Hlen & _).
  unfold run_ops in Hrep, Hlen. rewrite foldl_app in Hrep, Hlen.
  simpl in Hrep, Hlen. fold (run_ops ops c0) in Hrep, Hlen.
  fold c in Hrep, Hlen.
  apply (mru_survives _ occ emp); [done|lia|].
  pose proof (wf_run sz c0 ops Hn) as Hwf. fold c in Hwf.
  destruct Ho as [->|[-> Hne]].
  - unfold run_op in Hr. rewrite getitem_run in Hr. rewrite after_get.
    destruct (table c !! k) as [n|] eqn:E; [done|discriminate Hr].
  - rewrite after_set.
    destruct (__setitem__ k v c) as [[e|[]] c'] eqn:Hrun.
    + unfold run_op, mbind, M_bind in Hr. rewrite Hrun in Hr.
      discriminate Hr.
    + by destruct (set_head_holds _ _ _ _ _ Hwf Hrun) as (H1 & _).
Qed.

(** The capacity-2 scenario of the specification: [set(1, "a");
    set(2, "b"); get(1); set(3, "c")] keeps the key 1. *)
Lemma X9_witness :
  let c := run_ops [Set_ (PInt 1) (PStr "a"); Set_ (PInt 2) (PStr "b")]
             (grow first_node) in
  is_Some (table (after (Set_ (PInt 3) (PStr "c")) (after (Get (PInt 1)) c))
           !! PInt 1).
Proof.
  apply (X9_recency 2 (grow first_node) _ (Get (PInt 1)) (PInt 1) PNone).
  - reflexivity.
  - lia.
  - repeat constructor; done.
  - by left.
  - eexists. vm_compute. reflexivity.
Defined.

(** ** The two caches give the same answers *)

Lemma simple_scan_hit k v (s : simplelrucache.t) A B :
  reverse (simplelrucache.cache s) = A ++ (k, v) :: B → k ∉ B.*1 →
  simplelrucache.scan k 0 (simplelrucache.cache s)
  = Some (length (reverse B), (k, v)).
Proof.
  intros Hc%cache_of_reverse Hk.
  rewrite Hc, reverse_app, reverse_cons, <- app_assoc. simpl.
  by rewrite scan_found by (by apply not_elem_of_reverse_keys).
Qed.

Lemma simple_scan_miss k (s : simplelrucache.t) :
  k ∉ (reverse (simplelrucache.cache s)).*1 →
  simplelrucache.scan k 0 (simplelrucache.cache s) = None.
Proof.
  intros Hk. apply scan_fresh.
  apply not_elem_of_reverse_keys in Hk. by rewrite reverse_involutive in Hk.
Qed.

Lemma sim_answers (c : t) (s : simplelrucache.t) k :
  sim c s →
  size (table c) = length (simplelrucache.cache s) ∧
  (__contains__ k c).1 = inr (simplelrucache.__contains__ k s) ∧
  (∀ v, (__getitem__ k c).1 = inr v ↔
        (simplelrucache.__getitem__ k s).1 = inr v) ∧
  ((__getitem__ k c).1 = inl KeyError ↔
   (simplelrucache.__getitem__ k s).1 = inl AssertionError).
Proof.
  intros (occ & emp & [Hr Hd] & He & _).
  assert ((reverse (simplelrucache.cache s)).*1 = key_of (heap c) <$> occ)
    as Hkeys by (by rewrite <- He, entries_keys).
  split.
  { rewrite (data_size _ _ _ (ring_NoDup_l _ _ _ Hr) Hd).
    rewrite <- (length_reverse (simplelrucache.cache s)), <- He.
    unfold entries. by rewrite length_fmap. }
  rewrite getitem_run.
  unfold __contains__, table_contains, simplelrucache.__contains__,
    simplelrucache.__getitem__. cbn [fst].
  destruct (table c !! k) as [n|] eqn:E.
  - destruct (data_split _ _ _ _ _ Hd E) as (A & B & -> & Hkn & HA & HB).
    rewrite entries_app in He. cbn [entries fmap list_fmap] in He.
    rewrite Hkn in He. fold (entries (heap c) B) in He.
    rewrite (simple_scan_hit _ _ _ _ _ (eq_sym He))
      by (by rewrite entries_keys).
    cbv zeta. cbn [fst snd]. rewrite obj_of_mtf_heap.
    rewrite !bool_decide_true by eauto.
    split_and!; try done.
  - rewrite simple_scan_miss by (rewrite Hkeys; by eapply data_miss).
    cbn [fst]. rewrite !bool_decide_false by (by intros [? ?]).
    split_and!; try done.
Qed.

(** X10.  After the same calls of [__getitem__], [__setitem__] and
    [__delitem__], none inserting the key [None], on a cache and on a
    simple cache of the same size: both have the same length, contain the
    same keys, and [__getitem__] returns the same object from both, raising
    [KeyError] in the cache exactly when the simple cache fails its
    [assert False]. *)
Theorem X10_same_answers (sz : Z) (c0 : t) (ops : list op) (k : pyval) :
  new sz = inr c0 → Forall keyed_no_clear ops →
  let c := run_ops ops c0 in
  let s := run_ops_simple ops (simplelrucache.new sz) in
  size (table c) = length (simplelrucache.cache s) ∧
  (__contains__ k c).1 = inr (simplelrucache.__contains__ k s) ∧
  (∀ v, (__getitem__ k c).1 = inr v ↔
        (simplelrucache.__getitem__ k s).1 = inr v) ∧
  ((__getitem__ k c).1 = inl KeyError ↔
   (simplelrucache.__getitem__ k s).1 = inl AssertionError).
Proof. intros Hn Hk c s. by apply sim_answers, sim_run. Qed.

(** The capacity-2 scenario of the specification, asked for the evicted
    key. *)
Lemma X10_witness :
  let ops := [Set_ (PInt 1) (PStr "a"); Set_ (PInt 2) (PStr "b");
              Get (PInt 1); Set_ (PInt 3) (PStr "c")] in
  let c := run_ops ops (grow first_node) in
  let s := run_ops_simple ops (simplelrucache.new 2) in
  size (table c) = length (simplelrucache.cache s) ∧
  (__contains__ (PInt 2) c).1 = inr (simplelrucache.__contains__ (PInt 2) s) ∧
  (∀ v, (__getitem__ (PInt 2) c).1 = inr v ↔
        (simplelrucache.__getitem__ (PInt 2) s).1 = inr v) ∧
  ((__getitem__ (PInt 2) c).1 = inl KeyError ↔
   (simplelrucache.__getitem__ (PInt 2) s).1 = inl AssertionError).
Proof.
  apply (X10_same_answers 2 (grow first_node)).
  - reflexivity.
  - repeat constructor; done.
Defined.

(** ** The simple cache on its own *)

Lemma scan_Some k i (l : list (pyval * pyval)) j x :
  simplelrucache.scan k i l = Some (j, x) →
  ∃ l1 l2,
    l = l1 ++ x :: l2 ∧ j = i + length l1 ∧ x.1 = k ∧ k ∉ l1.*1.
Proof.
  revert i. induction l as [|y l IH]; intros i; [done|].
  simpl. case_decide as Hy.
  - intros [= <- <-]. exists [], l.
    split_and!; [done|simpl; lia|done|by intros ?%elem_of_nil].
  - intros (l1 & l2 & -> & -> & Hx & Hk)%IH.
    exists (y :: l1), l2. split_and!; [done|simpl; lia|done|].
    simpl. apply not_elem_of_cons. by split.
Qed.

Lemma scan_None k i (l : list (pyval * pyval)) :
  simplelrucache.scan k i l = None → k ∉ l.*1.
Proof.
  revert i. induction l as [|y l IH]; intros i; [by intros _ ?%elem_of_nil|].
  simpl. case_decide as Hy; [done|].
  intros Hs%IH. apply not_elem_of_cons. split; [by intros ->|done].
Qed.

Lemma NoDup_keys_move (l1 l2 : list (pyval * pyval)) x y :
  x.1 = y.1 → NoDup (l1 ++ x :: l2).*1 → NoDup ((l1 ++ l2) ++ [y]).*1.
Proof.
  intros Hxy Hnd. rewrite !fmap_app in *. simpl in *. rewrite <- Hxy.
  eapply NoDup_Permutation_proper; [|exact Hnd].
  rewrite <- app_assoc. apply Permutation_app_head.
  change (x.1 :: l2.*1) with ([x.1] ++ l2.*1). apply Permutation_app_comm.
Qed.

Lemma simple_inv_after o s : simple_inv s → simple_inv (after_simple o s).
Proof.
  intros [Hnd Hlen]. destruct s as [l sz]. simpl in *.
  destruct o as [k|k v|k|]; unfold after_simple, run_op_simple;
    [unfold simplelrucache.__getitem__
    |unfold simplelrucache.__setitem__
    |unfold simplelrucache.__delitem__|by split];
    cbn [simplelrucache.cache simplelrucache.size];
    destruct (simplelrucache.scan k 0 l) as [[i x]|] eqn:Hs;
    cbn [snd]; try (by split).
  - apply scan_Some in Hs as (l1 & l2 & -> & -> & Hx & Hk).
    simpl. rewrite delete_middle. split; simpl.
    + by apply (NoDup_keys_move _ _ x).
    + intros H1. specialize (Hlen H1).
      rewrite !length_app in *. simpl in *. lia.
  - apply scan_Some in Hs as (l1 & l2 & -> & -> & Hx & Hk).
    simpl. rewrite delete_middle. split; simpl.
    + by apply (NoDup_keys_move _ _ x).
    + intros H1. specialize (Hlen H1).
      rewrite !length_app in *. simpl in *. lia.
  - apply scan_None in Hs. split; simpl.
    + rewrite fmap_app. simpl. apply NoDup_app. split_and!.
      * case_decide; [|done]. rewrite fmap_drop.
        eapply sublist_NoDup; [exact Hnd|apply sublist_drop].
      * intros y Hy Hy'. apply list_elem_of_singleton in Hy' as ->.
        apply Hs. case_decide; [|done]. rewrite fmap_drop in Hy.
        eapply elem_of_sublist; [exact Hy|apply sublist_drop].
      * apply NoDup_singleton.
    + intros H1. specialize (Hlen H1). case_decide as Hfull.
      * rewrite length_app, length_drop. simpl. lia.
      * rewrite length_app. simpl. lia.
  - apply scan_Some in Hs as (l1 & l2 & -> & -> & Hx & Hk).
    simpl. rewrite delete_middle. split; simpl.
    + rewrite fmap_app in *. simpl in Hnd.
      apply NoDup_app in Hnd as (H1 & H2 & H3).
      apply NoDup_cons in H3 as [_ H3]. apply NoDup_app. split_and!; try done.
      intros y Hy Hy'. apply (H2 y Hy). by right.
    + intros H1. specialize (Hlen H1).
      rewrite !length_app in *. simpl in *. lia.
Qed.

Lemma size_after_simple o s :
  simplelrucache.size (after_simple o s) = simplelrucache.size s.
Proof.
  destruct o as [k|k v|k|]; unfold after_simple, run_op_simple;
    [unfold simplelrucache.__getitem__
    |unfold simplelrucache.__setitem__
    |unfold simplelrucache.__delitem__|done];
    by destruct (simplelrucache.scan k 0 (simplelrucache.cache s))
      as [[i x]|].
Qed.

Lemma simple_inv_run ops sz :
  let s := run_ops_simple ops (simplelrucache.new sz) in
  simple_inv s ∧ simplelrucache.size s = sz.
Proof.
  assert (∀ s, simple_inv s →
            simple_inv (run_ops_simple ops s) ∧
            simplelrucache.size (run_ops_simple ops s)
            = simplelrucache.size s) as H.
  { induction ops as [|o ops IH]; intros s Hs; [done|].
    simpl. destruct (IH (after_simple o s)) as [H1 H2].
    - by apply simple_inv_after.
    - split; [done|]. by rewrite H2, size_after_simple. }
  apply H. split; simpl; [constructor|lia].
Qed.

(** X11.  Whatever calls are made on a simple cache, its keys are
    distinct; when its size is positive, its list never grows beyond the
    size. *)
Theorem X11_simple_invariant (sz : Z) (ops : list op) :
  let s := run_ops_simple ops (simplelrucache.new sz) in
  NoDup (simplelrucache.cache s).*1 ∧
  ((1 ≤ sz)%Z → (Z.of_nat (length (simplelrucache.cache s)) ≤ sz)%Z).
Proof.
  intros s. destruct (simple_inv_run ops sz) as [[H1 H2] H3].
  fold s in H1, H2, H3. rewrite H3 in H2. done.
Qed.

(** Three inserts into a simple cache of size 2. *)
Lemma X11_witness :
  let s := run_ops_simple
             [Set_ (PInt 1) (PStr "a"); Set_ (PInt 2) (PStr "b");
              Set_ (PInt 1) (PStr "c"); Set_ (PInt 3) (PStr "d")]
             (simplelrucache.new 2) in
  NoDup (simplelrucache.cache s).*1 ∧
  (Z.of_nat (length (simplelrucache.cache s)) ≤ 2)%Z.
Proof.
  intros s. destruct (X11_simple_invariant 2
    [Set_ (PInt 1) (PStr "a"); Set_ (PInt 2) (PStr "b");
     Set_ (PInt 1) (PStr "c"); Set_ (PInt 3) (PStr "d")]) as [H1 H2].
  split; [exact H1|]. apply H2. lia.
Defined.

(** X12.  In a simple cache, after [__setitem__] the key is contained and
    [__getitem__] returns the object stored and leaves the list as it is;
    after [__delitem__] the key is not contained and [__getitem__] fails
    its [assert False]. *)
Theorem X12_simple_round_trip (sz : Z) (ops : list op) (k v : pyval) :
  let s := run_ops_simple ops (simplelrucache.new sz) in
  let s1 := (simplelrucache.__setitem__ k v s).2 in
  let s2 := (simplelrucache.__delitem__ k s).2 in
  simplelrucache.__contains__ k s1 = true ∧
  simplelrucache.__getitem__ k s1 = (inr v, s1) ∧
  simplelrucache.__contains__ k s2 = false ∧
  simplelrucache.__getitem__ k s2 = (inl AssertionError, s2).
Proof.
  intros s s1 s2.
  assert (simple_inv s1) as [Hnd1 _].
  { apply (simple_inv_after (Set_ k v)), simple_inv_run. }
  assert (simple_inv s) as [Hnd _] by apply simple_inv_run.
  assert (∃ l, simplelrucache.cache s1 = l ++ [(k, v)]) as [l Hl].
  { unfold s1, simplelrucache.__setitem__.
    destruct (simplelrucache.scan k 0 (simplelrucache.cache s))
      as [[i x]|] eqn:Hs; cbn [snd simplelrucache.cache]; [|eauto].
    apply scan_Some in Hs as (l1 & l2 & _ & _ & -> & _). eauto. }
  assert (simplelrucache.scan k 0 (simplelrucache.cache s1)
          = Some (length l, (k, v))) as Hs1.
  { rewrite Hl. rewrite scan_found; [done|].
    rewrite Hl, fmap_app in Hnd1. apply NoDup_app in Hnd1 as (_ & H & _).
    intros Hin. apply (H _ Hin). by left. }
  assert (simplelrucache.scan k 0 (simplelrucache.cache s2) = None) as Hs2.
  { apply scan_fresh. unfold s2, simplelrucache.__delitem__.
    destruct (simplelrucache.scan k 0 (simplelrucache.cache s))
      as [[i x]|] eqn:Hs; cbn [snd simplelrucache.cache].
    - apply scan_Some in Hs as (l1 & l2 & E & -> & Hx & Hk).
      rewrite E in Hnd |- *. cbn [Nat.add]. rewrite delete_middle.
      rewrite fmap_app in *. simpl in Hnd.
      apply NoDup_app in Hnd as (_ & _ & H3).
      apply NoDup_cons in H3 as [H3 _]. rewrite Hx in H3.
      apply not_elem_of_app. by split.
    - by apply scan_None in Hs. }
  unfold simplelrucache.__contains__, simplelrucache.__getitem__.
  rewrite Hs1, Hs2. split_and!.
  - rewrite bool_decide_true; [done|eauto].
  - clear Hs1 Hnd1. destruct s1 as [l1 z1].
    cbn [simplelrucache.cache simplelrucache.size snd] in *. subst l1.
    rewrite (delete_middle l [] (k, v)). by rewrite app_nil_r.
  - rewrite bool_decide_false; [done|]. by intros [? ?].
  - done.
Qed.

(** ** Caches that are only written *)

Lemma filter_other_keys k (l : list (pyval * pyval)) :
  k ∉ l.*1 → filter (λ y, y.1 ≠ k) l = l.
Proof.
  induction l as [|x l IH]; [done|]. simpl. intros Hk.
  apply not_elem_of_cons in Hk as [Hne Hk].
  rewrite filter_cons_True by done. by rewrite IH.
Qed.

Lemma filter_keys_subseteq (P : pyval * pyval → Prop)
  `{!∀ x, Decision (P x)} (l : list (pyval * pyval)) k :
  k ∈ (filter P l).*1 → k ∈ l.*1.
Proof.
  intros (y & -> & Hy)%list_elem_of_fmap.
  apply list_elem_of_filter in Hy as [_ Hy].
  apply list_elem_of_fmap. eauto.
Qed.

Lemma NoDup_filter_keys (P : pyval * pyval → Prop)
  `{!∀ x, Decision (P x)} (l : list (pyval * pyval)) :
  NoDup l.*1 → NoDup (filter P l).*1.
Proof.
  induction l as [|x l IH]; [done|]. simpl.
  intros [Hx Hnd]%NoDup_cons. rewrite filter_cons.
  case_decide; [|by apply IH]. simpl. apply NoDup_cons. split; [|by apply IH].
  intros Hin. by apply Hx, (filter_keys_subseteq P).
Qed.

Lemma NoDup_touch R x : NoDup R.*1 → NoDup (touch R x).*1.
Proof.
  intros Hnd. unfold touch. simpl. apply NoDup_cons. split.
  - intros (y & Hy1 & Hy)%list_elem_of_fmap.
    apply list_elem_of_filter in Hy as [Hy _]. by apply Hy.
  - by apply NoDup_filter_keys.
Qed.

Lemma NoDup_recent kvs : NoDup (recent kvs).*1.
Proof.
  unfold recent. induction kvs as [|x kvs IH] using rev_ind.
  - constructor.
  - rewrite foldl_app. simpl. by apply NoDup_touch.
Qed.

(** One more pair does not bring back a pair that has been dropped. *)
Lemma take_filter_one k n (R : list (pyval * pyval)) :
  NoDup R.*1 →
  take n (filter (λ y, y.1 ≠ k) (take (S n) R))
  = take n (filter (λ y, y.1 ≠ k) R).
Proof.
  revert n. induction R as [|x R IH]; intros n Hnd; [done|].
  simpl in Hnd. apply NoDup_cons in Hnd as [Hx Hnd].
  destruct n as [|n]; [done|].
  change (take (S (S n)) (x :: R)) with (x :: take (S n) R).
  rewrite !filter_cons. case_decide as Hk.
  - simpl. by rewrite IH.
  - subst k.
    rewrite !filter_other_keys; [by rewrite take_idemp|done|].
    intros Hin. apply Hx. apply list_elem_of_fmap in Hin as (y & -> & Hy).
    apply list_elem_of_fmap. exists y. split; [done|].
    eapply elem_of_sublist; [exact Hy|apply sublist_take].
Qed.

(** [__setitem__] on a simple cache of size at least 1, read from the most
    recently used pair. *)
Lemma simple_set_recent k v (s : simplelrucache.t) :
  simple_inv s → (1 ≤ simplelrucache.size s)%Z →
  reverse (simplelrucache.cache (simplelrucache.__setitem__ k v s).2)
  = take (Z.to_nat (simplelrucache.size s))
         (touch (reverse (simplelrucache.cache s)) (k, v)).
Proof.
  intros [Hnd Hlen] Hsz. specialize (Hlen Hsz).
  destruct s as [l sz]. cbn [simplelrucache.cache simplelrucache.size] in *.
  unfold simplelrucache.__setitem__, touch.
  cbn [simplelrucache.cache simplelrucache.size fst].
  destruct (simplelrucache.scan k 0 l) as [[i x]|] eqn:Hs; cbn [snd].
  - apply scan_Some in Hs as (l1 & l2 & -> & -> & Hx & Hk).
    cbn [Nat.add simplelrucache.cache]. rewrite delete_middle.
    rewrite Hx, reverse_snoc.
    rewrite fmap_app in Hnd. simpl in Hnd.
    apply NoDup_app in Hnd as (_ & _ & Hnd).
    apply NoDup_cons in Hnd as [Hk2 _]. rewrite Hx in Hk2.
    rewrite filter_reverse, filter_app, filter_cons_False
      by (intros H; by apply H).
    rewrite !filter_other_keys by done.
    rewrite take_ge; [done|]. simpl.
    rewrite length_reverse, !length_app in *. simpl in Hlen. lia.
  - apply scan_None in Hs. cbn [simplelrucache.cache].
    rewrite reverse_snoc, filter_reverse, filter_other_keys by done.
    case_decide as Hfull.
    + destruct l as [|x l]; [simpl in Hfull; lia|].
      simpl drop. rewrite drop_0.
      replace (Z.to_nat sz) with (S (length l)) by (simpl in Hfull; lia).
      simpl take. f_equal. rewrite reverse_cons.
      by rewrite take_app_length' by (by rewrite length_reverse).
    + rewrite take_ge; [done|]. simpl. rewrite length_reverse. lia.
Qed.

Lemma run_ops_simple_snoc ops o s :
  run_ops_simple (ops ++ [o]) s = after_simple o (run_ops_simple ops s).
Proof. unfold run_ops_simple. by rewrite foldl_app. Qed.

Lemma simple_sets_recent sz kvs :
  (1 ≤ sz)%Z →
  reverse (simplelrucache.cache
             (run_ops_simple (sets kvs) (simplelrucache.new sz)))
  = take (Z.to_nat sz) (recent kvs).
Proof.
  intros Hsz. induction kvs as [|[k v] kvs IH] using rev_ind.
  - unfold recent. simpl. by rewrite take_nil.
  - unfold sets. rewrite fmap_app. fold (sets kvs). simpl.
    rewrite run_ops_simple_snoc.
    destruct (simple_inv_run (sets kvs) sz) as [Hinv Hs].
    cbv zeta in Hinv, Hs.
    unfold after_simple, run_op_simple. cbn [snd].
    rewrite simple_set_recent by (by rewrite ?Hs).
    rewrite Hs, IH. unfold recent. rewrite foldl_app. simpl.
    fold (recent kvs). unfold touch. cbn [fst].
    destruct (Z.to_nat sz) as [|n] eqn:En; [lia|].
    simpl take. f_equal. apply take_filter_one, NoDup_recent.
Qed.

Lemma Forall_sets kvs :
  Forall (λ x, x.1 ≠ PNone) kvs → Forall keyed_no_clear (sets kvs).
Proof.
  intros H. unfold sets. apply Forall_fmap.
  eapply Forall_impl; [exact H|]. intros [k v] Hk. by split.
Qed.

(** X13.  A cache that has only been written, with keys other than
    [None], holds the pairs written last: read from [head], its pairs are
    the first [size] of the pairs written, the last written first, each
    key once with the object written last. *)
Theorem X13_written_last (sz : Z) (c0 : t) (kvs : list (pyval * pyval)) :
  new sz = inr c0 → Forall (λ x, x.1 ≠ PNone) kvs →
  let c := run_ops (sets kvs) c0 in
  items c = take (Z.to_nat sz) (recent kvs) ∧
  size (table c) = Z.to_nat sz `min` length (recent kvs).
Proof.
  intros Hn Hk c. apply Forall_sets in Hk.
  pose proof (sim_run sz c0 _ Hn Hk) as Hsim. fold c in Hsim.
  pose proof (sim_agree _ _ Hsim) as Ha. unfold agree in Ha.
  destruct (new_ok _ _ Hn) as (Hsz & _).
  rewrite simple_sets_recent in Ha by lia. split; [done|].
  destruct (sim_answers c _ PNone Hsim) as (Hlen & _).
  rewrite Hlen, <- length_reverse, simple_sets_recent by lia.
  by rewrite length_take, Nat.min_comm.
Qed.

Lemma X13_witness :
  let c := run_ops (sets [(PInt 1, PStr "a"); (PInt 2, PStr "b");
                          (PInt 1, PStr "c"); (PInt 3, PStr "d")])
             (grow first_node) in
  items c = [(PInt 3, PStr "d"); (PInt 1, PStr "c")] ∧ size (table c) = 2.
Proof.
  apply (X13_written_last 2 (grow first_node)
           [(PInt 1, PStr "a"); (PInt 2, PStr "b");
            (PInt 1, PStr "c"); (PInt 3, PStr "d")]).
  - reflexivity.
  - repeat constructor; done.
Defined.

(** ** The self test and the timed functions *)

Lemma selftest_loop_ok draws (a : t) (b : simplelrucache.t) :
  sim a b →
  ∃ a' b', selftest_loop draws a b = inr (a', b') ∧ sim a' b' ∧
           a' = run_ops (sets ((λ d, (PInt d.1, PInt d.2)) <$> draws)) a.
Proof.
  revert a b. induction draws as [|[x y] draws IH]; intros a b Hsim.
  - by exists a, b.
  - cbn [selftest_loop].
    pose proof Hsim as (occ & emp & Hrep & _).
    pose proof (rep_set_total a occ emp (PInt x) (PInt y) Hrep) as Hok.
    pose proof (sim_after (Set_ (PInt x) (PInt y)) a b) as Hstep.
    rewrite after_set in Hstep. unfold after_simple, run_op_simple in Hstep.
    cbn [snd] in Hstep.
    destruct (__setitem__ (PInt x) (PInt y) a) as [[e|[]] a'] eqn:Ea;
      [by specialize (Hok ltac:(done))|].
    destruct (simplelrucache.__setitem__ (PInt x) (PInt y) b)
      as [[e|[]] b'] eqn:Eb.
    { unfold simplelrucache.__setitem__ in Eb.
      by destruct (simplelrucache.scan _ _ _) as [[??]|]. }
    cbn [snd] in Hstep.
    assert (sim a' b') as Hsim' by (by apply Hstep).
    rewrite decide_True by (by apply sim_agree).
    destruct (IH a' b' Hsim') as (a2 & b2 & H1 & H2 & H3).
    exists a2, b2. split_and!; [done..|].
    rewrite H3. cbn [fmap list_fmap sets]. unfold run_ops at 2.
    cbn [foldl fst snd]. by rewrite after_set, Ea.
Qed.

(** X14.  The self test never fails: whatever [random.randint] returns,
    no [__setitem__] raises and the [assert False] of the loop is not
    reached; the two caches hold the same pairs in the same order when the
    loop is left. *)
Theorem X14_selftest_passes (draws : list (Z * Z)) :
  ∃ a b, selftest draws = inr (a, b) ∧
         items a = reverse (simplelrucache.cache b) ∧
         items a = take 20 (recent ((λ d, (PInt d.1, PInt d.2)) <$> draws)).
Proof.
  unfold selftest.
  destruct (new_succeeds 20 ltac:(lia)) as [a0 Hn]. rewrite Hn.
  destruct (selftest_loop_ok draws a0 (simplelrucache.new 20))
    as (a & b & H1 & H2 & H3); [by apply sim_new|].
  exists a, b. split_and!; [done|by apply sim_agree|].
  rewrite H3.
  assert (Forall (λ x : pyval * pyval, x.1 ≠ PNone)
            ((λ d : Z * Z, (PInt d.1, PInt d.2)) <$> draws)) as Hk.
  { apply Forall_fmap, Forall_forall. by intros [??] _. }
  pose proof (sim_run 20 a0 _ Hn (Forall_sets _ Hk)) as Hsim.
  pose proof (sim_agree _ _ Hsim) as Ha. unfold agree in Ha.
  by rewrite simple_sets_recent in Ha by lia.
Qed.

Lemma subscript_range {A} (l : list A) (i : nat) x :
  l !! i = Some x → subscript l (0 + Z.of_nat i) = Some x.
Proof.
  intros H. unfold subscript. rewrite decide_True by lia.
  by replace (Z.to_nat (0 + Z.of_nat i)) with i by lia.
Qed.

Lemma testa_loop_ok vect (js : list nat) (xs : list Z) (a : t) b :
  Forall2 (λ j x, vect !! j = Some x) js xs → sim a b →
  let ops := sets ((λ x, (PInt x, PInt 0%Z)) <$> xs) in
  testa_loop vect ((λ i : nat, 0 + Z.of_nat i)%Z <$> js) a
    = inr (run_ops ops a) ∧
  testb_loop vect ((λ i : nat, 0 + Z.of_nat i)%Z <$> js) b
    = inr (run_ops_simple ops b).
Proof.
  intros H. revert a b. induction H as [|j x js xs Hj H IH]; intros a b Hsim.
  - done.
  - cbn [fmap list_fmap testa_loop testb_loop].
    change (list_fmap ?f ?l) with (f <$> l).
    rewrite (subscript_range _ _ _ Hj).
    pose proof Hsim as (occ & emp & Hrep & _).
    pose proof (rep_set_total a occ emp (PInt x) (PInt 0) Hrep) as Hok.
    pose proof (sim_after (Set_ (PInt x) (PInt 0%Z)) a b) as Hstep.
    rewrite after_set in Hstep. unfold after_simple, run_op_simple in Hstep.
    cbn [snd] in Hstep.
    destruct (__setitem__ (PInt x) (PInt 0) a) as [[e|[]] a'] eqn:Ea;
      [by specialize (Hok ltac:(done))|].
    destruct (simplelrucache.__setitem__ (PInt x) (PInt 0) b)
      as [[e|[]] b'] eqn:Eb.
    { unfold simplelrucache.__setitem__ in Eb.
      by destruct (simplelrucache.scan _ _ _) as [[??]|]. }
    cbn [snd] in Hstep.
    assert (sim a' b') as Hsim' by (by apply Hstep).
    destruct (IH a' b' Hsim') as [H1 H2]. cbv zeta in H1, H2.
    cbv zeta. rewrite H1, H2. unfold sets, run_ops, run_ops_simple.
    cbn [fmap list_fmap foldl fst snd].
    rewrite after_set, Ea. unfold after_simple, run_op_simple.
    by rewrite Eb.
Qed.

(** X15.  The two timed functions run to their end on every list [vect]:
    no subscript is out of range and no [__setitem__] raises.  The caches
    they fill hold the same pairs in the same order: the last 16 distinct
    values of [vect], the last used first. *)
Theorem X15_timed_functions (vect : list Z) :
  ∃ a b, testa vect = inr a ∧ testb vect = inr b ∧
         items a = reverse (simplelrucache.cache b) ∧
         items a = take 16 (recent ((λ x, (PInt x, PInt 0%Z)) <$> vect)).
Proof.
  unfold testa, testb.
  destruct (new_succeeds 16 ltac:(lia)) as [a0 Hn]. rewrite Hn.
  unfold range. rewrite Z.sub_0_r, Nat2Z.id.
  destruct (testa_loop_ok vect (seq 0 (length vect)) vect a0
              (simplelrucache.new 16)) as [H1 H2]; [|by apply sim_new|].
  { apply Forall2_same_length_lookup. split; [by rewrite length_seq|].
    intros i j x Hj Hx. apply lookup_seq in Hj as [-> _]. done. }
  cbv zeta in H1, H2. rewrite H1, H2. eexists _, _.
  assert (Forall (λ x : pyval * pyval, x.1 ≠ PNone)
            ((λ x : Z, (PInt x, PInt 0%Z)) <$> vect)) as Hk.
  { apply Forall_fmap, Forall_forall. by intros ? _. }
  split_and!; [done..| |].
  - apply sim_agree, sim_run; [done|]. by apply Forall_sets.
  - pose proof (sim_run 16 a0 _ Hn (Forall_sets _ Hk)) as Hsim.
    pose proof (sim_agree _ _ Hsim) as Ha. unfold agree in Ha.
    by rewrite simple_sets_recent in Ha by lia.
Qed.

(** ** The finalizer *)

Lemma length_oupd f n (h : list onode) : length (oupd f n h) = length h.
Proof. unfold oupd. destruct (h !! n); [apply length_insert | done]. Qed.

Lemma onode_at_oupd f n (h : list onode) m :
  onode_at (oupd f n h) m =
  if decide (m = n ∧ n < length h) then f (onode_at h n) else onode_at h m.
Proof.
  unfold oupd, onode_at. destruct (h !! n) as [d|] eqn:E.
  - pose proof (lookup_lt_Some _ _ _ E) as Hlt.
    destruct (decide (m = n)) as [->|Hne].
    + rewrite list_lookup_insert_eq by done. rewrite E.
      by rewrite decide_True.
    + rewrite list_lookup_insert_ne by done.
      rewrite decide_False; [done | by intros [? _]].
  - apply lookup_ge_None in E. rewrite decide_False; [done | lia].
Qed.

Lemma onode_at_loosen (h : list dlnode) n :
  onode_at (loosen <$> h) n = loosen (node_at h n).
Proof.
  unfold onode_at, node_at. rewrite list_lookup_fmap.
  by destruct (h !! n).
Qed.

(** A list linked along [next] is linked along [prev] when read
    backwards. *)
Lemma path_reverse nx pv l a z :
  path nx pv a (l ++ [z]) → path pv nx z (reverse l ++ [a]).
Proof.
  revert a. induction l as [|b l IH]; intros a.
  - intros (H1 & H2 & _). by split.
  - change ((b :: l) ++ [z]) with (b :: (l ++ [z])).
    intros (H1 & H2 & H3). apply IH in H3.
    rewrite reverse_cons. apply path_snoc. split; [done|].
    rewrite List.last_last. by split.
Qed.

Lemma last_middle (l1 l2 : list ref) n d :
  List.last (l1 ++ n :: l2) d = List.last l2 n.
Proof.
  revert d. induction l1 as [|a l1 IH]; intros d.
  - apply last_cons.
  - change ((a :: l1) ++ n :: l2) with (a :: (l1 ++ n :: l2)).
    by rewrite last_cons, IH.
Qed.

(** The loop cuts the [prev] link of the nodes it visits, and of no
    other. *)
Lemma del_loop_run nx pv z rest : ∀ n h fuel,
  NoDup (n :: rest) →
  path pv nx n (rest ++ [z]) →
  (∀ i, onext (onode_at h i) = Some (nx i)) →
  (∀ i, i ∈ n :: rest →
        i < length h ∧ oprev (onode_at h i) = Some (pv i)) →
  z ∈ n :: rest ∨ oprev (onode_at h z) = None →
  length rest + 1 < fuel →
  ∃ h', del_loop fuel n h = Some (inr h') ∧ length h' = length h ∧
        ∀ i, onode_at h' i =
             if decide (i ∈ n :: rest) then cut_prev (onode_at h i)
             else onode_at h i.
Proof.
  induction rest as [|p rest IH]; intros n h fuel Hnd Hp Hn Hl Hz Hf.
  - destruct Hp as (Hpv & Hnx & _).
    destruct fuel as [|[|f]]; [simpl in Hf; lia..|].
    destruct (Hl n) as [Hlt Hpr]; [by left|].
    assert (oprev (onode_at (oupd cut_prev n h) z) = None) as Hcut.
    { rewrite onode_at_oupd. case_decide as Hd; [done|].
      destruct Hz as [Hz|Hz]; [|done].
      apply list_elem_of_singleton in Hz. subst z. by destruct Hd. }
    exists (oupd cut_prev n h). split_and!.
    + cbn [del_loop]. rewrite Hpr, Hpv, Hn, Hnx. cbn [del_loop].
      by rewrite Hcut.
    + apply length_oupd.
    + intros i. rewrite onode_at_oupd.
      destruct (decide (i = n)) as [->|Hne].
      * rewrite decide_True by done. rewrite decide_True; [done|by left].
      * rewrite decide_False by (by intros [? _]).
        rewrite decide_False; [done|].
        by intros ?%list_elem_of_singleton.
  - change ((p :: rest) ++ [z]) with (p :: (rest ++ [z])) in Hp.
    destruct Hp as (Hpv & Hnx & Hp).
    destruct fuel as [|f]; [lia|].
    destruct (Hl n) as [Hlt Hpr]; [by left|].
    apply NoDup_cons in Hnd as [Hnin Hnd].
    destruct (IH p (oupd cut_prev n h) f) as (h' & H1 & H2 & H3).
    + done.
    + done.
    + intros i. rewrite onode_at_oupd.
      case_decide as Hd; [destruct Hd as [-> _]|]; apply Hn.
    + intros i Hi. rewrite length_oupd, onode_at_oupd.
      rewrite decide_False; [apply Hl; by right|].
      intros [-> _]. done.
    + destruct Hz as [Hz|Hz].
      * apply elem_of_cons in Hz as [->|Hz]; [|by left].
        right. rewrite onode_at_oupd. by rewrite decide_True.
      * right. rewrite onode_at_oupd. by case_decide.
    + simpl in Hf. lia.
    + exists h'. split_and!.
      * cbn [del_loop]. by rewrite Hpr, Hpv, Hn, Hnx.
      * by rewrite H2, length_oupd.
      * intros i. rewrite H3, !onode_at_oupd.
        destruct (decide (i = n)) as [->|Hne].
        -- rewrite decide_False by done. rewrite decide_True by done.
           rewrite decide_True; [done|by left].
        -- rewrite (decide_False (P := i = n ∧ _)) by (by intros [? _]).
           destruct (decide (i ∈ p :: rest)) as [Hi|Hi].
           ++ rewrite decide_True; [done|by right].
           ++ rewrite decide_False; [done|].
              by intros [?|?]%elem_of_cons.
Qed.

Lemma chase_None (h : list onode) k : chase h k None = None.
Proof. by destruct k. Qed.

(** Along a list whose last node has no [next], the walk ends. *)
Lemma chase_path (h : list onode) nx pv l : ∀ n k,
  path nx pv n l → NoDup (n :: l) →
  (∀ i, i ∈ n :: l → i ≠ List.last l n →
        onext (onode_at h i) = Some (nx i)) →
  onext (onode_at h (List.last l n)) = None →
  length l < k →
  chase h k (Some n) = None.
Proof.
  induction l as [|b l IH]; intros n k Hp Hnd Hi Hlast Hk.
  - destruct k as [|k]; [lia|]. cbn [chase].
    simpl in Hlast. rewrite Hlast. apply chase_None.
  - destruct Hp as (Hnx & _ & Hp). rewrite last_cons in Hlast.
    destruct k as [|k]; [lia|]. cbn [chase].
    apply NoDup_cons in Hnd as [Hnin Hnd].
    rewrite Hi; [|by left|].
    + rewrite Hnx. apply IH; [done..| |done|simpl in Hk; lia].
      intros i Hin Hne. apply Hi; [by right|by rewrite last_cons].
    + rewrite last_cons. intros ->. apply Hnin, last_elem.
Qed.

(** X16.  [__del__] ends without an exception on every cache the methods
    can produce, within one round of its loop per node and one more.  It
    leaves every node without [prev], the node before [head] without
    [next], and the other nodes, their keys and their objects as they
    were; then no cycle is left: from every node, the walk along [next]
    ends. *)
Theorem X16_finalizer (sz : Z) (c0 : t) (ops : list op) (fuel : nat) :
  new sz = inr c0 → Z.to_nat sz < fuel →
  let c := run_ops ops c0 in
  ∃ h', __del__ fuel c = Some (inr h') ∧ length h' = Z.to_nat sz ∧
        ∀ n, n < Z.to_nat sz →
             oprev (onode_at h' n) = None ∧
             onext (onode_at h' n) =
               (if decide (n = prv (heap c) (head c)) then None
                else Some (nxt (heap c) n)) ∧
             okey (onode_at h' n) = key_of (heap c) n ∧
             oobj (onode_at h' n) = obj_of (heap c) n ∧
             chase h' (Z.to_nat sz) (Some n) = None.
Proof.
  intros Hn Hfuel c.
  destruct (wf_run sz c0 ops Hn) as (Hlen & [l Hr] & _). fold c in Hlen, Hr.
  pose proof (ring_length _ _ Hr) as Hll.
  pose proof Hr as (Hhd & Hcyc & Hnd & Hin).
  destruct l as [|a l']; [done|]. injection Hhd as ->.
  set (nx := nxt (heap c)) in *. set (pv := prv (heap c)) in *.
  set (h0 := loosen <$> heap c).
  assert (pv (head c) < length (heap c)) as Htl.
  { apply Hin. eapply cyc_next_in; [exact Hcyc|by left]. }
  destruct (del_loop_run nx pv (head c) (reverse l') (head c) h0 fuel)
    as (h1 & H1 & H2 & H3).
  - apply NoDup_cons in Hnd as [Hnin Hnd]. apply NoDup_cons.
    split; [by rewrite elem_of_reverse|by rewrite reverse_Permutation].
  - by apply path_reverse.
  - intros i. unfold h0. by rewrite onode_at_loosen.
  - intros i Hi. unfold h0. rewrite length_fmap, onode_at_loosen.
    split; [|done]. apply Hin.
    apply elem_of_cons in Hi as [->|Hi]; [by left|].
    right. by apply elem_of_reverse.
  - left. by left.
  - rewrite length_reverse. simpl in Hll. lia.
  - assert (∀ i, i < length (heap c) →
                 onode_at (oupd cut_next (pv (head c)) h1) i =
                 if decide (i = pv (head c))
                 then cut_next (cut_prev (loosen (node_at (heap c) i)))
                 else cut_prev (loosen (node_at (heap c) i))) as Hat.
    { assert (∀ j, j < length (heap c) →
                   onode_at h1 j = cut_prev (loosen (node_at (heap c) j)))
        as Hall.
      { intros j Hj. rewrite H3. unfold h0. rewrite onode_at_loosen.
        apply Hin in Hj. rewrite decide_True; [done|].
        apply elem_of_cons in Hj as [->|Hj]; [by left|].
        right. by apply elem_of_reverse. }
      intros i Hi. rewrite onode_at_oupd, H2. unfold h0.
      rewrite length_fmap.
      destruct (decide (i = pv (head c))) as [->|Hne].
      - rewrite decide_True by done. by rewrite Hall.
      - rewrite decide_False by (by intros [? _]). by rewrite Hall. }
    exists (oupd cut_next (pv (head c)) h1). split_and!.
    + unfold __del__. cbv zeta. fold h0. rewrite H1.
      unfold h0. by rewrite onode_at_loosen.
    + rewrite length_oupd, H2. unfold h0. by rewrite length_fmap.
    + intros n Hlt. rewrite <- Hlen in Hlt.
      rewrite (Hat n Hlt). split_and!.
      * by case_decide.
      * by case_decide.
      * by case_decide.
      * by case_decide.
      * pose proof (proj2 (Hin n) Hlt) as Hnl.
        apply list_elem_of_split in Hnl as (l1 & l2 & El).
        destruct (ring_nonempty _ _ Hr) as (l3 & tl & E3).
        destruct (ring_head_prev c (table c) l3 tl) as [Htail _];
          [by rewrite <- E3|].
        assert (List.last l2 n = pv (head c)) as Hlast.
        { rewrite <- (last_middle l1 l2 n 0), <- El, E3.
          by rewrite List.last_last. }
        apply (chase_path _ nx pv l2).
        -- unfold cyc in Hcyc. destruct l1 as [|b l1].
           ++ injection El as E1 E2. subst n l'.
              by apply path_snoc in Hcyc as [? _].
           ++ injection El as E1 E2. subst b l'.
              rewrite <- app_assoc in Hcyc.
              change ((n :: l2) ++ [head c]) with (n :: (l2 ++ [head c]))
                in Hcyc.
              apply path_app in Hcyc as [_ Hcyc].
              by apply path_snoc in Hcyc as [? _].
        -- rewrite El in Hnd. by apply NoDup_app in Hnd as (_ & _ & ?).
        -- intros i Hi Hne. rewrite Hat.
           ++ rewrite Hlast in Hne. by rewrite decide_False.
           ++ apply Hin. rewrite El. apply elem_of_app. by right.
        -- rewrite Hlast, Hat by done. by rewrite decide_True.
        -- rewrite <- Hlen, <- Hll, El, length_app. simpl. lia.
Qed.

Lemma X16_witness :
  let c := run_ops [Set_ (PInt 1) (PStr "a"); Set_ (PInt 2) (PStr "b");
                    Get (PInt 1); Del (PInt 2)]
             (grow (grow first_node)) in
  3 < 4 ∧
  ∃ h', __del__ 4 c = Some (inr h') ∧ length h' = 3 ∧
        ∀ n, n < 3 →
             oprev (onode_at h' n) = None ∧
             onext (onode_at h' n) =
               (if decide (n = prv (heap c) (head c)) then None
                else Some (nxt (heap c) n)) ∧
             okey (onode_at h' n) = key_of (heap c) n ∧
             oobj (onode_at h' n) = obj_of (heap c) n ∧
             chase h' 3 (Some n) = None.
Proof.
  split; [lia|].
  apply (X16_finalizer 3 (grow (grow first_node))
           [Set_ (PInt 1) (PStr "a"); Set_ (PInt 2) (PStr "b");
            Get (PInt 1); Del (PInt 2)] 4).
  - reflexivity.
  - simpl. lia.
Defined.

(** ** [clear] and the sizes the simple cache accepts *)

(** X17.  [clear] empties the dictionary and touches neither [head] nor a
    node: the keys and objects stay in the nodes.  After it the length is
    0, no key is contained, and [__getitem__] and [__delitem__] raise
    [KeyError].  The next [__setitem__] raises [KeyError] when the node
    before [head] still holds a key, and succeeds when that node is
    empty. *)
Theorem X17_clear (c : t) (k v : pyval) :
  let c' := Cache ∅ (head c) (heap c) in
  let old := key_of (heap c) (prv (heap c) (head c)) in
  clear c = (inr (), c') ∧
  __len__ c' = (inr 0, c') ∧
  __contains__ k c' = (inr false, c') ∧
  __getitem__ k c' = (inl KeyError, c') ∧
  __delitem__ k c' = (inl KeyError, c') ∧
  (old ≠ PNone → __setitem__ k v c' = (inl KeyError, c')) ∧
  (old = PNone → (__setitem__ k v c').1 = inr ()).
Proof.
  intros c' old. split_and!.
  - done.
  - done.
  - unfold __contains__, table_contains. cbn [table c'].
    rewrite lookup_empty. by rewrite bool_decide_false by (by intros [? ?]).
  - rewrite getitem_run. cbn [table c']. by rewrite lookup_empty.
  - rewrite delitem_run. cbn [table c']. by rewrite lookup_empty.
  - intros Hold. rewrite setitem_run. cbn [table head heap c'].
    rewrite lookup_empty. cbv zeta. fold old.
    rewrite decide_False by done. by rewrite lookup_empty.
  - intros Hold. rewrite setitem_run. cbn [table head heap c'].
    rewrite lookup_empty. cbv zeta. fold old.
    by rewrite decide_True by done.
Qed.

Lemma X17_witness :
  let c := run_ops [Set_ (PStr "a") (PInt 1)] first_node in
  __setitem__ (PStr "b") (PInt 2) (Cache ∅ (head c) (heap c))
    = (inl KeyError, Cache ∅ (head c) (heap c)) ∧
  (__setitem__ (PStr "b") (PInt 2)
     (Cache ∅ (head first_node) (heap first_node))).1 = inr ().
Proof.
  intros c. split.
  - apply (X17_clear c (PStr "b") (PInt 2)). vm_compute. done.
  - apply (X17_clear first_node (PStr "b") (PInt 2)). vm_compute. done.
Defined.

Lemma simple_set_unbounded k v (s : simplelrucache.t) :
  NoDup (simplelrucache.cache s).*1 → (simplelrucache.size s ≤ 0)%Z →
  reverse (simplelrucache.cache (simplelrucache.__setitem__ k v s).2)
  = touch (reverse (simplelrucache.cache s)) (k, v).
Proof.
  intros Hnd Hsz.
  destruct s as [l sz]. cbn [simplelrucache.cache simplelrucache.size] in *.
  unfold simplelrucache.__setitem__, touch.
  cbn [simplelrucache.cache simplelrucache.size fst].
  destruct (simplelrucache.scan k 0 l) as [[i x]|] eqn:Hs; cbn [snd].
  - apply scan_Some in Hs as (l1 & l2 & -> & -> & Hx & Hk).
    cbn [Nat.add simplelrucache.cache]. rewrite delete_middle.
    rewrite Hx, reverse_snoc.
    rewrite fmap_app in Hnd. simpl in Hnd.
    apply NoDup_app in Hnd as (_ & _ & Hnd).
    apply NoDup_cons in Hnd as [Hk2 _]. rewrite Hx in Hk2.
    rewrite filter_reverse, filter_app, filter_cons_False
      by (intros H; by apply H).
    by rewrite !filter_other_keys by done.
  - apply scan_None in Hs. cbn [simplelrucache.cache].
    rewrite reverse_snoc, filter_reverse, filter_other_keys by done.
    case_decide as Hfull; [|done].
    destruct l as [|x l]; [done|]. simpl in Hfull. lia.
Qed.

(** X18.  [simplelrucache(size)] takes every [size]; with a [size] of 0
    or less it never drops a pair: after writes only it holds every key
    written, the last written first when read from its end. *)
Theorem X18_simple_unbounded (sz : Z) (kvs : list (pyval * pyval)) :
  (sz ≤ 0)%Z →
  reverse (simplelrucache.cache
             (run_ops_simple (sets kvs) (simplelrucache.new sz)))
  = recent kvs.
Proof.
  intros Hsz. induction kvs as [|[k v] kvs IH] using rev_ind; [done|].
  unfold sets. rewrite fmap_app. fold (sets kvs). simpl.
  rewrite run_ops_simple_snoc.
  destruct (simple_inv_run (sets kvs) sz) as [[Hnd _] Hs].
  unfold after_simple, run_op_simple. cbn [snd].
  rewrite simple_set_unbounded by (by rewrite ?Hs).
  rewrite IH. unfold recent. by rewrite foldl_app.
Qed.

Lemma X18_witness :
  reverse (simplelrucache.cache
             (run_ops_simple (sets [(PInt 1, PStr "a"); (PInt 2, PStr "b");
                                    (PInt 1, PStr "c")])
                (simplelrucache.new 0)))
  = [(PInt 1, PStr "c"); (PInt 2, PStr "b")].
Proof.
  apply (X18_simple_unbounded 0 [(PInt 1, PStr "a"); (PInt 2, PStr "b");
                                 (PInt 1, PStr "c")]).
  lia.
Defined.

(** X19.  [__delitem__] of the simple cache never raises; it removes the
    pair with the key, if there is one, and leaves the other pairs in
    their order. *)
Theorem X19_simple_delete (sz : Z) (ops : list op) (k : pyval) :
  let s := run_ops_simple ops (simplelrucache.new sz) in
  simplelrucache.__delitem__ k s
  = (inr (), simplelrucache.Simple
               (filter (λ y, y.1 ≠ k) (simplelrucache.cache s))
               (simplelrucache.size s)).
Proof.
  intros s. destruct (simple_inv_run ops sz) as [[Hnd _] _]. fold s in Hnd.
  destruct s as [l z]. cbn [simplelrucache.cache simplelrucache.size] in *.
  unfold simplelrucache.__delitem__.
  cbn [simplelrucache.cache simplelrucache.size].
  destruct (simplelrucache.scan k 0 l) as [[i x]|] eqn:Hs.
  - apply scan_Some in Hs as (l1 & l2 & -> & -> & Hx & Hk).
    cbn [Nat.add]. rewrite delete_middle.
    rewrite fmap_app in Hnd. simpl in Hnd.
    apply NoDup_app in Hnd as (_ & _ & Hnd).
    apply NoDup_cons in Hnd as [Hk2 _]. rewrite Hx in Hk2.
    rewrite filter_app, filter_cons_False by (intros H; by apply H).
    by rewrite !filter_other_keys by done.
  - apply scan_None in Hs. by rewrite filter_other_keys by done.
Qed.
